(** * Montias / Getty inventory reconciliation: a shallow embedding

    The development follows the four Python modules of the repository:

    - [matching.py]: the record-linkage engine ([Matching]);
    - [convert.py] and [convertGPI.py]: the Getty graph builders
      ([Convert], [ConvertGPI]);
    - [convertFrick.py]: the Frick/Montias graph builder ([Frick]).

    Conventions.  A Python [str] is a [string]; one [ascii] stands for one
    character.  An rdflib graph is a finite set of triples, and [g.add] is
    insertion into that set.  A row of a [csv.DictReader] is a function
    from column names to field values.  Library functions whose behaviour
    the repository does not fix ([textacy]'s [token_sort_ratio], the
    Unicode case mapping [str.upper]) are section variables, so that every
    theorem holds for whatever these functions compute. *)

From Stdlib Require Import ZArith String Ascii List Lia Bool.
From Stdlib Require Import DecimalString DecimalNat DecimalFacts.
From Stdlib Require Import PrimFloat.
From stdpp Require Import base option list gmap strings.

Local Open Scope string_scope.
Set Warnings "-clear-no-such-hyp".


(** * Part I: the model *)

(** ** Python strings and numbers *)

Module Py.

(** [sub in s] *)
Fixpoint contains (sub s : string) : bool :=
  String.prefix sub s ||
  match s with
  | String _ s' => contains sub s'
  | EmptyString => false
  end.

(** [s != ""] *)
Definition nonempty (s : string) : bool := negb (String.eqb s "").

(** The rest of [s] after the literal [lit], when [s] starts with it. *)
Fixpoint strip_prefix (lit s : string) : option string :=
  match lit with
  | EmptyString => Some s
  | String a lit' =>
      match s with
      | String b s' => if Ascii.eqb a b then strip_prefix lit' s' else None
      | EmptyString => None
      end
  end.

(** ["".join(c for c in s if p(c))] *)
Fixpoint filter_chars (p : ascii → bool) (s : string) : string :=
  match s with
  | EmptyString => EmptyString
  | String c s' =>
      if p c then String c (filter_chars p s') else filter_chars p s'
  end.

Definition code_between (lo hi : nat) (c : ascii) : bool :=
  (lo <=? nat_of_ascii c)%nat && (nat_of_ascii c <=? hi)%nat.

(** Every character of [s] is in the class [p]; the first character of
    [s] is; the longest prefix of [s] in the class, and what follows it. *)
Fixpoint all_chars (p : ascii → bool) (s : string) : bool :=
  match s with
  | EmptyString => true
  | String c s' => p c && all_chars p s'
  end.

Definition starts_with (p : ascii → bool) (s : string) : bool :=
  match s with
  | String c _ => p c
  | EmptyString => false
  end.

Fixpoint take_while (p : ascii → bool) (s : string) : string :=
  match s with
  | String c s' => if p c then String c (take_while p s') else EmptyString
  | EmptyString => EmptyString
  end.

Fixpoint drop_while (p : ascii → bool) (s : string) : string :=
  match s with
  | String c s' => if p c then drop_while p s' else s
  | EmptyString => EmptyString
  end.

(** At most [n] leading characters of the class [p], and what follows
    them. *)
Fixpoint take_upto (n : nat) (p : ascii → bool) (s : string) : string :=
  match n, s with
  | S n', String c s' =>
      if p c then String c (take_upto n' p s') else EmptyString
  | _, _ => EmptyString
  end.

Fixpoint drop_upto (n : nat) (p : ascii → bool) (s : string) : string :=
  match n, s with
  | S n', String c s' => if p c then drop_upto n' p s' else s
  | _, _ => s
  end.

(** The first character of [s] when it is of the class [p], and what
    follows it. *)
Definition take_opt (p : ascii → bool) (s : string) : string :=
  match s with
  | String c _ => if p c then String c EmptyString else EmptyString
  | EmptyString => EmptyString
  end.

Definition drop_opt (p : ascii → bool) (s : string) : string :=
  match s with
  | String c s' => if p c then s' else s
  | EmptyString => EmptyString
  end.

(** [c in string.ascii_letters] *)
Definition ascii_letter (c : ascii) : bool :=
  code_between 97 122 c || code_between 65 90 c.

Definition digit (c : ascii) : bool := code_between 48 57 c.

(** [str(n)] for a natural number. *)
Definition str (n : nat) : string := NilEmpty.string_of_uint (Nat.to_uint n).

Fixpoint zeros (n : nat) : string :=
  match n with
  | O => EmptyString
  | S n' => String "0" (zeros n')
  end.

(** [s.zfill(width)]: zeros go after a leading sign. *)
Definition zfill (width : nat) (s : string) : string :=
  let fill := (width - String.length s)%nat in
  match s with
  | String c s' =>
      if Ascii.eqb c "+" || Ascii.eqb c "-"
      then String c (zeros fill +:+ s')
      else zeros fill +:+ s
  | EmptyString => zeros fill
  end.

(** [s.replace(old, new)], for [old] not empty (as in every use below):
    occurrences are replaced from the left and do not overlap.  [skip]
    counts the characters of an occurrence still to be dropped. *)
Fixpoint replace_from (old new : string) (skip : nat) (s : string) : string :=
  match s with
  | EmptyString => EmptyString
  | String c s' =>
      match skip with
      | S n => replace_from old new n s'
      | O =>
          if String.prefix old s
          then new +:+ replace_from old new (String.length old - 1) s'
          else String c (replace_from old new 0 s')
      end
  end.

Definition replace (old new s : string) : string := replace_from old new 0 s.

(** *** [int(s)] *)

(** The white space [int] strips, among the characters below U+0100. *)
Definition space (c : ascii) : bool :=
  code_between 9 13 c || code_between 28 32 c ||
  Nat.eqb (nat_of_ascii c) 133 || Nat.eqb (nat_of_ascii c) 160.

Fixpoint lstrip (s : string) : string :=
  match s with
  | String c s' => if space c then lstrip s' else s
  | EmptyString => EmptyString
  end.

Definition strip (s : string) : string :=
  String.rev (lstrip (String.rev (lstrip s))).

Definition digit_value (c : ascii) : Z := Z.of_nat (nat_of_ascii c - 48).

(** Digits, a single underscore allowed between two of them.  [after_digit]
    tells whether the character before was a digit. *)
Fixpoint digits (acc : Z) (after_digit : bool) (s : string) : option Z :=
  match s with
  | EmptyString => if after_digit then Some acc else None
  | String c s' =>
      if digit c then digits (10 * acc + digit_value c) true s'
      else if Ascii.eqb c "_" && after_digit then digits acc false s'
      else None
  end.

(** [int(s)]; [None] for [ValueError]. *)
Definition int (s : string) : option Z :=
  match strip s with
  | String "-" s' => Z.opp <$> digits 0 false s'
  | String "+" s' => digits 0 false s'
  | s' => digits 0 false s'
  end.

(** *** [datetime] *)

Record datetime := Datetime { year : Z; month : Z; day : Z }.

Definition is_leap (y : Z) : bool :=
  (y mod 4 =? 0)%Z && (negb (y mod 100 =? 0)%Z || (y mod 400 =? 0)%Z).

Definition days_in_month (y m : Z) : Z :=
  match m with
  | 1 | 3 | 5 | 7 | 8 | 10 | 12 => 31
  | 4 | 6 | 9 | 11 => 30
  | 2 => if is_leap y then 29 else 28
  | _ => 0
  end%Z.

(** [datetime(y, m, d)]; [None] for [ValueError]. *)
Definition mk_datetime (y m d : Z) : option datetime :=
  if ((1 <=? y) && (y <=? 9999) && (1 <=? m) && (m <=? 12) &&
      (1 <=? d) && (d <=? days_in_month y m))%Z
  then Some (Datetime y m d) else None.

(** [datetime(int(y), int(m), int(d))] under [try]: any exception gives
    [None]. *)
Definition parse_date (y m d : string) : option datetime :=
  y' ← int y; m' ← int m; d' ← int d; mk_datetime y' m' d'.

(** [d.strftime('%Y-%m-%d')], the year on four digits as the language
    reference has it. *)
Definition strftime_ymd (d : datetime) : string :=
  zfill 4 (str (Z.to_nat (year d))) +:+ "-" +:+
  zfill 2 (str (Z.to_nat (month d))) +:+ "-" +:+
  zfill 2 (str (Z.to_nat (day d))).

(** [str.upper] on the letters a-z; other characters are kept. *)
Definition ascii_upper_char (c : ascii) : ascii :=
  if code_between 97 122 c then ascii_of_nat (nat_of_ascii c - 32) else c.

Fixpoint ascii_upper (s : string) : string :=
  match s with
  | EmptyString => EmptyString
  | String c s' => String (ascii_upper_char c) (ascii_upper s')
  end.

(** *** Vocabulary of the statements *)

(** The character [c] does not occur in [s]. *)
Definition without (c : ascii) (s : string) : bool :=
  all_chars (λ d, negb (Ascii.eqb d c)) s.

(** A date of the calendar, as [datetime] accepts it. *)
Definition valid_date (d : datetime) : Prop :=
  (1 ≤ year d ≤ 9999 ∧ 1 ≤ month d ≤ 12 ∧
   1 ≤ day d ≤ days_in_month (year d) (month d))%Z.

End Py.

(** ** matching.py *)

Module Matching.

(** A cell of the [pandas] data frame: a string, or [None] for the [NaN]
    that [read_csv] puts where the field is empty.  [to_dict] hands out the
    frame's one [NaN] object, so that a missing cell is a value like any
    other for [dict] keys and [set] members. *)
Abbreviation cell := (option string).

(** The columns of [matchQueryResults.csv] that [main] reads. *)
Record candidate := Candidate {
  dataset : cell;
  inventory : cell;
  owner_a : cell;
  owner_b : cell;
  actType : cell;
  record : cell
}.

(** A member of a linkset entry: [(r['dataset'], r['record'], r['actType'])]. *)
Abbreviation link := (cell * cell * cell)%type.

(** [linkset = defaultdict(set)] *)
Abbreviation linkset := (gmap cell (gset link)).

(** The literal list of [main]. *)
Definition ACT_TYPES : list cell :=
  [ Some "Boedelinventaris"; Some "Boedelscheiding"; Some "Testament";
    Some "Overig"; Some "Huwelijkse voorwaarden"; Some "Kwitantie" ].

(** The literal [.8] of [main]: the binary64 number nearest to 4/5. *)
Definition threshold : float := 0x1.999999999999ap-1%float.

(** [linkset[k].add(t)] on a [defaultdict(set)]: the entry is created on
    first access. *)
Definition linkset_add (k : cell) (t : link) (ls : linkset) : linkset :=
  <[ k := {[ t ]} ∪ default ∅ (ls !! k) ]> ls.

Definition link_of (r : candidate) : link := (dataset r, record r, actType r).

Section Engine.

(** [textacy.similarity.token_sort_ratio]; [None] when the call raises. *)
Variable token_sort_ratio : cell → cell → option float.

(** One turn of [for r in df.to_dict(orient='records')].  No handler
    surrounds the call of [token_sort_ratio]: when it raises, so does
    [main]. *)
Definition loop_body (ls : linkset) (r : candidate) : option linkset :=
  let a := owner_a r in
  let b := owner_b r in
  p ← token_sort_ratio a b;
  if ltb threshold p then
    if negb (bool_decide (actType r ∈ ACT_TYPES)) then
      Some ls (* continue *)
    else
      Some (linkset_add (inventory r) (link_of r) ls)
  else Some ls.

Fixpoint run (ls : linkset) (rows : list candidate) : option linkset :=
  match rows with
  | [] => Some ls
  | r :: rows' => ls' ← loop_body ls r; run ls' rows'
  end.

Definition main (rows : list candidate) : option linkset := run ∅ rows.

(** *** Vocabulary of the statements *)

(** The score of a row. *)
Definition score (r : candidate) : option float :=
  token_sort_ratio (owner_a r) (owner_b r).

(** The two tests of the loop body, on a row and its score. *)
Definition accepted (r : candidate) (p : float) : bool :=
  ltb threshold p && bool_decide (actType r ∈ ACT_TYPES).

(** The row passes both tests. *)
Definition passes (r : candidate) : Prop :=
  ∃ p, score r = Some p ∧ ltb threshold p = true ∧ actType r ∈ ACT_TYPES.

(** The links recorded under an inventory. *)
Definition links (ls : linkset) (inv : cell) : gset link :=
  default ∅ (ls !! inv).

(** Some field of the row is missing. *)
Definition incomplete (r : candidate) : Prop :=
  dataset r = None ∨ inventory r = None ∨ owner_a r = None ∨
  owner_b r = None ∨ actType r = None ∨ record r = None.

(** Every entry of the mapping holds a link. *)
Definition no_empty_entry (ls : linkset) : Prop :=
  ∀ inv S, ls !! inv = Some S → S ≠ ∅.

End Engine.

(** *** [buildLinkset] *)

(** [f"{x}"] for a cell: the string itself, and [nan] for the missing
    value. *)
Definition format_cell (c : cell) : string := default "nan" c.

Definition newline : string := String (ascii_of_nat 10) EmptyString.

(** The first line [buildLinkset] writes. *)
Definition prefix_line : string :=
  "@prefix saa: <http://goldenagents.org/uva/SAA/ontology/> ." +:+ newline.

(** The two f-strings of the inner loop. *)
Definition inventory_line (record inventory : cell) : string :=
  "<" +:+ format_cell record +:+ "> saa:inventory <" +:+
  format_cell inventory +:+ "> ." +:+ newline.

Definition isInRecord_line (inventory record : cell) : string :=
  "<" +:+ format_cell inventory +:+ "> saa:isInRecord <" +:+
  format_cell record +:+ "> ." +:+ newline.

(** [buildLinkset]: the strings handed to [outfile.write], in order, on a
    file opened for writing, so that the file holds their concatenation.
    The argument is the linkset as the two loops see it: the entries in
    the order of [linkset.items()], each set in the order in which it is
    iterated. *)
Definition buildLinkset (items : list (cell * list link)) : list string :=
  prefix_line ::
  ('(inventory, match_) ← items;
   '(dataset, record, actType) ← match_;
   [ inventory_line record inventory; isInRecord_line inventory record ]).

(** [items] is a way of iterating over the linkset [ls]: every entry
    once, and every member of an entry once.  Python fixes the order of
    the entries (that of their insertion) and leaves the order of the
    members of a set open: the statements on [buildLinkset] hold for
    every order. *)
Definition iteration (ls : linkset) (items : list (cell * list link)) : Prop :=
  NoDup (items.*1) ∧ Forall (λ kv, NoDup kv.2) items ∧
  ∀ inv S, ls !! inv = Some S ↔ ∃ l, (inv, l) ∈ items ∧ S = list_to_set l.

(** One such iteration. *)
Definition sorted_iteration (ls : linkset) : list (cell * list link) :=
  prod_map id elements <$> map_to_list ls.

(** *** Sample runs *)

(** A stand-in for the similarity function on present names: it agrees
    with [token_sort_ratio] on identical names, which score 1. *)
Definition same_name_ratio (a b : cell) : option float :=
  match a, b with
  | Some x, Some y => Some (if String.eqb x y then 1%float else 0%float)
  | _, _ => None
  end.

Definition row_trip : candidate :=
  Candidate (Some "Getty") (Some "N-100") (Some "Louis Trip")
    (Some "Louis Trip") (Some "Boedelinventaris") (Some "saa:act/17").

Definition row_trip_unknown : candidate :=
  Candidate (Some "Getty") (Some "N-100") (Some "Louis Trip")
    (Some "Louis Trip") (Some "Unknown") (Some "saa:act/18").

Definition row_other_name : candidate :=
  Candidate (Some "Frick") (Some "N-201") (Some "Jan Six")
    (Some "Pieter de Graeff") (Some "Testament") (Some "saa:act/40").

(** The record identifier of this row is missing. *)
Definition row_no_record : candidate :=
  Candidate (Some "Getty") (Some "N-100") (Some "Louis Trip")
    (Some "Louis Trip") (Some "Testament") None.

End Matching.

(** ** rdflib: terms, graphs and the builders' effect *)

Module RDF.

Inductive term :=
| URIRef (iri : string)
| BNode (id : string)
| Literal (lexical : string) (lang : option string) (datatype : option string).

#[global] Instance term_eq_dec : EqDecision term.
Proof. solve_decision. Defined.

#[global] Instance term_countable : Countable term.
Proof.
  refine (inj_countable'
    (λ t, match t with
          | URIRef i => inl i
          | BNode i => inr (inl i)
          | Literal x l d => inr (inr (x, l, d))
          end)
    (λ c, match c with
          | inl i => URIRef i
          | inr (inl i) => BNode i
          | inr (inr (x, l, d)) => Literal x l d
          end) _).
  by intros [].
Defined.

Abbreviation triple := (term * term * term)%type.
Abbreviation graph := (gset triple).

Definition subject (t : triple) : term := t.1.1.
Definition predicate (t : triple) : term := t.1.2.
Definition object (t : triple) : term := t.2.

(** No statement of the graph has the predicate [p]; no statement has
    the node [n] as subject or object. *)
Definition no_statement (g : graph) (p : term) : Prop :=
  ∀ s o, (s, p, o) ∉ g.

Definition unused (g : graph) (n : term) : Prop :=
  ∀ t, t ∈ g → subject t ≠ n ∧ object t ≠ n.

(** [Namespace(ns).term(name)] *)
Definition ns_term (ns name : string) : term := URIRef (ns +:+ name).

Definition saa : string → term :=
  ns_term "http://goldenagents.org/uva/SAA/ontology/".
Definition saaPerson : string → term :=
  ns_term "http://goldenagents.org/uva/SAA/Person/".
Definition saaInventory : string → term :=
  ns_term "http://goldenagents.org/uva/SAA/Inventory/".
Definition saaItem : string → term :=
  ns_term "http://goldenagents.org/uva/SAA/Inventory/Item/".
Definition tgn : string → term := ns_term "http://vocab.getty.edu/tgn/".

Definition RDF_type : term :=
  URIRef "http://www.w3.org/1999/02/22-rdf-syntax-ns#type".
Definition RDFS_label : term :=
  URIRef "http://www.w3.org/2000/01/rdf-schema#label".
Definition RDFS_comment : term :=
  URIRef "http://www.w3.org/2000/01/rdf-schema#comment".
Definition XSD_date : string := "http://www.w3.org/2001/XMLSchema#date".

(** [Literal(x)], [Literal(x, lang=l)], [Literal(x, datatype=XSD.date)] *)
Definition plain (x : string) : term := Literal x None None.
Definition tagged (x l : string) : term := Literal x (Some l) None.
Definition date_literal (x : string) : term := Literal x None (Some XSD_date).

(** [COUNTRIES] and [CITIES], the same in the three converters. *)
Definition COUNTRIES : list (string * term) :=
  [ ("Netherlands", tgn "7016845"); ("Belgium", tgn "1000063");
    ("Germany", tgn "7000084") ].

Definition CITIES : list (string * term) :=
  [ ("Alkmaar", tgn "7007057"); ("Amsterdam", tgn "7006952");
    ("Antwerp", tgn "7007856"); ("Dordrecht", tgn "7006798");
    ("Haarlem", tgn "7007048"); ("Hamburg", tgn "7005289");
    ("Hoorn", tgn "7007056"); ("Leiden", tgn "7006809");
    ("Hague, The", tgn "7006810"); ("Utrecht", tgn "7006926");
    ("Wijk bij Duurstede", tgn "7017400") ].

(** [d.get(key, None)] *)
Fixpoint get (d : list (string * term)) (key : string) : option term :=
  match d with
  | [] => None
  | (k, v) :: d' => if String.eqb k key then Some v else get d' key
  end.

(** *** Builders

    Every converter function takes the graph [g], calls [g.add] on it and
    hands it back, with a value beside it or not: a state transformer on
    graphs. *)

Definition Build (A : Type) : Type := graph → A * graph.

#[global] Instance build_ret : MRet Build := λ A a g, (a, g).
#[global] Instance build_bind : MBind Build :=
  λ A B k m g, let r := m g in k r.1 r.2.

(** [g.add(t)] *)
Definition add (t : triple) : Build unit := λ g, (tt, {[ t ]} ∪ g).

Definition skip : Build unit := mret tt.

(** [if b: ...] around statements. *)
Definition when (b : bool) (m : Build unit) : Build unit :=
  if b then m else skip.

(** [if o is not None: ...] around statements that use the value. *)
Definition when_some {A} (o : option A) (body : A → Build unit) : Build unit :=
  match o with
  | Some a => body a
  | None => skip
  end.

(** [for x in l: ...] *)
Fixpoint for_each {A} (l : list A) (body : A → Build unit) : Build unit :=
  match l with
  | [] => skip
  | x :: l' => body x ;; for_each l' body
  end.

(** The value and the graph a builder gives on the empty graph. *)
Definition value {A} (m : Build A) : A := (m ∅).1.
Definition emitted {A} (m : Build A) : graph := (m ∅).2.

(** The graph after the builder has run on [g]. *)
Definition graph_after {A} (m : Build A) (g : graph) : graph := (m g).2.

(** A builder that only adds: its value does not depend on the graph it
    is given, and it returns that graph with its own triples added. *)
Definition additive {A} (m : Build A) : Prop :=
  ∀ g, m g = (value m, emitted m ∪ g).

(** [d[key] = v] on a dict, which keeps its keys in the order of their
    first insertion, and [{**d1, **d2}]. *)
Fixpoint dict_set (d : list (string * term)) (key : string) (v : term)
    : list (string * term) :=
  match d with
  | [] => [(key, v)]
  | (k, v') :: d' =>
      if String.eqb k key then (k, v) :: d' else (k, v') :: dict_set d' key v
  end.

Definition dict_merge (d1 d2 : list (string * term)) : list (string * term) :=
  fold_left (λ d kv, dict_set d kv.1 kv.2) d2 d1.

(** The first loop of [main], the same in the three converters: a label
    for every country and city. *)
Definition place_labels : Build unit :=
  for_each (dict_merge COUNTRIES CITIES)
    (λ '(label, value), add (value, RDFS_label, tagged label "en-US")).

End RDF.

(** ** The part of [re] that the converters use *)

Module Re.

(** Patterns with at most one capturing group.  [Star] and [Repeat] are
    greedy; [Star] repeats a character class. *)
Inductive regex :=
| Chars (lit : string)
| Class (p : ascii → bool)
| Cat (r1 r2 : regex)
| Or (r1 r2 : regex)
| Opt (r : regex)
| Star (p : ascii → bool)
| Repeat (lo hi : nat) (r : regex)
| Group (r : regex).

(** What a match attempt gives: the text of the group and the rest of the
    subject after the match. *)
Abbreviation outcome := (option (option string * string)).

(** A backtracking matcher in continuation-passing style: [k] is tried on
    every way of matching [r] at the start of [s], in the order of
    priority of [re], until it succeeds. *)
Fixpoint re_match (r : regex) (s : string) (cap : option string)
    (k : string → option string → outcome) : outcome :=
  match r with
  | Chars lit =>
      match Py.strip_prefix lit s with
      | Some s' => k s' cap
      | None => None
      end
  | Class p =>
      match s with
      | String c s' => if p c then k s' cap else None
      | EmptyString => None
      end
  | Cat r1 r2 => re_match r1 s cap (λ s' cap', re_match r2 s' cap' k)
  | Or r1 r2 =>
      match re_match r1 s cap k with
      | Some out => Some out
      | None => re_match r2 s cap k
      end
  | Opt r1 =>
      match re_match r1 s cap k with
      | Some out => Some out
      | None => k s cap
      end
  | Star p =>
      (fix star (s : string) : outcome :=
         match s with
         | String c s' =>
             if p c then
               match star s' with
               | Some out => Some out
               | None => k s cap
               end
             else k s cap
         | EmptyString => k s cap
         end) s
  | Repeat lo hi r1 =>
      (fix rep (lo hi : nat) (s : string) (cap : option string) : outcome :=
         match hi with
         | O => k s cap
         | S hi' =>
             match re_match r1 s cap (rep (lo - 1) hi') with
             | Some out => Some out
             | None => if lo is O then k s cap else None
             end
         end) lo hi s cap
  | Group r1 =>
      re_match r1 s cap
        (λ s' _, k s' (Some (String.substring 0 (String.length s - String.length s') s)))
  end.

(** A match attempt at the start of [s]. *)
Definition match_here (r : regex) (s : string) : outcome :=
  re_match r s None (λ s' cap, Some (cap, s')).

(** [re.findall(r, s)] for a pattern with one group: the text of the group
    in every match, scanning from the left; matches do not overlap.
    [skip] counts the characters of the last match still to be passed. *)
Fixpoint findall_from (r : regex) (skip : nat) (s : string) : list string :=
  match skip with
  | S n =>
      match s with
      | String _ s' => findall_from r n s'
      | EmptyString => []
      end
  | O =>
      match match_here r s with
      | Some (cap, rest) =>
          default EmptyString cap ::
          match s with
          | String _ s' =>
              findall_from r (String.length s - String.length rest - 1) s'
          | EmptyString => []
          end
      | None =>
          match s with
          | String _ s' => findall_from r 0 s'
          | EmptyString => []
          end
      end
  end.

Definition findall (r : regex) (s : string) : list string :=
  findall_from r 0 s.

(** The text of the group in the leftmost match of [r] in [s]. *)
Fixpoint first_match (r : regex) (s : string) : option string :=
  match match_here r s with
  | Some (cap, _) => Some (default EmptyString cap)
  | None =>
      match s with
      | String _ s' => first_match r s'
      | EmptyString => None
      end
  end.

End Re.

(** ** convert.py *)

Module Convert.

Import Py RDF Re.

(** A row of [csv.DictReader]: the value of every column of the header. *)
Abbreviation row := (string → string).

(** The class of the pattern: any character but space, comma and closing
    parenthesis. *)
Definition token_char (c : ascii) : bool :=
  negb (Ascii.eqb c " " || Ascii.eqb c "," || Ascii.eqb c ")").

(** The pattern of [description2rdf]: NAA or GAA NA, a space, and as the
    group any run of characters of the class above. *)
Definition NAA_pattern : regex :=
  Cat (Or (Chars "NAA") (Chars "GAA NA"))
      (Cat (Chars " ") (Group (Star token_char))).

(** [f"{record['pi_record_no']}{role}{str(n).zfill(2)}"] *)
Definition person_id (record_no role : string) (n : nat) : string :=
  record_no +:+ role +:+ zfill 2 (str n).

(** [f"{record['pi_inventory_no']}_{record['assigned_item_no'].zfill(4)}"] *)
Definition item_id (inventory_no item_no : string) : string :=
  inventory_no +:+ "_" +:+ zfill 4 item_no.

(** The roles of the three loops below. *)
Inductive role := Owner | Beneficiary | Appraiser.

Definition role_name (ro : role) : string :=
  match ro with
  | Owner => "owner"
  | Beneficiary => "beneficiary"
  | Appraiser => "appraiser"
  end.

(** The specification's [{index:02d}] and [{index:04d}]: the decimal digits
    of the index behind as many zeros as the width still asks for. *)
Definition format_0d (width index : nat) : string :=
  zeros (width - String.length (str index)) +:+ str index.

(** [bool(x)] for [x] a [datetime] or [None], and [all]. *)
Definition truthy {A} (o : option A) : bool := if o is Some _ then true else false.
Definition all (l : list bool) : bool := forallb id l.

(** The loop of [getOwners], [getBeneficiaries] and [getAppraisers], which
    differ in the name of the column, in the role and in the range. *)
Fixpoint person_loop (column role : string) (record : row) (inventory : term)
    (range : list nat) (persons : list term) : Build (list term) :=
  match range with
  | [] => mret persons
  | n :: range' =>
      let field_name := column +:+ str n in
      let name := record field_name in
      if nonempty name then
        let person := saaPerson (person_id (record "pi_record_no") role n) in
        add (person, RDF_type, saa "Person");;
        add (person, RDFS_label, plain name);;
        add (person, saa "isInRecord", inventory);;
        person_loop column role record inventory range' (persons ++ [person])
      else person_loop column role record inventory range' persons
  end.

Definition getOwners (record : row) (inventory : term) : Build (list term) :=
  person_loop "owner_name_" "owner" record inventory (seq 1 5) [].

Definition getBeneficiaries (record : row) (inventory : term)
    : Build (list term) :=
  person_loop "benef_name_" "beneficiary" record inventory (seq 1 12) [].

Definition getAppraisers (record : row) (inventory : term)
    : Build (list term) :=
  person_loop "appraiser_" "appraiser" record inventory (seq 1 14) [].

Definition getArchive (record : row) : Build (option term) :=
  if nonempty (record "archive_name") then
    let uniquename :=
      filter_chars ascii_letter (record "archive_name" +:+ record "archive_loc") in
    let archive := BNode uniquename in
    add (archive, RDF_type, saa "Archive");;
    add (archive, RDFS_label, plain (record "archive_name"));;
    when (nonempty (record "archive_loc"))
      (add (archive, saa "location", plain (record "archive_loc")));;
    mret (Some archive)
  else mret None.

(** One of the two [try] blocks of [description2rdf]: [which] is
    ["begin"] or ["end"]. *)
Definition try_date (record : row) (inventory : term) (which : string)
    : Build (option datetime) :=
  match parse_date (record (which +:+ "_date_year"))
                   (record (which +:+ "_date_month"))
                   (record (which +:+ "_date_day")) with
  | Some d =>
      add (inventory, saa (which +:+ "Date"), date_literal (strftime_ymd d));;
      mret (Some d)
  | None => mret None
  end.

(** [# Pick one date as registrationDate.] *)
Definition pick_date (beginDate endDate : option datetime) : option datetime :=
  if all [truthy beginDate; truthy endDate] then beginDate
  else if beginDate is None then endDate
  else if endDate is None then beginDate
  else None.

Section Converter.

(** [str.upper] *)
Variable upper : string → string.

Definition description2rdf (record : row) : Build unit :=
  let inventory := saaInventory (record "pi_record_no") in
  add (inventory, RDF_type, saa "Inventory");;
  add (inventory, saa "identifier", plain (record "pi_record_no"));;
  let country := get COUNTRIES (record "country_auth") in
  let city := get CITIES (record "city_auth") in
  let comment := record "introduction" in
  when (nonempty comment) (add (inventory, RDFS_comment, tagged comment "nl"));;
  when_some country (λ country, add (inventory, saa "country", country));;
  when_some city (λ city, add (inventory, saa "city", city));;
  add (inventory, saa "documentType", tagged (record "document_type") "en-US");;
  owners ← getOwners record inventory;
  for_each owners (λ owner, add (inventory, saa "owners", owner));;
  beneficiaries ← getBeneficiaries record inventory;
  for_each beneficiaries
    (λ beneficiary, add (inventory, saa "beneficiaries", beneficiary));;
  appraisers ← getAppraisers record inventory;
  for_each appraisers
    (λ beneficiary, add (inventory, saa "appraisers", beneficiary));;
  beginDate ← try_date record inventory "begin";
  endDate ← try_date record inventory "end";
  let date := pick_date beginDate endDate in
  when_some date (λ date,
    add (inventory, saa "registrationDate", date_literal (strftime_ymd date)));;
  archive ← getArchive record;
  when_some archive (λ archive, add (inventory, saa "archive", archive));;
  when (nonempty (record "archive_doc_no"))
    (add (inventory, saa "archiveDocumentReference",
          plain (record "archive_doc_no"));;
     when (contains "Amsterdam" (record "archive_loc"))
       (let inventoryNumber := findall NAA_pattern (record "archive_doc_no") in
        match inventoryNumber with
        | [] => skip
        | first :: _ =>
            let inventoryNumber := upper first in
            let book := BNode ("saaInventory" +:+ inventoryNumber) in
            add (book, saa "inventoryNumber", plain inventoryNumber);;
            when_some archive (λ archive, add (book, saa "heldBy", archive));;
            add (inventory, saa "documentedIn", book)
        end)).

End Converter.

Definition items2rdf (record : row) : Build unit :=
  let inventory := saaInventory (record "pi_inventory_no") in
  let item :=
    saaItem (item_id (record "pi_inventory_no") (record "assigned_item_no")) in
  add (inventory, saa "content", item);;
  add (item, saa "isInRecord", inventory);;
  add (item, RDF_type, saa "Item");;
  add (item, saa "index", plain (record "assigned_item_no"));;
  when (nonempty (record "persistent_uid"))
    (add (item, saa "identifier", plain (record "persistent_uid")));;
  add (item, RDFS_label, tagged (record "title") "nl");;
  add (item, saa "transcription", tagged (record "entry") "nl");;
  when (nonempty (record "room"))
    (add (item, saa "room", tagged (record "room") "nl"));;
  when (nonempty (record "valuation_amount"))
    (add (item, saa "valuation", plain (record "valuation_amount"))).

(** *** Vocabulary of the statements *)

(** The node of the inventory a description row describes. *)
Definition inventory_node (record : row) : term :=
  saaInventory (record "pi_record_no").

(** The Person node of a role and position. *)
Definition person_node (record : row) (role : string) (n : nat) : term :=
  saaPerson (person_id (record "pi_record_no") role n).

(** The triples about the persons of one role: those of [column] 1 to
    [count] that are not empty, each with its three statements and the
    statement [relation] from the inventory. *)
Definition person_triples (record : row) (column role relation : string)
    (count : nat) (t : triple) : Prop :=
  ∃ n, (1 ≤ n ≤ count)%nat ∧ record (column +:+ str n) ≠ "" ∧
    (t = (person_node record role n, RDF_type, saa "Person") ∨
     t = (person_node record role n, RDFS_label,
          plain (record (column +:+ str n))) ∨
     t = (person_node record role n, saa "isInRecord", inventory_node record) ∨
     t = (inventory_node record, saa relation, person_node record role n)).

(** The column of the names of a role, up to the position. *)
Definition role_column (ro : role) : string :=
  match ro with
  | Owner => "owner_name_"
  | Beneficiary => "benef_name_"
  | Appraiser => "appraiser_"
  end.

(** The Archive node of a row, when it has one. *)
Definition archive_node (record : row) : option term :=
  if nonempty (record "archive_name")
  then Some (BNode (filter_chars ascii_letter
                      (record "archive_name" +:+ record "archive_loc")))
  else None.

(** The dates of a row that parse. *)
Definition begin_date (record : row) : option datetime :=
  parse_date (record "begin_date_year") (record "begin_date_month")
    (record "begin_date_day").

Definition end_date (record : row) : option datetime :=
  parse_date (record "end_date_year") (record "end_date_month")
    (record "end_date_day").

(** The book number [description2rdf] extracts from a row, when it does. *)
Definition book_number (upper : string → string) (record : row)
    : option string :=
  if nonempty (record "archive_doc_no") &&
     contains "Amsterdam" (record "archive_loc")
  then upper <$> head (findall NAA_pattern (record "archive_doc_no"))
  else None.

Definition book_node (number : string) : term :=
  BNode ("saaInventory" +:+ number).

(** [doc] holds, after [pre], a reference with the token [tok]: NAA or
    GAA NA, a space, and [tok], which has no space, comma or closing
    parenthesis and runs up to one of them or to the end of [doc]. *)
Definition reference_at (doc pre tok : string) : Prop :=
  ∃ prefix rest,
    (prefix = "NAA" ∨ prefix = "GAA NA") ∧
    doc = pre +:+ prefix +:+ " " +:+ tok +:+ rest ∧
    all_chars token_char tok = true ∧
    starts_with token_char rest = false.

(** [tok] is the token of the leftmost reference of [doc]. *)
Definition first_reference (doc tok : string) : Prop :=
  ∃ pre, reference_at doc pre tok ∧
    ∀ pre' tok', reference_at doc pre' tok' →
      (String.length pre ≤ String.length pre')%nat.

(** The range of the loop of a role, and the relation from the inventory
    to the persons of the role. *)
Definition role_count (ro : role) : nat :=
  match ro with
  | Owner => 5
  | Beneficiary => 12
  | Appraiser => 14
  end.

Definition role_relation (ro : role) : string :=
  match ro with
  | Owner => "owners"
  | Beneficiary => "beneficiaries"
  | Appraiser => "appraisers"
  end.

(** [p] is the Person node of a position of the role whose name is not
    empty in the row. *)
Definition person_of (record : row) (ro : role) (p : term) : Prop :=
  ∃ n, (1 ≤ n ≤ role_count ro)%nat ∧
    record (role_column ro +:+ str n) ≠ "" ∧
    p = person_node record (role_name ro) n.

(** *** [main] *)

(** [main], as the builder of the named graph it fills: the labels of
    the places, then every description, then every item.  [descriptions]
    and [items] are the rows the two [csv.DictReader]s yield. *)
Definition main (upper : string → string) (descriptions items : list row)
    : Build unit :=
  place_labels;;
  for_each descriptions (λ r, description2rdf upper r);;
  for_each items (λ r, items2rdf r).

End Convert.

(** ** convertGPI.py *)

Module ConvertGPI.

Import Py RDF Re.

(** [description2rdf], [getOwners], [getBeneficiaries], [getAppraisers]
    and [getArchive] are those of [convert.py], statement for statement. *)
Definition getOwners := Convert.getOwners.
Definition getBeneficiaries := Convert.getBeneficiaries.
Definition getAppraisers := Convert.getAppraisers.
Definition getArchive := Convert.getArchive.
Definition description2rdf := Convert.description2rdf.

(** [items2rdf] adds the artist and the work type. *)
Definition items2rdf (record : Convert.row) : Build unit :=
  let inventory := saaInventory (record "pi_inventory_no") in
  let item :=
    saaItem (Convert.item_id (record "pi_inventory_no")
               (record "assigned_item_no")) in
  add (inventory, saa "content", item);;
  add (item, saa "isInRecord", inventory);;
  add (item, RDF_type, saa "Item");;
  add (item, saa "index", plain (record "assigned_item_no"));;
  when (nonempty (record "persistent_uid"))
    (add (item, saa "identifier", plain (record "persistent_uid")));;
  add (item, RDFS_label, tagged (record "title") "nl");;
  add (item, saa "artist", plain (record "artist_name_1"));;
  add (item, saa "transcription", tagged (record "entry") "nl");;
  add (item, saa "workType", tagged (record "object_type_1") "nl");;
  when (nonempty (record "room"))
    (add (item, saa "room", tagged (record "room") "nl"));;
  when (nonempty (record "valuation_amount"))
    (add (item, saa "valuation", plain (record "valuation_amount"))).

(** [main] is that of [convert.py], on the builders of this module. *)
Definition main (upper : string → string)
    (descriptions items : list Convert.row) : Build unit :=
  place_labels;;
  for_each descriptions (λ r, description2rdf upper r);;
  for_each items (λ r, items2rdf r).

End ConvertGPI.

(** ** convertFrick.py *)

Module Frick.

Import Py RDF Re.

Abbreviation row := (string → string).

(** The pattern of [description2rdf]: NA or not, a space or not, and as
    the group two to five digits, a space or not, A or B or not. *)
Definition number_group : regex :=
  Group (Cat (Repeat 2 5 (Class digit))
             (Cat (Opt (Chars " ")) (Opt (Class (code_between 65 66))))).

Definition ref_pattern : regex :=
  Cat (Opt (Chars "NA")) (Cat (Opt (Chars " ")) number_group).

(** The characters [re.sub] removes from the lot in [items2rdf]: the two
    square brackets and the backtick. *)
Definition lot_char (c : ascii) : bool :=
  negb (Nat.eqb (nat_of_ascii c) 91 || Nat.eqb (nat_of_ascii c) 93 ||
        Nat.eqb (nat_of_ascii c) 96).

Definition getArchive (record : row) : Build (option term) :=
  if nonempty (record "archive") then
    let uniquename := filter_chars ascii_letter (record "archive") in
    let archive := BNode uniquename in
    add (archive, RDF_type, saa "Archive");;
    add (archive, RDFS_label, plain (record "archive"));;
    mret (Some archive)
  else mret None.

Section Converter.

(** [str.upper] *)
Variable upper : string → string.

Definition description2rdf (record : row) : Build unit :=
  let inventory := saaInventory (record "inventory_number") in
  add (inventory, RDF_type, saa "Inventory");;
  add (inventory, saa "identifier", plain (record "inventory_number"));;
  add (inventory, saa "montiasId", plain (record "montias_id"));;
  let country := get COUNTRIES (record "country") in
  let city := get CITIES (record "city") in
  let comment := record "introduction" in
  when (nonempty comment) (add (inventory, RDFS_comment, tagged comment "nl"));;
  let commentary := record "commentary" in
  when (nonempty commentary)
    (add (inventory, RDFS_comment, tagged commentary "en"));;
  when_some country (λ country, add (inventory, saa "country", country));;
  when_some city (λ city, add (inventory, saa "city", city));;
  add (inventory, saa "documentType", tagged (record "type") "en-US");;
  let name := record "owner_name" in
  when (nonempty name)
    (let owner := saaPerson (record "inventory_number" +:+ "owner01") in
     add (owner, RDF_type, saa "Person");;
     add (owner, RDFS_label, plain name);;
     add (inventory, saa "owners", owner);;
     add (owner, saa "isInRecord", inventory));;
  let appraiser := record "appraiser" in
  when (nonempty appraiser)
    (add (inventory, saa "appraisers", plain appraiser));;
  let date := record "date" in
  let date := replace "/" "-" date in
  let date := replace "c. " "" date in
  add (inventory, saa "registrationDate", date_literal date);;
  archive ← getArchive record;
  when_some archive (λ archive, add (inventory, saa "archive", archive));;
  when (nonempty (record "call_number"))
    (add (inventory, saa "archiveDocumentReference",
          plain (record "call_number"));;
     let archiveReference := record "call_number" in
     let inventoryNumber :=
       if contains "WK" archiveReference then []
       else if contains "DBK" archiveReference then []
       else if contains "boedel" archiveReference then []
       else findall ref_pattern archiveReference in
     match inventoryNumber with
     | [] => skip
     | first :: _ =>
         let inventoryNumber := replace " " "" (upper first) in
         let book := BNode ("saaInventory" +:+ inventoryNumber) in
         add (book, saa "inventoryNumber", plain inventoryNumber);;
         when_some archive (λ archive, add (book, saa "heldBy", archive));;
         add (book, RDF_type, saa "InventoryBook");;
         add (inventory, saa "documentedIn", book)
     end).

End Converter.

Definition items2rdf (record : row) : Build unit :=
  let inventory := saaInventory (record "inventory_number") in
  let inventoryLot := filter_chars lot_char (record "inventory_lot") in
  let item := saaItem inventoryLot in
  add (inventory, saa "content", item);;
  add (item, saa "isInRecord", inventory);;
  add (item, RDF_type, saa "Item");;
  add (item, saa "index", plain (record "assigned_item_no"));;
  add (item, saa "workType", tagged (record "type") "en");;
  add (item, RDFS_label, tagged (record "title") "nl");;
  add (item, saa "artist", plain (record "artist_name"));;
  add (item, saa "transcription", tagged (record "entry") "nl");;
  when (nonempty (record "room"))
    (add (item, saa "room", tagged (record "room") "nl"));;
  when (nonempty (record "value"))
    (add (item, saa "valuation", plain (record "value"))).

(** *** Vocabulary of the statements *)

Definition inventory_node (record : row) : term :=
  saaInventory (record "inventory_number").

Definition owner_node (record : row) : term :=
  saaPerson (record "inventory_number" +:+ "owner01").

Definition archive_node (record : row) : option term :=
  if nonempty (record "archive")
  then Some (BNode (filter_chars ascii_letter (record "archive")))
  else None.

(** One of the three marks that rule a call number out. *)
Definition disqualified (reference : string) : bool :=
  contains "WK" reference || contains "DBK" reference ||
  contains "boedel" reference.

(** The book number [description2rdf] extracts from a row, when it does. *)
Definition book_number (upper : string → string) (record : row)
    : option string :=
  if nonempty (record "call_number") &&
     negb (disqualified (record "call_number"))
  then (λ first, replace " " "" (upper first)) <$>
         head (findall ref_pattern (record "call_number"))
  else None.

Definition book_node (number : string) : term :=
  BNode ("saaInventory" +:+ number).

(** [s] starts with two digits. *)
Definition digit_pair (s : string) : bool :=
  match s with
  | String a (String b _) => digit a && digit b
  | _ => false
  end.

(** [cap] is the number at the start of [s]: two to five digits, as many
    as there are up to five, then a space if there is one, then A or B if
    there is one. *)
Definition number_at (s cap : string) : Prop :=
  ∃ ds sp suffix rest,
    s = ds +:+ sp +:+ suffix +:+ rest ∧ cap = ds +:+ sp +:+ suffix ∧
    all_chars digit ds = true ∧
    (2 ≤ String.length ds ≤ 5)%nat ∧
    (String.length ds = 5%nat ∨
     starts_with digit (sp +:+ suffix +:+ rest) = false) ∧
    (sp = " " ∨
     sp = "" ∧ starts_with (Ascii.eqb " ") (suffix +:+ rest) = false) ∧
    (suffix = "A" ∨ suffix = "B" ∨
     suffix = "" ∧ starts_with (code_between 65 66) rest = false).

(** What follows the number at the start of [s], the number, and what
    the group gives where it is tried. *)
Definition after_number (s : string) : string :=
  drop_opt (code_between 65 66)
    (drop_opt (Ascii.eqb " ") (drop_upto 5 digit s)).

Definition number_text (s : string) : string :=
  String.substring 0 (String.length s - String.length (after_number s)) s.

Definition number_here (s : string) : outcome :=
  if digit_pair s then Some (Some (number_text s), after_number s) else None.

(** [cap] is the number at the first place of [doc] where two digits
    stand side by side. *)
Definition first_number (doc cap : string) : Prop :=
  ∃ pre post,
    doc = pre +:+ post ∧ digit_pair post = true ∧ number_at post cap ∧
    ∀ pre' post', doc = pre' +:+ post' → digit_pair post' = true →
      (String.length pre ≤ String.length pre')%nat.

(** The date [description2rdf] emits: every slash becomes a hyphen, then
    the mark of an approximate date is dropped. *)
Definition normalised_date (record : row) : string :=
  replace "c. " "" (replace "/" "-" (record "date")).

(** The identifier of the Item of a row: the lot without square brackets
    and backticks. *)
Definition item_lot (record : row) : string :=
  filter_chars lot_char (record "inventory_lot").

(** *** [main] *)

Definition main (upper : string → string) (descriptions items : list row)
    : Build unit :=
  place_labels;;
  for_each descriptions (λ r, description2rdf upper r);;
  for_each items (λ r, items2rdf r).

End Frick.

(** ** The three dialects side by side *)

Module Dialects.

Import Py RDF.

Inductive dialect := Getty | GettyGPI | Montias.

Definition getArchive (d : dialect) : (string → string) → Build (option term) :=
  match d with
  | Getty => Convert.getArchive
  | GettyGPI => ConvertGPI.getArchive
  | Montias => Frick.getArchive
  end.

(** The archive name of a row, and the text its identifier is made from:
    name and location in the Getty dialects; the Frick export has the one
    column [archive]. *)
Definition archive_name (d : dialect) (record : string → string) : string :=
  match d with
  | Montias => record "archive"
  | _ => record "archive_name"
  end.

Definition archive_text (d : dialect) (record : string → string) : string :=
  match d with
  | Montias => record "archive"
  | _ => record "archive_name" +:+ record "archive_loc"
  end.

End Dialects.

(** ** The builders of the three converters, by dialect *)

Module Builders.

Import RDF Dialects.

Definition description2rdf (d : dialect) (upper : string → string)
    : (string → string) → Build unit :=
  match d with
  | Getty => Convert.description2rdf upper
  | GettyGPI => ConvertGPI.description2rdf upper
  | Montias => Frick.description2rdf upper
  end.

Definition items2rdf (d : dialect) : (string → string) → Build unit :=
  match d with
  | Getty => Convert.items2rdf
  | GettyGPI => ConvertGPI.items2rdf
  | Montias => Frick.items2rdf
  end.

Definition main (d : dialect) (upper : string → string)
    : list (string → string) → list (string → string) → Build unit :=
  match d with
  | Getty => Convert.main upper
  | GettyGPI => ConvertGPI.main upper
  | Montias => Frick.main upper
  end.

(** The node of the inventory of a description row, and the places the
    row is given: the values of the two tables at the country and the
    city of the row, when these are keys of the tables. *)
Definition inventory_node (d : dialect) (record : string → string) : term :=
  match d with
  | Montias => Frick.inventory_node record
  | _ => Convert.inventory_node record
  end.

Definition country_of (d : dialect) (record : string → string) : option term :=
  match d with
  | Montias => get COUNTRIES (record "country")
  | _ => get COUNTRIES (record "country_auth")
  end.

Definition city_of (d : dialect) (record : string → string) : option term :=
  match d with
  | Montias => get CITIES (record "city")
  | _ => get CITIES (record "city_auth")
  end.

(** The classes of the nodes of a dialect: only the Frick converter
    types the books. *)
Definition classes (d : dialect) : list term :=
  [ saa "Inventory"; saa "Person"; saa "Archive"; saa "Item" ] ++
  match d with
  | Montias => [ saa "InventoryBook" ]
  | _ => []
  end.

End Builders.

(** ** Sample rows *)

Module Samples.

Import Py RDF.

(** A row from the fields that are not empty; every other column of the
    header is empty. *)
Definition row_of (fields : list (string * string)) : string → string :=
  λ column,
    default "" (snd <$> List.find (λ kv, String.eqb (fst kv) column) fields).

(** The description of inventory N-100, from the header of
    [convertGPI.py]. *)
Definition trip : string → string :=
  row_of [ ("pi_record_no", "N-100"); ("country_auth", "Netherlands");
           ("city_auth", "Amsterdam"); ("document_type", "Inventory");
           ("owner_name_1", "Trip, Louis");
           ("begin_date_year", "1684"); ("begin_date_month", "10");
           ("begin_date_day", "4");
           ("archive_name", "Gemeentearchief");
           ("archive_loc", "Amsterdam, Nederland");
           ("archive_doc_no", "NAA 2413 (film 2552)") ].

(** The same document, held in Antwerp. *)
Definition trip_antwerp : string → string :=
  row_of [ ("pi_record_no", "N-100"); ("archive_name", "Stadsarchief");
           ("archive_loc", "Antwerp");
           ("archive_doc_no", "NAA 2413 (film 2552)") ].

(** Only the end date of this row parses. *)
Definition end_only : string → string :=
  row_of [ ("pi_record_no", "N-7"); ("begin_date_year", "1684");
           ("begin_date_month", "13"); ("begin_date_day", "1");
           ("end_date_year", "1685"); ("end_date_month", "1");
           ("end_date_day", "1") ].

(** Two rows with the same letters in name and location: the first has
    them all in the location. *)
Definition archive_in_location : string → string :=
  row_of [ ("pi_record_no", "N-8"); ("archive_loc", "Amsterdam") ].

Definition archive_in_name : string → string :=
  row_of [ ("pi_record_no", "N-9"); ("archive_name", "Amsterdam") ].

(** An item without a title. *)
Definition untitled_item : string → string :=
  row_of [ ("pi_inventory_no", "N-100"); ("assigned_item_no", "1");
           ("entry", "een schilderij") ].

(** A Frick description with a call number, and one without a date. *)
Definition frick : string → string :=
  row_of [ ("inventory_number", "1150"); ("montias_id", "1150");
           ("date", "1650/10/04"); ("archive", "Gemeentearchief Amsterdam");
           ("call_number", "NA 1234 A") ].

(** A Frick description whose archive has the letters of the archive of
    [trip]. *)
Definition frick_trip : string → string :=
  row_of [ ("inventory_number", "1153"); ("montias_id", "1153");
           ("date", "1684/10/04");
           ("archive", "Gemeentearchief Amsterdam (Nederland)") ].

Definition frick_boedel : string → string :=
  row_of [ ("inventory_number", "1151"); ("montias_id", "1151");
           ("date", "1650/10/04"); ("call_number", "boedel 1234") ].

Definition frick_undated : string → string :=
  row_of [ ("inventory_number", "1152"); ("montias_id", "1152") ].

End Samples.

(** * Part II: properties *)

(** ** Strings and decimal numerals *)

Module PyFacts.

Import Py.

#[local] Arguments String.append !_ _ / : simpl nomatch.

Lemma append_nil_r s : s +:+ "" = s.
Proof. induction s as [|c s IH]; simpl; [done|]. by f_equal. Qed.

Lemma append_assoc a b c : (a +:+ b) +:+ c = a +:+ (b +:+ c).
Proof. induction a as [|x a IH]; simpl; [done|]. by f_equal. Qed.

Lemma append_inv_head s a b : s +:+ a = s +:+ b → a = b.
Proof. induction s as [|c s IH]; simpl; [done|]. intros [=]. auto. Qed.

Lemma length_append a b :
  String.length (a +:+ b) = (String.length a + String.length b)%nat.
Proof. induction a as [|c a IH]; simpl; [done|]. by f_equal. Qed.

Lemma length_zeros n : String.length (zeros n) = n.
Proof. induction n as [|n IH]; simpl; [done|]. by f_equal. Qed.

Lemma zeros_add i j : zeros (i + j) = zeros i +:+ zeros j.
Proof. induction i as [|i IH]; simpl; [done|]. by f_equal. Qed.

Lemma nonempty_true s : nonempty s = true ↔ s ≠ "".
Proof.
  unfold nonempty. rewrite negb_true_iff. apply String.eqb_neq.
Qed.

Lemma nonempty_empty : nonempty "" = false.
Proof. done. Qed.

(** *** [str] *)

Lemma to_uint_normal n : Decimal.unorm (Nat.to_uint n) = Nat.to_uint n.
Proof. by rewrite <- Unsigned.to_of, Unsigned.of_to. Qed.

Lemma str_inj n m : str n = str m → n = m.
Proof.
  unfold str. intros Heq. apply Unsigned.to_uint_inj.
  apply (f_equal NilEmpty.uint_of_string) in Heq.
  rewrite !NilEmpty.usu in Heq. by simplify_eq.
Qed.

(** A numeral that starts with the digit zero is ["0"]. *)
Lemma str_leading_zero n s : str n = String "0" s → s = "".
Proof.
  unfold str. pose proof (to_uint_normal n) as Hnorm.
  destruct (Nat.to_uint n) as [|d|d|d|d|d|d|d|d|d|d]; simpl; try done.
  intros [= <-]. unfold Decimal.unorm in Hnorm. simpl in Hnorm.
  destruct (Decimal.nzhead d) eqn:Hd;
    try (by rewrite <- Hd in Hnorm; destruct (nzhead_nonzero _ _ Hnorm)).
  by simplify_eq.
Qed.

Lemma str_nonempty n : str n ≠ "".
Proof.
  unfold str. pose proof (unorm_nonnil (Nat.to_uint n)) as Hnil.
  rewrite to_uint_normal in Hnil. by destruct (Nat.to_uint n).
Qed.

(** On a numeral [zfill] pads in front: the numeral has no sign. *)
Lemma zfill_str width n :
  zfill width (str n) = zeros (width - String.length (str n)) +:+ str n.
Proof.
  pose proof (str_nonempty n) as Hne. unfold str in *.
  by destruct (Nat.to_uint n).
Qed.

Lemma zeros_str_inj i j n m :
  (i ≤ j)%nat → zeros i +:+ str n = zeros j +:+ str m →
  (i = j ∨ String.length (str m) < String.length (str n))%nat.
Proof.
  intros Hle Heq. apply (f_equal String.length) in Heq.
  rewrite !length_append, !length_zeros in Heq. lia.
Qed.

Lemma zfill_str_inj width n m :
  zfill width (str n) = zfill width (str m) → n = m.
Proof.
  rewrite !zfill_str.
  assert (∀ a b, (String.length (str b) < String.length (str a))%nat →
     zeros (width - String.length (str a)) +:+ str a =
     zeros (width - String.length (str b)) +:+ str b → False) as Hlt.
  { intros a b Hlen Heq.
    assert (∃ k, (width - String.length (str b) =
                  width - String.length (str a) + S k)%nat) as [k Hk].
    { apply (f_equal String.length) in Heq.
      rewrite !length_append, !length_zeros in Heq.
      exists (String.length (str a) - String.length (str b) - 1)%nat. lia. }
    rewrite Hk, zeros_add, append_assoc in Heq.
    apply append_inv_head in Heq. simpl in Heq.
    pose proof (str_leading_zero _ _ Heq) as Hnil.
    apply (f_equal String.length) in Heq, Hnil.
    rewrite length_append in Hnil. simpl in Heq, Hnil.
    pose proof (str_nonempty b) as Hb. destruct (str b); [done|].
    simpl in Hnil. lia. }
  intros Heq. apply str_inj.
  destruct (lt_eq_lt_dec (String.length (str n)) (String.length (str m)))
    as [[Hl|Hl]|Hl].
  - destruct (Hlt m n Hl). done.
  - rewrite Hl in Heq. by apply append_inv_head in Heq.
  - destruct (Hlt n m Hl Heq).
Qed.

End PyFacts.

(** ** Matching *)

Module ReFacts.

Import Py Re PyFacts.

#[local] Arguments String.append !_ _ / : simpl nomatch.

Lemma append_eq_nil a b : "" = a +:+ b → a = "" ∧ b = "".
Proof. by destruct a, b. Qed.

Lemma strip_prefix_Some lit s s' :
  strip_prefix lit s = Some s' ↔ s = lit +:+ s'.
Proof.
  revert s. induction lit as [|a lit IH]; intros s; simpl.
  - naive_solver.
  - destruct s as [|b s]; [naive_solver|].
    destruct (Ascii.eqb_spec a b) as [->|Hne].
    + rewrite IH. naive_solver.
    + naive_solver.
Qed.

Lemma strip_prefix_append lit s : strip_prefix lit (lit +:+ s) = Some s.
Proof. by apply strip_prefix_Some. Qed.

Lemma take_drop_while p s : take_while p s +:+ drop_while p s = s.
Proof.
  induction s as [|c s IH]; simpl; [done|].
  destruct (p c); simpl; [by f_equal|done].
Qed.

Lemma all_chars_take_while p s : all_chars p (take_while p s) = true.
Proof.
  induction s as [|c s IH]; simpl; [done|].
  destruct (p c) eqn:Hc; simpl; [by rewrite Hc|done].
Qed.

Lemma starts_with_drop_while p s : starts_with p (drop_while p s) = false.
Proof.
  induction s as [|c s IH]; simpl; [done|].
  by destruct (p c) eqn:Hc; simpl.
Qed.

(** A run of the class followed by something outside it is found again by
    [take_while] and [drop_while]. *)
Lemma take_while_append p tok rest :
  all_chars p tok = true → starts_with p rest = false →
  take_while p (tok +:+ rest) = tok ∧ drop_while p (tok +:+ rest) = rest.
Proof.
  intros Htok Hrest. induction tok as [|c tok IH]; simpl in *.
  - destruct rest as [|c rest]; simpl in *; [done|]. by rewrite Hrest.
  - apply andb_true_iff in Htok as [-> Htok].
    destruct (IH Htok) as [-> ->]. done.
Qed.

Lemma length_drop_while p s :
  (String.length (drop_while p s) ≤ String.length s)%nat.
Proof.
  induction s as [|c s IH]; simpl; [done|]. destruct (p c); simpl; lia.
Qed.

(** The text a group around a run has consumed. *)
Lemma substring_take_while p s :
  String.substring 0 (String.length s - String.length (drop_while p s)) s
  = take_while p s.
Proof.
  induction s as [|c s IH]; [done|]. cbn [drop_while take_while].
  destruct (p c).
  - pose proof (length_drop_while p s).
    replace (String.length (String c s) - String.length (drop_while p s))%nat
      with (S (String.length s - String.length (drop_while p s)))
      by (simpl; lia).
    simpl. by rewrite IH.
  - by rewrite Nat.sub_diag.
Qed.

(** A greedy star before a continuation that cannot fail takes the longest
    run. *)
Lemma re_match_star p s cap k :
  (∀ s' c, is_Some (k s' c)) →
  re_match (Star p) s cap k = k (drop_while p s) cap.
Proof.
  intros Hk. simpl. induction s as [|c s IH]; [done|].
  cbn [drop_while]. destruct (p c); [|done]. rewrite IH.
  by destruct (Hk (drop_while p s) cap) as [? ->].
Qed.

Lemma head_findall r s : head (findall r s) = first_match r s.
Proof.
  unfold findall. induction s as [|c s IH]; simpl.
  - by destruct (match_here r "") as [[? ?]|].
  - destruct (match_here r (String c s)) as [[? ?]|]; [done|apply IH].
Qed.

(** The leftmost match: some suffix of [s] matches, and no longer one. *)
Lemma first_match_Some r s m :
  first_match r s = Some m ↔
  ∃ pre post cap rest,
    s = pre +:+ post ∧ match_here r post = Some (cap, rest) ∧
    m = default "" cap ∧
    ∀ pre' post', s = pre' +:+ post' →
      (String.length pre' < String.length pre)%nat →
      match_here r post' = None.
Proof.
  induction s as [|c s IH] in m |- *; simpl.
  - destruct (match_here r "") as [[cap rest]|] eqn:Hm.
    + split.
      * intros [= <-]. exists "", "", cap, rest. repeat split; [done|].
        simpl. lia.
      * intros (pre & post & cap' & rest' & Hs & Hm' & -> & _).
        apply append_eq_nil in Hs as [-> ->]. rewrite Hm in Hm'.
        by simplify_eq.
    + split; [done|].
      intros (pre & post & cap' & rest' & Hs & Hm' & -> & _).
      apply append_eq_nil in Hs as [-> ->]. by rewrite Hm in Hm'.
  - destruct (match_here r (String c s)) as [[cap rest]|] eqn:Hm.
    + split.
      * intros [= <-]. exists "", (String c s), cap, rest.
        repeat split; [done|]. simpl. lia.
      * intros (pre & post & cap' & rest' & Hs & Hm' & -> & Hleft).
        destruct pre as [|c' pre]; simpl in Hs.
        -- subst post. rewrite Hm in Hm'. by simplify_eq.
        -- specialize (Hleft "" (String c s) eq_refl). simpl in Hleft.
           rewrite Hm in Hleft. discriminate Hleft. lia.
    + rewrite IH. split.
      * intros (pre & post & cap' & rest' & -> & Hm' & -> & Hleft).
        exists (String c pre), post, cap', rest'. repeat split; [done|].
        intros pre' post' Hs Hlen. destruct pre' as [|c' pre']; simpl in *.
        -- by subst.
        -- simplify_eq. apply (Hleft pre'); [done|lia].
      * intros (pre & post & cap' & rest' & Hs & Hm' & -> & Hleft).
        destruct pre as [|c' pre]; simpl in Hs.
        -- subst post. by rewrite Hm in Hm'.
        -- simplify_eq. exists pre, post, cap', rest'. repeat split; [done|].
           intros pre' post' Hs Hlen.
           apply (Hleft (String c' pre')); simpl; [by rewrite Hs|lia].
Qed.

Lemma strip_prefix_app a b s :
  strip_prefix (a +:+ b) s = strip_prefix a s ≫= strip_prefix b.
Proof.
  revert s. induction a as [|x a IH]; intros s; simpl; [done|].
  destruct s as [|y s]; [done|]. destruct (Ascii.eqb x y); [apply IH|done].
Qed.

(** The equations of [re_match] that the two patterns need. *)
Lemma re_match_cat r1 r2 s cap k :
  re_match (Cat r1 r2) s cap k =
  re_match r1 s cap (λ s' cap', re_match r2 s' cap' k).
Proof. done. Qed.

Lemma re_match_chars lit s cap k :
  re_match (Chars lit) s cap k =
  match strip_prefix lit s with Some s' => k s' cap | None => None end.
Proof. done. Qed.

Lemma re_match_or r1 r2 s cap k :
  re_match (Or r1 r2) s cap k =
  match re_match r1 s cap k with
  | Some out => Some out
  | None => re_match r2 s cap k
  end.
Proof. done. Qed.

Lemma re_match_opt r s cap k :
  re_match (Opt r) s cap k =
  match re_match r s cap k with
  | Some out => Some out
  | None => k s cap
  end.
Proof. done. Qed.

Lemma re_match_group r s cap k :
  re_match (Group r) s cap k =
  re_match r s cap
    (λ s' _, k s' (Some (String.substring 0
                           (String.length s - String.length s') s))).
Proof. done. Qed.

Lemma re_match_class p s cap k :
  re_match (Class p) s cap k =
  match s with
  | String c s' => if p c then k s' cap else None
  | EmptyString => None
  end.
Proof. done. Qed.

(** A group around a star, before a continuation that cannot fail. *)
Lemma re_match_group_star p s cap k :
  (∀ s' c, is_Some (k s' c)) →
  re_match (Group (Star p)) s cap k =
  k (drop_while p s) (Some (take_while p s)).
Proof.
  intros Hk. rewrite re_match_group, re_match_star by (intros; apply Hk).
  by rewrite substring_take_while.
Qed.

End ReFacts.

(** ** Builders that only add *)

Module RDFFacts.

Import Py RDF PyFacts.

#[local] Arguments String.append !_ _ / : simpl nomatch.

Create HintDb build discriminated.

Lemma additive_ret {A} (a : A) : additive (mret a).
Proof. intros g. unfold value, emitted, mret, build_ret. simpl. f_equal. set_solver. Qed.

Lemma additive_skip : additive skip.
Proof. apply additive_ret. Qed.

Lemma additive_add t : additive (add t).
Proof. intros g. unfold value, emitted, add. simpl. f_equal. set_solver. Qed.

Lemma bind_additive {A B} (m : Build A) (k : A → Build B) g :
  additive m → additive (k (value m)) →
  (m ≫= k) g = (value (k (value m)), emitted (k (value m)) ∪ emitted m ∪ g).
Proof.
  intros Hm Hk. unfold mbind, build_bind. rewrite (Hm g). simpl.
  rewrite (Hk _). f_equal. set_solver.
Qed.

Lemma additive_bind {A B} (m : Build A) (k : A → Build B) :
  additive m → (∀ a, additive (k a)) → additive (m ≫= k).
Proof.
  intros Hm Hk g. unfold value at 1, emitted at 1.
  rewrite !bind_additive by done. simpl. f_equal. set_solver.
Qed.

Lemma additive_when b m : additive m → additive (when b m).
Proof. destruct b; [done|]. intros _. apply additive_skip. Qed.

Lemma additive_when_some {A} (o : option A) body :
  (∀ a, additive (body a)) → additive (when_some o body).
Proof. destruct o; simpl; [done|]. intros _. apply additive_skip. Qed.

Lemma additive_for_each {A} (l : list A) body :
  (∀ x, additive (body x)) → additive (for_each l body).
Proof.
  intros Hbody. induction l as [|x l IH]; simpl.
  - apply additive_skip.
  - apply additive_bind; [apply Hbody|done].
Qed.

#[global] Hint Resolve additive_ret additive_skip additive_add additive_bind
  additive_when additive_when_some additive_for_each : build.

Lemma value_bind {A B} (m : Build A) (k : A → Build B) :
  additive m → additive (k (value m)) →
  value (m ≫= k) = value (k (value m)).
Proof. intros Hm Hk. unfold value at 1. by rewrite bind_additive. Qed.

Lemma emitted_bind {A B} (m : Build A) (k : A → Build B) :
  additive m → additive (k (value m)) →
  emitted (m ≫= k) = emitted m ∪ emitted (k (value m)).
Proof.
  intros Hm Hk. unfold emitted at 1. rewrite bind_additive by done. simpl.
  set_solver.
Qed.

Lemma emitted_ret {A} (a : A) : emitted (mret a : Build A) = ∅.
Proof. done. Qed.

Lemma emitted_skip : emitted skip = ∅.
Proof. done. Qed.

Lemma emitted_add t : emitted (add t) = {[ t ]}.
Proof. unfold emitted, add. simpl. set_solver. Qed.

Lemma emitted_when b m : emitted (when b m) = if b then emitted m else ∅.
Proof. by destruct b. Qed.

Lemma emitted_when_some {A} (o : option A) body :
  emitted (when_some o body) = if o is Some a then emitted (body a) else ∅.
Proof. by destruct o. Qed.

Lemma elem_of_emitted_for_each {A} (l : list A) body t :
  (∀ x, additive (body x)) →
  t ∈ emitted (for_each l body) ↔ ∃ x, x ∈ l ∧ t ∈ emitted (body x).
Proof.
  intros Hbody. induction l as [|x l IH]; simpl.
  - rewrite emitted_skip. set_solver.
  - rewrite emitted_bind by auto with build. set_solver.
Qed.

(** Membership in what a builder emits, by the shape of the builder. *)

Lemma elem_of_emitted_ret {A} (a : A) t :
  t ∈ emitted (mret a : Build A) ↔ False.
Proof. rewrite emitted_ret. set_solver. Qed.

Lemma elem_of_emitted_skip t : t ∈ emitted skip ↔ False.
Proof. rewrite emitted_skip. set_solver. Qed.

Lemma elem_of_emitted_add u t : t ∈ emitted (add u) ↔ t = u.
Proof. rewrite emitted_add. set_solver. Qed.

Lemma elem_of_emitted_bind {A B} (m : Build A) (k : A → Build B) t :
  additive m → additive (k (value m)) →
  t ∈ emitted (m ≫= k) ↔ t ∈ emitted m ∨ t ∈ emitted (k (value m)).
Proof. intros Hm Hk. rewrite emitted_bind by done. set_solver. Qed.

Lemma elem_of_emitted_when b m t :
  t ∈ emitted (when b m) ↔ b = true ∧ t ∈ emitted m.
Proof. rewrite emitted_when. destruct b; set_solver. Qed.

Lemma elem_of_emitted_when_some {A} (o : option A) body t :
  t ∈ emitted (when_some o body) ↔ ∃ a, o = Some a ∧ t ∈ emitted (body a).
Proof.
  rewrite emitted_when_some. destruct o as [a|]; [|set_solver].
  split; [by exists a|]. by intros (? & [= <-] & ?).
Qed.

Lemma graph_after_additive {A} (m : Build A) g :
  additive m → graph_after m g = emitted m ∪ g.
Proof. intros Hm. unfold graph_after. by rewrite (Hm g). Qed.

(** Running an additive builder a second time adds nothing. *)
Lemma graph_after_twice {A} (m : Build A) g :
  additive m → graph_after m (graph_after m g) = graph_after m g.
Proof. intros Hm. rewrite !graph_after_additive by done. set_solver. Qed.

(** *** Tactics for builders *)

Ltac additive :=
  repeat first
    [ progress intros
    | apply additive_bind | apply additive_add | apply additive_ret
    | apply additive_skip | apply additive_when | apply additive_when_some
    | apply additive_for_each
    | match goal with
      | |- additive (match ?x with _ => _ end) => destruct x
      end ].

Ltac unfold_emitted :=
  repeat first
    [ rewrite elem_of_emitted_bind by (additive; auto with build)
    | rewrite elem_of_emitted_add
    | rewrite elem_of_emitted_when
    | rewrite elem_of_emitted_when_some
    | rewrite elem_of_emitted_skip
    | rewrite elem_of_emitted_ret
    | rewrite elem_of_emitted_for_each by (additive; auto with build)
    | setoid_rewrite elem_of_emitted_add ].

(** Case analysis on a hypothesis that lists triples: every case ends in an
    equation between triples, which is refuted by evaluating the two
    predicates when they differ. *)
Ltac split_cases :=
  repeat match goal with
  | H : _ ∨ _ |- _ => destruct H as [H|H]
  | H : _ ∧ _ |- _ => destruct H as [? H]
  | H : ∃ _, _ |- _ => destruct H as [? H]
  end.

Ltac triple_inj :=
  match goal with
  | H : @eq triple (_, _, _) (_, _, _) |- _ =>
      first
        [ exfalso; apply (f_equal predicate) in H; vm_compute in H;
          discriminate H
        | injection H as ?; subst ]
  end.

(** *** Nodes of different kinds *)


Lemma saaPerson_inj a b : saaPerson a = saaPerson b → a = b.
Proof. unfold saaPerson, ns_term. by intros [= H]. Qed.

Lemma saaPerson_saaInventory a b : saaPerson a ≠ saaInventory b.
Proof. unfold saaPerson, saaInventory, ns_term. simpl. by intros [=]. Qed.

Lemma saaPerson_saa a b : saaPerson a ≠ saa b.
Proof. unfold saaPerson, saa, ns_term. simpl. by intros [=]. Qed.

Lemma saaPerson_tgn a b : saaPerson a ≠ tgn b.
Proof. unfold saaPerson, tgn, ns_term. simpl. by intros [=]. Qed.

Lemma get_In d x c : get d x = Some c → ∃ k, In (k, c) d.
Proof.
  induction d as [|[k v] d IH]; [done|]. cbn [get].
  destruct (String.eqb k x).
  - intros [= <-]. exists k. by left.
  - intros [k' Hk']%IH. exists k'. by right.
Qed.

Lemma get_COUNTRIES_tgn x c : get COUNTRIES x = Some c → ∃ code, c = tgn code.
Proof.
  intros [k Hk]%get_In. unfold COUNTRIES in Hk. cbn [In] in Hk.
  repeat (destruct Hk as [[= <- <-]|Hk]; [by eexists|]). done.
Qed.

Lemma get_CITIES_tgn x c : get CITIES x = Some c → ∃ code, c = tgn code.
Proof.
  intros [k Hk]%get_In. unfold CITIES in Hk. cbn [In] in Hk.
  repeat (destruct Hk as [[= <- <-]|Hk]; [by eexists|]). done.
Qed.


(** Refuting that a node of another kind is a given Person node. *)
Ltac not_person H :=
  first
    [ discriminate H
    | exact (saaPerson_saaInventory _ _ H)
    | exact (saaPerson_saaInventory _ _ (eq_sym H))
    | exact (saaPerson_saa _ _ H)
    | exact (saaPerson_saa _ _ (eq_sym H))
    | exact (saaPerson_tgn _ _ H)
    | exact (saaPerson_tgn _ _ (eq_sym H)) ].

End RDFFacts.

(** ** The linkage engine *)

Module MatchingFacts.

Import Matching.

Lemma linkset_add_empty k t : linkset_add k t ∅ = {[ k := {[ t ]} ]}.
Proof.
  unfold linkset_add. rewrite lookup_empty, insert_empty. simpl.
  f_equal. set_solver.
Qed.

Lemma linkset_add_again k t ls :
  linkset_add k t (linkset_add k t ls) = linkset_add k t ls.
Proof.
  unfold linkset_add. rewrite lookup_insert_eq, insert_insert_eq. simpl.
  f_equal. set_solver.
Qed.

Section Engine.

Variable token_sort_ratio : cell → cell → option float.

Local Abbreviation loop_body := (loop_body token_sort_ratio).
Local Abbreviation run := (run token_sort_ratio).
Local Abbreviation main := (main token_sort_ratio).
Local Abbreviation score := (score token_sort_ratio).
Local Abbreviation passes := (passes token_sort_ratio).

(** *** The loop body *)

Lemma loop_body_accepted ls r p :
  score r = Some p →
  loop_body ls r =
    Some (if accepted r p then linkset_add (inventory r) (link_of r) ls else ls).
Proof.
  unfold score, loop_body, accepted. intros ->. simpl.
  destruct (ltb threshold p); [|done].
  by destruct (bool_decide (actType r ∈ ACT_TYPES)).
Qed.

Lemma loop_body_raises ls r : score r = None → loop_body ls r = None.
Proof. unfold score, loop_body. by intros ->. Qed.

Lemma accepted_passes r p :
  score r = Some p → accepted r p = true ↔ passes r.
Proof.
  intros Hp. unfold accepted, passes. rewrite andb_true_iff, bool_decide_eq_true.
  split.
  - intros [??]. by exists p.
  - intros (q & Hq & ? & ?). by simplify_eq.
Qed.

Lemma links_linkset_add k t ls inv u :
  u ∈ links (linkset_add k t ls) inv ↔ (k = inv ∧ t = u) ∨ u ∈ links ls inv.
Proof.
  unfold links, linkset_add. destruct (decide (k = inv)) as [->|Hne].
  - rewrite lookup_insert_eq. simpl. set_solver.
  - rewrite lookup_insert_ne by done. naive_solver.
Qed.

(** *** The whole loop *)

Lemma run_app ls rows1 rows2 :
  run ls (rows1 ++ rows2) = ls' ← run ls rows1; run ls' rows2.
Proof.
  revert ls. induction rows1 as [|r rows1 IH]; intros ls; [done|].
  simpl. destruct (loop_body ls r) as [ls'|]; simpl; [apply IH|done].
Qed.

Lemma run_total ls rows :
  Forall (λ r, is_Some (score r)) rows → is_Some (run ls rows).
Proof.
  intros Hdef. revert ls. induction Hdef as [|r rows [p Hp] _ IH]; intros ls.
  - by eexists.
  - simpl. rewrite (loop_body_accepted _ _ _ Hp). simpl. apply IH.
Qed.

Lemma run_raises ls rows r :
  r ∈ rows → score r = None → run ls rows = None.
Proof.
  intros Hin Hr. revert ls. induction Hin as [r rows|r r' rows _ IH]; intros ls.
  - simpl. by rewrite loop_body_raises.
  - simpl. destruct (loop_body ls r'); simpl; [apply IH, Hr|done].
Qed.

Lemma run_links ls rows ls' :
  run ls rows = Some ls' →
  ∀ inv t, t ∈ links ls' inv ↔
    t ∈ links ls inv ∨
    ∃ r, r ∈ rows ∧ inventory r = inv ∧ link_of r = t ∧ passes r.
Proof.
  revert ls. induction rows as [|r rows IH]; intros ls Hrun inv t.
  - simpl in Hrun. simplify_eq. set_solver.
  - simpl in Hrun. destruct (score r) as [p|] eqn:Hp.
    2:{ by rewrite loop_body_raises in Hrun. }
    rewrite (loop_body_accepted _ _ _ Hp) in Hrun. simpl in Hrun.
    rewrite (IH _ Hrun). pose proof (accepted_passes r p Hp) as Hacc.
    destruct (accepted r p).
    + rewrite links_linkset_add. set_solver.
    + assert (¬ passes r) by (intros ?%Hacc; done). set_solver.
Qed.

Lemma run_no_empty_entry ls rows ls' :
  no_empty_entry ls → run ls rows = Some ls' → no_empty_entry ls'.
Proof.
  revert ls. induction rows as [|r rows IH]; intros ls Hne Hrun.
  - simpl in Hrun. by simplify_eq.
  - simpl in Hrun. destruct (score r) as [p|] eqn:Hp.
    2:{ by rewrite loop_body_raises in Hrun. }
    rewrite (loop_body_accepted _ _ _ Hp) in Hrun. simpl in Hrun.
    refine (IH _ _ Hrun). destruct (accepted r p); [|apply Hne].
    intros inv S. unfold linkset_add.
    destruct (decide (inventory r = inv)) as [->|?].
    + rewrite lookup_insert_eq. intros ?. simplify_eq. set_solver.
    + rewrite lookup_insert_ne by done. apply Hne.
Qed.

Lemma links_lookup (ls : linkset) inv S : ls !! inv = Some S → links ls inv = S.
Proof. unfold links. by intros ->. Qed.

Lemma links_lookup_None (ls : linkset) inv : ls !! inv = None → links ls inv = ∅.
Proof. unfold links. by intros ->. Qed.

(** *** Claims on the engine *)

(** C1.  For every candidate row the loop body records the row's link
    under the row's inventory when the score strictly exceeds [.8] and the
    act type is one of the six whitelisted values, and leaves the linkset
    alone otherwise; hence, when the similarity function returns on every
    row, [main] returns a linkset whose links under an inventory are
    exactly those of the rows that pass both tests.  In particular a score
    equal to [.8] is rejected, and so is act type "Unknown" with any score
    (0.95 included). *)
Theorem C1_link_iff_score_and_act_type rows :
  Forall (λ r, is_Some (score r)) rows →
  (∀ r ls, r ∈ rows →
     (passes r →
      loop_body ls r = Some (linkset_add (inventory r) (link_of r) ls)) ∧
     (¬ passes r → loop_body ls r = Some ls)) ∧
  (∃ ls, main rows = Some ls ∧
     ∀ inv t, t ∈ links ls inv ↔
       ∃ r, r ∈ rows ∧ inventory r = inv ∧ link_of r = t ∧ passes r) ∧
  (∀ r ls, score r = Some threshold → loop_body ls r = Some ls) ∧
  (∀ r ls p, score r = Some p → actType r = Some "Unknown" →
     loop_body ls r = Some ls).
Proof.
  intros Hdef. repeat split.
  - intros Hpass. rewrite Forall_forall in Hdef.
    destruct (Hdef r) as [p Hp]; [done|].
    rewrite (loop_body_accepted _ _ _ Hp).
    by rewrite (proj2 (accepted_passes r p Hp) Hpass).
  - intros Hfail. rewrite Forall_forall in Hdef.
    destruct (Hdef r) as [p Hp]; [done|].
    rewrite (loop_body_accepted _ _ _ Hp).
    pose proof (accepted_passes r p Hp) as Hacc.
    destruct (accepted r p); [|done]. destruct Hfail. by apply Hacc.
  - destruct (run_total ∅ rows Hdef) as [ls Hls]. exists ls. split; [done|].
    intros inv t. rewrite (run_links _ _ _ Hls inv t).
    unfold links at 1. rewrite lookup_empty. set_solver.
  - intros r ls Hp. by rewrite (loop_body_accepted _ _ _ Hp).
  - intros r ls p Hp Hact. rewrite (loop_body_accepted _ _ _ Hp).
    unfold accepted. rewrite Hact.
    by rewrite andb_false_r.
Qed.

(** C7.  When the similarity function returns on every row, [main] groups
    the accepted rows by inventory: the entry of an inventory is the set
    of the (dataset, record, act type) triples of its accepted rows, an
    inventory has an entry only if one of its rows is accepted (no entry
    holds the empty set), and a second accepted row with the same
    inventory and the same triple changes nothing: the entry holds the
    triple once. *)
Theorem C7_grouped_as_sets rows :
  Forall (λ r, is_Some (score r)) rows →
  (∃ ls, main rows = Some ls ∧
     (∀ inv S, ls !! inv = Some S →
        S ≠ ∅ ∧
        ∀ t, t ∈ S ↔
          ∃ r, r ∈ rows ∧ inventory r = inv ∧ link_of r = t ∧ passes r) ∧
     (∀ inv, (¬ ∃ r, r ∈ rows ∧ inventory r = inv ∧ passes r) →
        ls !! inv = None)) ∧
  (∀ r1 r2, passes r1 → passes r2 →
     inventory r1 = inventory r2 → link_of r1 = link_of r2 →
     main [r1; r2] = main [r1] ∧
     main [r1; r2] = Some {[ inventory r1 := {[ link_of r1 ]} ]} ∧
     size ({[ link_of r1 ]} ∪ {[ link_of r2 ]} : gset link) = 1).
Proof.
  intros Hdef. split.
  - destruct (run_total ∅ rows Hdef) as [ls Hls]. exists ls. split; [done|].
    pose proof (run_links _ _ _ Hls) as Hlinks.
    assert (no_empty_entry ls) as Hne.
    { apply (run_no_empty_entry ∅ rows); [|done].
      intros inv S. by rewrite lookup_empty. }
    split.
    + intros inv S HS. split; [by apply (Hne inv)|]. intros t.
      rewrite <- (links_lookup _ _ _ HS), Hlinks.
      unfold links at 1. rewrite lookup_empty. set_solver.
    + intros inv Hnone. destruct (ls !! inv) as [S|] eqn:HS; [|done].
      destruct (set_choose_L S (Hne _ _ HS)) as [t Ht].
      rewrite <- (links_lookup _ _ _ HS), Hlinks in Ht.
      unfold links in Ht at 1. rewrite lookup_empty in Ht.
      destruct Hnone. set_solver.
  - intros r1 r2 (p1 & Hp1 & Hlt1 & Hin1) (p2 & Hp2 & Hlt2 & Hin2) Hinv Hlink.
    assert (accepted r1 p1 = true) as Ha1
      by (unfold accepted; by rewrite Hlt1, bool_decide_eq_true_2).
    assert (accepted r2 p2 = true) as Ha2
      by (unfold accepted; by rewrite Hlt2, bool_decide_eq_true_2).
    assert (main [r1; r2] = Some {[ inventory r1 := {[ link_of r1 ]} ]}
            ∧ main [r1] = Some {[ inventory r1 := {[ link_of r1 ]} ]})
      as [-> ->].
    { unfold main, run.
      rewrite (loop_body_accepted _ _ _ Hp1), Ha1. cbn [mbind option_bind].
      rewrite (loop_body_accepted _ _ _ Hp2), Ha2.
      rewrite <- Hinv, <- Hlink, linkset_add_again, linkset_add_empty.
      done. }
    split; [done|]. split; [done|]. rewrite <- Hlink.
    replace ({[link_of r1]} ∪ {[link_of r1]} : gset link)
      with ({[link_of r1]} : gset link) by set_solver.
    apply size_singleton.
Qed.

(** C8 (amended).  The engine checks no field for presence.  A row whose
    score does not exceed [.8], or whose act type is missing or not
    whitelisted, is skipped for that row only: the batch yields what it
    yields without the row.  A row that passes both tests is recorded also
    when its dataset, inventory or record field is missing. *)
Theorem C8_skip_is_by_score_and_act_type pre r post :
  is_Some (score r) →
  (¬ passes r → main (pre ++ r :: post) = main (pre ++ post)) ∧
  (actType r = None → ¬ passes r) ∧
  (passes r → ∀ ls, ∃ ls', loop_body ls r = Some ls' ∧
     link_of r ∈ links ls' (inventory r)).
Proof.
  intros [p Hp]. pose proof (accepted_passes r p Hp) as Hacc. repeat split.
  - intros Hfail. unfold main. rewrite !run_app.
    destruct (run ∅ pre) as [ls|]; [|done]. simpl.
    rewrite (loop_body_accepted _ _ _ Hp).
    destruct (accepted r p); [|done]. destruct Hfail. by apply Hacc.
  - intros Hact (q & _ & _ & Hin). rewrite Hact in Hin.
    unfold ACT_TYPES in Hin. set_solver.
  - intros Hpass ls. eexists. split.
    + rewrite (loop_body_accepted _ _ _ Hp).
      by rewrite (proj2 Hacc Hpass).
    + apply links_linkset_add. by left.
Qed.

End Engine.

Lemma sample_rows_scored :
  Forall (λ r, is_Some (score same_name_ratio r))
    [row_trip; row_trip_unknown; row_other_name; row_trip].
Proof. repeat constructor; by eexists. Qed.

Lemma C1_witness :
  (∃ ls, main same_name_ratio
           [row_trip; row_trip_unknown; row_other_name; row_trip] = Some ls ∧
     ∀ inv t, t ∈ links ls inv ↔
       ∃ r, r ∈ [row_trip; row_trip_unknown; row_other_name; row_trip] ∧
            inventory r = inv ∧ link_of r = t ∧ passes same_name_ratio r).
Proof.
  exact (proj1 (proj2 (C1_link_iff_score_and_act_type same_name_ratio
    [row_trip; row_trip_unknown; row_other_name; row_trip]
    sample_rows_scored))).
Defined.

Lemma C7_witness :
  main same_name_ratio [row_trip; row_trip] = main same_name_ratio [row_trip].
Proof.
  refine (proj1 (proj2 (C7_grouped_as_sets same_name_ratio [row_trip] _)
    row_trip row_trip _ _ eq_refl eq_refl)).
  - repeat constructor. by eexists.
  - exists 1%float. repeat split. unfold ACT_TYPES. simpl. set_solver.
  - exists 1%float. repeat split. unfold ACT_TYPES. simpl. set_solver.
Defined.

(** C8, counterexample.  A row whose record identifier is missing is not
    skipped: it is recorded, with the missing value as the record. *)
Lemma C8_counterexample :
  incomplete row_no_record ∧
  main same_name_ratio [row_no_record] =
    Some {[ Some "N-100" := {[ (Some "Getty", None, Some "Testament") ]} ]} ∧
  main same_name_ratio [row_no_record] ≠ main same_name_ratio [].
Proof.
  split; [unfold incomplete; simpl; tauto|].
  assert (main same_name_ratio [row_no_record] =
    Some {[ Some "N-100" := {[ (Some "Getty", None, Some "Testament") ]} ]})
    as ->.
  { unfold main, run.
    rewrite (loop_body_accepted same_name_ratio _ _ 1%float) by done.
    replace (accepted row_no_record 1) with true.
    - by rewrite linkset_add_empty.
    - unfold accepted. rewrite bool_decide_eq_true_2; [done|].
      unfold ACT_TYPES. simpl. set_solver. }
  split; [done|]. unfold main. simpl. intros Heq.
  apply (f_equal (λ o : option linkset, o ≫= (.!! Some "N-100"))) in Heq.
  simpl in Heq. by rewrite lookup_singleton_eq, lookup_empty in Heq.
Qed.

Lemma row_other_name_fails : ¬ passes same_name_ratio row_other_name.
Proof. intros (p & Hp & Hlt & _). vm_compute in Hp. by simplify_eq. Qed.

Lemma C8_witness :
  main same_name_ratio ([row_trip] ++ row_other_name :: [row_trip]) =
  main same_name_ratio ([row_trip] ++ [row_trip]).
Proof.
  refine (proj1 (C8_skip_is_by_score_and_act_type same_name_ratio
    [row_trip] row_other_name [row_trip] _) row_other_name_fails).
  by eexists.
Defined.

End MatchingFacts.

(** ** convert.py and convertGPI.py *)

Module ConvertFacts.

Import Py RDF Re Convert PyFacts ReFacts RDFFacts Samples.

#[local] Arguments String.append !_ _ / : simpl nomatch.

(** *** The builders only add *)

Lemma additive_person_loop column role record inventory range persons :
  additive (person_loop column role record inventory range persons).
Proof.
  revert persons. induction range as [|n range IH]; intros persons; simpl.
  - additive.
  - destruct (nonempty _); [|apply IH]. additive. apply IH.
Qed.

Lemma additive_getArchive record : additive (getArchive record).
Proof. unfold getArchive. destruct (nonempty _); additive. Qed.

Lemma additive_try_date record inventory which :
  additive (try_date record inventory which).
Proof. unfold try_date. destruct (parse_date _ _ _); additive. Qed.

#[local] Hint Resolve additive_person_loop additive_getArchive
  additive_try_date : build.

Lemma additive_description2rdf upper record :
  additive (description2rdf upper record).
Proof.
  unfold description2rdf, getOwners, getBeneficiaries, getAppraisers.
  additive; auto with build.
Qed.

Lemma additive_items2rdf record : additive (items2rdf record).
Proof. unfold items2rdf. additive. Qed.

(** *** What the builders emit *)

Lemma value_person_loop column role record inventory range persons :
  value (person_loop column role record inventory range persons) =
  (persons ++
   ((λ n, saaPerson (person_id (record "pi_record_no") role n)) <$>
      filter (λ n, record (column +:+ str n) ≠ "") range))%list.
Proof.
  revert persons. induction range as [|n range IH]; intros persons; simpl.
  - by rewrite app_nil_r.
  - destruct (nonempty _) eqn:Hname.
    + apply nonempty_true in Hname.
      rewrite !value_bind by (additive; auto with build).
      rewrite IH, filter_cons_True by done. by rewrite <- app_assoc.
    + rewrite IH, filter_cons_False; [done|].
      intros ?%nonempty_true. congruence.
Qed.

Lemma elem_of_emitted_person_loop column role record inventory range persons t :
  t ∈ emitted (person_loop column role record inventory range persons) ↔
  ∃ n, n ∈ range ∧ record (column +:+ str n) ≠ "" ∧
    let person := saaPerson (person_id (record "pi_record_no") role n) in
    (t = (person, RDF_type, saa "Person") ∨
     t = (person, RDFS_label, plain (record (column +:+ str n))) ∨
     t = (person, saa "isInRecord", inventory)).
Proof.
  revert persons. induction range as [|n range IH]; intros persons; simpl.
  - rewrite elem_of_emitted_ret. set_solver.
  - destruct (nonempty _) eqn:Hname.
    + apply nonempty_true in Hname. unfold_emitted. rewrite IH.
      split.
      * intros [?|[?|[?|(m & ? & ?)]]]; [exists n; set_solver..|].
        exists m. set_solver.
      * intros (m & [->|?]%elem_of_cons & ? & ?); [tauto|].
        do 3 right. by exists m.
    + rewrite IH. split.
      * intros (m & ? & ?). exists m. set_solver.
      * intros (m & [->|?]%elem_of_cons & Hm & ?).
        -- apply nonempty_true in Hm. congruence.
        -- by exists m.
Qed.

Lemma value_getArchive record : value (getArchive record) = archive_node record.
Proof.
  unfold getArchive, archive_node. destruct (nonempty _); [|done].
  by rewrite !value_bind by additive.
Qed.

Lemma elem_of_emitted_getArchive record t :
  t ∈ emitted (getArchive record) ↔
  ∃ a, archive_node record = Some a ∧
    (t = (a, RDF_type, saa "Archive") ∨
     t = (a, RDFS_label, plain (record "archive_name")) ∨
     (record "archive_loc" ≠ "" ∧
      t = (a, saa "location", plain (record "archive_loc")))).
Proof.
  unfold getArchive, archive_node. destruct (nonempty _).
  - unfold_emitted. rewrite nonempty_true. naive_solver.
  - rewrite elem_of_emitted_ret. naive_solver.
Qed.

Lemma value_try_date record inventory which :
  value (try_date record inventory which) =
  parse_date (record (which +:+ "_date_year"))
    (record (which +:+ "_date_month")) (record (which +:+ "_date_day")).
Proof.
  unfold try_date. destruct (parse_date _ _ _); [|done].
  by rewrite value_bind by additive.
Qed.

Lemma elem_of_emitted_try_date record inventory which t :
  t ∈ emitted (try_date record inventory which) ↔
  ∃ d, parse_date (record (which +:+ "_date_year"))
         (record (which +:+ "_date_month"))
         (record (which +:+ "_date_day")) = Some d ∧
       t = (inventory, saa (which +:+ "Date"), date_literal (strftime_ymd d)).
Proof.
  unfold try_date. destruct (parse_date _ _ _) as [d|].
  - unfold_emitted. naive_solver.
  - rewrite elem_of_emitted_ret. naive_solver.
Qed.

Lemma try_date_begin record inventory t :
  value (try_date record inventory "begin") = begin_date record ∧
  (t ∈ emitted (try_date record inventory "begin") ↔
   ∃ d, begin_date record = Some d ∧
        t = (inventory, saa "beginDate", date_literal (strftime_ymd d))).
Proof. by rewrite value_try_date, elem_of_emitted_try_date. Qed.

Lemma try_date_end record inventory t :
  value (try_date record inventory "end") = end_date record ∧
  (t ∈ emitted (try_date record inventory "end") ↔
   ∃ d, end_date record = Some d ∧
        t = (inventory, saa "endDate", date_literal (strftime_ymd d))).
Proof. by rewrite value_try_date, elem_of_emitted_try_date. Qed.

Lemma person_loop_triples record column role relation count t :
  t ∈ emitted (person_loop column role record (inventory_node record)
                 (seq 1 count) []) ∨
  (∃ x, x ∈ value (person_loop column role record (inventory_node record)
                     (seq 1 count) []) ∧
        t = (inventory_node record, saa relation, x)) ↔
  person_triples record column role relation count t.
Proof.
  rewrite elem_of_emitted_person_loop, value_person_loop. simpl.
  setoid_rewrite list_elem_of_fmap. setoid_rewrite list_elem_of_filter.
  setoid_rewrite elem_of_seq. unfold person_triples, person_node. split.
  - intros [(n & ? & ? & ?)|(x & (n & -> & ? & ?) & ->)];
      exists n; (split; [lia|]); tauto.
  - intros (n & ? & ? & [?|[?|[?|?]]]);
      [left; exists n; (split; [lia|]); tauto..|].
    right. eexists. split; [|done]. exists n. split; [done|].
    split; [done|lia].
Qed.

Lemma elem_of_emitted_book upper record t :
  nonempty (record "archive_doc_no") = true ∧
  contains "Amsterdam" (record "archive_loc") = true ∧
  t ∈ emitted
        match findall NAA_pattern (record "archive_doc_no") with
        | [] => skip
        | first :: _ =>
            add (BNode ("saaInventory" +:+ upper first),
                 saa "inventoryNumber", plain (upper first));;
            when_some (value (getArchive record))
              (λ archive, add (BNode ("saaInventory" +:+ upper first),
                               saa "heldBy", archive));;
            add (inventory_node record, saa "documentedIn",
                 BNode ("saaInventory" +:+ upper first))
        end ↔
  ∃ n, book_number upper record = Some n ∧
    (t = (book_node n, saa "inventoryNumber", plain n) ∨
     (∃ a, archive_node record = Some a ∧
           t = (book_node n, saa "heldBy", a)) ∨
     t = (inventory_node record, saa "documentedIn", book_node n)).
Proof.
  unfold book_number, book_node. rewrite value_getArchive.
  destruct (nonempty _); [|naive_solver].
  destruct (contains _ _); [|naive_solver].
  simpl. destruct (findall _ _) as [|first rest]; simpl.
  - rewrite elem_of_emitted_skip. naive_solver.
  - unfold_emitted. naive_solver.
Qed.

(** Every triple [description2rdf] emits for a row, and no other. *)
Lemma description2rdf_triples upper record t :
  t ∈ emitted (description2rdf upper record) ↔
    t = (inventory_node record, RDF_type, saa "Inventory") ∨
    t = (inventory_node record, saa "identifier",
         plain (record "pi_record_no")) ∨
    (record "introduction" ≠ "" ∧
     t = (inventory_node record, RDFS_comment,
          tagged (record "introduction") "nl")) ∨
    (∃ c, get COUNTRIES (record "country_auth") = Some c ∧
          t = (inventory_node record, saa "country", c)) ∨
    (∃ c, get CITIES (record "city_auth") = Some c ∧
          t = (inventory_node record, saa "city", c)) ∨
    t = (inventory_node record, saa "documentType",
         tagged (record "document_type") "en-US") ∨
    person_triples record "owner_name_" "owner" "owners" 5 t ∨
    person_triples record "benef_name_" "beneficiary" "beneficiaries" 12 t ∨
    person_triples record "appraiser_" "appraiser" "appraisers" 14 t ∨
    (∃ d, begin_date record = Some d ∧
          t = (inventory_node record, saa "beginDate",
               date_literal (strftime_ymd d))) ∨
    (∃ d, end_date record = Some d ∧
          t = (inventory_node record, saa "endDate",
               date_literal (strftime_ymd d))) ∨
    (∃ d, pick_date (begin_date record) (end_date record) = Some d ∧
          t = (inventory_node record, saa "registrationDate",
               date_literal (strftime_ymd d))) ∨
    (∃ a, archive_node record = Some a ∧
       (t = (a, RDF_type, saa "Archive") ∨
        t = (a, RDFS_label, plain (record "archive_name")) ∨
        (record "archive_loc" ≠ "" ∧
         t = (a, saa "location", plain (record "archive_loc"))))) ∨
    (∃ a, archive_node record = Some a ∧
          t = (inventory_node record, saa "archive", a)) ∨
    (record "archive_doc_no" ≠ "" ∧
     t = (inventory_node record, saa "archiveDocumentReference",
          plain (record "archive_doc_no"))) ∨
    (∃ n, book_number upper record = Some n ∧
       (t = (book_node n, saa "inventoryNumber", plain n) ∨
        (∃ a, archive_node record = Some a ∧
              t = (book_node n, saa "heldBy", a)) ∨
        t = (inventory_node record, saa "documentedIn", book_node n))).
Proof.
  rewrite <- !person_loop_triples, <- elem_of_emitted_book.
  rewrite <- elem_of_emitted_getArchive, <- value_getArchive.
  unfold description2rdf, getOwners, getBeneficiaries, getAppraisers.
  cbv zeta. fold (inventory_node record). unfold_emitted.
  rewrite !nonempty_true.
  rewrite (proj2 (try_date_begin record (inventory_node record) t)).
  rewrite (proj2 (try_date_end record (inventory_node record) t)).
  rewrite (proj1 (try_date_begin record (inventory_node record) t)).
  rewrite (proj1 (try_date_end record (inventory_node record) t)).
  tauto.
Qed.

(** *** Dates *)

Lemma pick_date_cases b e d :
  pick_date b e = Some d ↔
  match b, e with
  | Some b', _ => d = b'
  | None, Some e' => d = e'
  | None, None => False
  end.
Proof. destruct b, e; unfold pick_date; simpl; naive_solver. Qed.

(** C3.  For every description row the begin date and the end date are
    parsed each on its own, and each is emitted when it parses.  A
    registration date is emitted exactly when one of them parses: it is
    the begin date when that parsed (the end date parsed or not), and the
    end date when only that parsed.  When neither parsed, no registration
    date is emitted. *)
Theorem C3_registration_date upper record s o :
  ((s, saa "registrationDate", o) ∈ emitted (description2rdf upper record) ↔
   s = inventory_node record ∧
   ∃ d, o = date_literal (strftime_ymd d) ∧
     match begin_date record, end_date record with
     | Some b, _ => d = b
     | None, Some e => d = e
     | None, None => False
     end) ∧
  ((s, saa "beginDate", o) ∈ emitted (description2rdf upper record) ↔
   s = inventory_node record ∧
   ∃ d, o = date_literal (strftime_ymd d) ∧ begin_date record = Some d) ∧
  ((s, saa "endDate", o) ∈ emitted (description2rdf upper record) ↔
   s = inventory_node record ∧
   ∃ d, o = date_literal (strftime_ymd d) ∧ end_date record = Some d).
Proof.
  rewrite !description2rdf_triples. unfold person_triples.
  setoid_rewrite <- pick_date_cases.
  split; [|split]; (split; [intros H|intros (-> & d & -> & Hd)]).
  - split_cases; triple_inj; naive_solver.
  - do 11 right. left. by exists d.
  - split_cases; triple_inj; naive_solver.
  - do 9 right. left. by exists d.
  - split_cases; triple_inj; naive_solver.
  - do 10 right. left. by exists d.
Qed.

(** *** The pattern of the archive reference *)

Lemma NAA_match_here s :
  match_here NAA_pattern s =
  match strip_prefix "NAA " s with
  | Some t => Some (Some (take_while token_char t), drop_while token_char t)
  | None =>
      match strip_prefix "GAA NA " s with
      | Some t =>
          Some (Some (take_while token_char t), drop_while token_char t)
      | None => None
      end
  end.
Proof.
  unfold match_here, NAA_pattern.
  rewrite re_match_cat, re_match_or, !re_match_chars.
  change "NAA " with ("NAA" +:+ " "). change "GAA NA " with ("GAA NA" +:+ " ").
  rewrite !strip_prefix_app.
  destruct (strip_prefix "NAA" s) as [t|] eqn:Hnaa; cbn [mbind option_bind].
  - rewrite re_match_cat, re_match_chars.
    destruct (strip_prefix " " t) as [u|] eqn:Hsp.
    + by rewrite re_match_group_star by (intros; by eexists).
    + apply strip_prefix_Some in Hnaa as ->. done.
  - destruct (strip_prefix "GAA NA" s) as [t|] eqn:Hgaa;
      cbn [mbind option_bind]; [|done].
    rewrite re_match_cat, re_match_chars.
    destruct (strip_prefix " " t) as [u|] eqn:Hsp; [|done].
    by rewrite re_match_group_star by (intros; by eexists).
Qed.

(** There is a match at the start of [s] exactly when [s] starts with a
    reference, and the group is the token. *)
Lemma NAA_match_here_Some s cap rest :
  match_here NAA_pattern s = Some (cap, rest) ↔
  ∃ prefix tok,
    (prefix = "NAA" ∨ prefix = "GAA NA") ∧ cap = Some tok ∧
    s = prefix +:+ " " +:+ tok +:+ rest ∧
    all_chars token_char tok = true ∧ starts_with token_char rest = false.
Proof.
  rewrite NAA_match_here. split.
  - destruct (strip_prefix "NAA " s) as [t|] eqn:Hnaa.
    + intros [= <- <-]. apply strip_prefix_Some in Hnaa as ->.
      exists "NAA", (take_while token_char t).
      rewrite take_drop_while, all_chars_take_while, starts_with_drop_while.
      naive_solver.
    + destruct (strip_prefix "GAA NA " s) as [t|] eqn:Hgaa; [|done].
      intros [= <- <-]. apply strip_prefix_Some in Hgaa as ->.
      exists "GAA NA", (take_while token_char t).
      rewrite take_drop_while, all_chars_take_while, starts_with_drop_while.
      naive_solver.
  - intros (prefix & tok & Hprefix & -> & -> & Htok & Hrest).
    destruct (take_while_append _ _ _ Htok Hrest) as [Htake Hdrop].
    destruct Hprefix as [-> | ->].
    + change ("NAA" +:+ " " +:+ tok +:+ rest) with ("NAA " +:+ (tok +:+ rest)).
      by rewrite strip_prefix_append, Htake, Hdrop.
    + change ("GAA NA" +:+ " " +:+ tok +:+ rest)
        with ("GAA NA " +:+ (tok +:+ rest)).
      rewrite strip_prefix_append, Htake, Hdrop. done.
Qed.

Lemma findall_NAA_first_reference doc tok :
  head (findall NAA_pattern doc) = Some tok ↔ first_reference doc tok.
Proof.
  rewrite head_findall, first_match_Some. unfold first_reference, reference_at.
  split.
  - intros (pre & post & cap & rest & -> & Hm & -> & Hleft).
    apply NAA_match_here_Some in Hm
      as (prefix & tok & Hprefix & -> & -> & Htok & Hrest).
    exists pre. split; [by exists prefix, rest|].
    intros pre' tok' (prefix' & rest' & Hprefix' & Hdoc & Htok' & Hrest').
    destruct (le_lt_dec (String.length pre) (String.length pre')) as [|Hlt];
      [done|].
    specialize (Hleft pre' _ Hdoc Hlt).
    assert (match_here NAA_pattern (prefix' +:+ " " +:+ tok' +:+ rest')
            = Some (Some tok', rest')) as Hsome.
    { apply NAA_match_here_Some. by exists prefix', tok'. }
    by rewrite Hleft in Hsome.
  - intros (pre & (prefix & rest & Hprefix & -> & Htok & Hrest) & Hleft).
    exists pre, (prefix +:+ " " +:+ tok +:+ rest), (Some tok), rest.
    split; [done|]. split.
    { apply NAA_match_here_Some. by exists prefix, tok. }
    split; [done|]. intros pre' post' Hdoc Hlen.
    destruct (match_here NAA_pattern post') as [[cap' rest']|] eqn:Hm; [|done].
    apply NAA_match_here_Some in Hm
      as (prefix' & tok' & Hprefix' & -> & -> & Htok' & Hrest').
    specialize (Hleft pre' tok'). 
    assert (String.length pre ≤ String.length pre')%nat; [|lia].
    apply Hleft. by exists prefix', rest'.
Qed.

(** *** Minted identifiers *)

Lemma role_name_inj ro ro' s s' :
  role_name ro +:+ s = role_name ro' +:+ s' → ro = ro'.
Proof. by destruct ro, ro'. Qed.

(** C2.  A Person identifier is the record identifier, the role and the
    position on two digits; an Item identifier is the record identifier,
    an underscore and the index on four digits.  Under one record
    identifier, two distinct (role, position) pairs give distinct Person
    identifiers and two distinct item indices give distinct Item
    identifiers.  (Both are total functions of their arguments.) *)
Theorem C2_minted_identifiers (record_no : string) :
  (∀ ro n, person_id record_no (role_name ro) n =
           record_no +:+ role_name ro +:+ format_0d 2 n) ∧
  (∀ n, item_id record_no (str n) = record_no +:+ "_" +:+ format_0d 4 n) ∧
  (∀ ro n ro' n', (ro, n) ≠ (ro', n') →
     person_id record_no (role_name ro) n ≠
     person_id record_no (role_name ro') n') ∧
  (∀ n n', n ≠ n' → item_id record_no (str n) ≠ item_id record_no (str n')).
Proof.
  unfold person_id, item_id, format_0d. repeat split.
  - intros ro n. by rewrite zfill_str.
  - intros n. by rewrite zfill_str.
  - intros ro n ro' n' Hne Heq. apply append_inv_head in Heq.
    pose proof (role_name_inj _ _ _ _ Heq) as <-.
    apply append_inv_head, zfill_str_inj in Heq. by subst.
  - intros n n' Hne Heq. apply append_inv_head in Heq. simpl in Heq.
    injection Heq as Heq. by apply zfill_str_inj in Heq.
Qed.

(** *** The book number *)

Lemma reference_at_nonempty doc pre tok : reference_at doc pre tok → doc ≠ "".
Proof.
  intros (prefix & rest & Hprefix & -> & _) Hdoc.
  apply (f_equal String.length) in Hdoc. rewrite !length_append in Hdoc.
  destruct Hprefix as [-> | ->]; simpl in Hdoc; lia.
Qed.

Lemma book_number_Some upper record n :
  book_number upper record = Some n ↔
  contains "Amsterdam" (record "archive_loc") = true ∧
  ∃ tok, first_reference (record "archive_doc_no") tok ∧ n = upper tok.
Proof.
  unfold book_number. setoid_rewrite <- findall_NAA_first_reference.
  destruct (nonempty (record "archive_doc_no")) eqn:Hdoc.
  - destruct (contains _ _); simpl; [|naive_solver].
    destruct (head _) as [tok|]; simpl; naive_solver.
  - simpl. split; [done|]. intros (_ & tok & Htok & _).
    apply findall_NAA_first_reference in Htok as (pre & Href & _).
    apply reference_at_nonempty in Href. apply nonempty_true in Href.
    congruence.
Qed.

Lemma description2rdf_inventoryNumber upper record s o :
  (s, saa "inventoryNumber", o) ∈ emitted (description2rdf upper record) ↔
  contains "Amsterdam" (record "archive_loc") = true ∧
  ∃ tok, first_reference (record "archive_doc_no") tok ∧
         s = book_node (upper tok) ∧ o = plain (upper tok).
Proof.
  rewrite description2rdf_triples. unfold person_triples. split.
  - intros H. split_cases; triple_inj.
    apply book_number_Some in H0 as (Hloc & tok & Htok & ->).
    split; [done|]. by exists tok.
  - intros (Hloc & tok & Htok & -> & ->). do 15 right.
    exists (upper tok). split; [|by left].
    apply book_number_Some. split; [done|]. by exists tok.
Qed.

Lemma description2rdf_documentedIn upper record o :
  (inventory_node record, saa "documentedIn", o)
    ∈ emitted (description2rdf upper record) ↔
  contains "Amsterdam" (record "archive_loc") = true ∧
  ∃ tok, first_reference (record "archive_doc_no") tok ∧
         o = book_node (upper tok).
Proof.
  rewrite description2rdf_triples. unfold person_triples. split.
  - intros H. split_cases; triple_inj.
    apply book_number_Some in H0 as (Hloc & tok & Htok & ->).
    split; [done|]. by exists tok.
  - intros (Hloc & tok & Htok & ->). do 15 right.
    exists (upper tok). split; [|by right; right].
    apply book_number_Some. split; [done|]. by exists tok.
Qed.

(** C4.  In the Getty dialects a book number is emitted only when the
    archive location contains "Amsterdam"; it is then the uppercased
    token of the leftmost reference of the archive document number: the
    text behind "NAA " or "GAA NA " up to the next space, comma, closing
    parenthesis or the end.  The inventory is documented in that book.
    The token of "NAA 2413 (film 2552)" is "2413"; "Antwerp" does not
    contain "Amsterdam". *)
Theorem C4_dialect_A_book_number upper record :
  (∀ s o,
     (s, saa "inventoryNumber", o) ∈ emitted (description2rdf upper record) ↔
     contains "Amsterdam" (record "archive_loc") = true ∧
     ∃ tok, first_reference (record "archive_doc_no") tok ∧
            s = book_node (upper tok) ∧ o = plain (upper tok)) ∧
  (∀ o,
     (inventory_node record, saa "documentedIn", o)
       ∈ emitted (description2rdf upper record) ↔
     contains "Amsterdam" (record "archive_loc") = true ∧
     ∃ tok, first_reference (record "archive_doc_no") tok ∧
            o = book_node (upper tok)) ∧
  contains "Amsterdam" "Amsterdam" = true ∧
  first_reference "NAA 2413 (film 2552)" "2413" ∧
  contains "Amsterdam" "Antwerp" = false.
Proof.
  split; [apply description2rdf_inventoryNumber|].
  split; [apply description2rdf_documentedIn|].
  split; [done|]. split; [|done].
  by apply findall_NAA_first_reference.
Qed.

(** The row of inventory N-100 gives book 2413; held in Antwerp, the same
    document gives no book. *)
Example book_of_trip :
  (book_node "2413", saa "inventoryNumber", plain "2413")
    ∈ emitted (description2rdf ascii_upper trip) ∧
  ∀ s o, (s, saa "inventoryNumber", o)
           ∉ emitted (description2rdf ascii_upper trip_antwerp).
Proof.
  split.
  - apply description2rdf_inventoryNumber. split; [by vm_compute|].
    exists "2413". split; [|by vm_compute].
    apply findall_NAA_first_reference. by vm_compute.
  - intros s o. rewrite description2rdf_inventoryNumber.
    intros [Hloc _]. by vm_compute in Hloc.
Qed.


(** *** Items *)

Lemma items2rdf_triples record t :
  let inventory := saaInventory (record "pi_inventory_no") in
  let item :=
    saaItem (item_id (record "pi_inventory_no") (record "assigned_item_no")) in
  t ∈ emitted (items2rdf record) ↔
    t = (inventory, saa "content", item) ∨
    t = (item, saa "isInRecord", inventory) ∨
    t = (item, RDF_type, saa "Item") ∨
    t = (item, saa "index", plain (record "assigned_item_no")) ∨
    (record "persistent_uid" ≠ "" ∧
     t = (item, saa "identifier", plain (record "persistent_uid"))) ∨
    t = (item, RDFS_label, tagged (record "title") "nl") ∨
    t = (item, saa "transcription", tagged (record "entry") "nl") ∨
    (record "room" ≠ "" ∧ t = (item, saa "room", tagged (record "room") "nl")) ∨
    (record "valuation_amount" ≠ "" ∧
     t = (item, saa "valuation", plain (record "valuation_amount"))).
Proof.
  cbv zeta. unfold items2rdf. cbv zeta. unfold_emitted.
  rewrite !nonempty_true. tauto.
Qed.

(** *** Empty fields *)

Lemma person_id_inj record_no ro n ro' n' :
  person_id record_no (role_name ro) n = person_id record_no (role_name ro') n' →
  ro = ro' ∧ n = n'.
Proof.
  unfold person_id. intros Heq. apply append_inv_head in Heq.
  pose proof (role_name_inj _ _ _ _ Heq) as <-. split; [done|].
  by apply append_inv_head, zfill_str_inj in Heq.
Qed.

Lemma person_node_inj record ro n ro' n' :
  person_node record (role_name ro) n = person_node record (role_name ro') n' →
  ro = ro' ∧ n = n'.
Proof. unfold person_node. intros Heq%saaPerson_inj. by apply person_id_inj in Heq. Qed.

Lemma archive_node_BNode record a :
  archive_node record = Some a → ∃ id, a = BNode id.
Proof.
  unfold archive_node. destruct (nonempty _); [|done].
  intros [= <-]. by eexists.
Qed.

Lemma person_triples_unused record ro relation count ro' n' t :
  (ro = ro' → record (role_column ro +:+ str n') = "") →
  person_triples record (role_column ro) (role_name ro) relation count t →
  subject t ≠ person_node record (role_name ro') n' ∧
  object t ≠ person_node record (role_name ro') n'.
Proof.
  intros Hempty (n & _ & Hname & Ht).
  assert (person_node record (role_name ro) n
          ≠ person_node record (role_name ro') n') as Hne.
  { intros [-> ->]%person_node_inj. by rewrite Hempty in Hname. }
  destruct Ht as [->|[->|[->| ->]]]; simpl; (split; [|]); try done;
    intros H; not_person H.
Qed.

Lemma description2rdf_person_unused upper record ro n :
  record (role_column ro +:+ str n) = "" →
  unused (emitted (description2rdf upper record))
    (person_node record (role_name ro) n).
Proof.
  intros Hempty t Hin. apply description2rdf_triples in Hin.
  destruct Hin as [->|[->|[[_ ->]|[(c & Hc & ->)|[(c & Hc & ->)|[->|
    [Hin|[Hin|[Hin|Hin]]]]]]]]].
  1-6: try (apply get_COUNTRIES_tgn in Hc as [code ->]);
       try (apply get_CITIES_tgn in Hc as [code ->]);
       simpl; split; intros H; not_person H.
  - apply (person_triples_unused record Owner "owners" 5 ro n) in Hin; [done|].
    by intros <-.
  - apply (person_triples_unused record Beneficiary "beneficiaries" 12 ro n)
      in Hin; [done|]. by intros <-.
  - apply (person_triples_unused record Appraiser "appraisers" 14 ro n)
      in Hin; [done|]. by intros <-.
  - split_cases; subst t;
      repeat match goal with
      | H : archive_node _ = Some _ |- _ =>
          apply archive_node_BNode in H as [? ->]
      end;
      simpl; split; intros H'; not_person H'.
Qed.

Lemma parse_date_empty y m d :
  y = "" ∨ m = "" ∨ d = "" → parse_date y m d = None.
Proof.
  unfold parse_date. intros [->|[->| ->]]; [done| |].
  - by destruct (int y).
  - by destruct (int y), (int m).
Qed.

Lemma book_number_no_reference upper record :
  record "archive_doc_no" = "" → book_number upper record = None.
Proof. unfold book_number. by intros ->. Qed.

Lemma archive_node_no_name record :
  record "archive_name" = "" → archive_node record = None.
Proof. unfold archive_node. by intros ->. Qed.

(** What an empty field of a description row leaves out. *)
Lemma description2rdf_empty upper record :
  let g := emitted (description2rdf upper record) in
  (record "introduction" = "" → no_statement g RDFS_comment) ∧
  (begin_date record = None → no_statement g (saa "beginDate")) ∧
  (end_date record = None → no_statement g (saa "endDate")) ∧
  (begin_date record = None → end_date record = None →
   no_statement g (saa "registrationDate")) ∧
  (record "archive_name" = "" →
   no_statement g (saa "archive") ∧ no_statement g (saa "location") ∧
   no_statement g (saa "heldBy") ∧ ∀ s, (s, RDF_type, saa "Archive") ∉ g) ∧
  (record "archive_loc" = "" → no_statement g (saa "location")) ∧
  (record "archive_doc_no" = "" →
   no_statement g (saa "archiveDocumentReference") ∧
   no_statement g (saa "inventoryNumber") ∧
   no_statement g (saa "documentedIn")).
Proof.
  cbv zeta. unfold no_statement.
  repeat match goal with |- _ ∧ _ => split end.
  - intros Hempty s o Hin. apply description2rdf_triples in Hin.
    unfold person_triples in Hin. split_cases; triple_inj. done.
  - intros Hempty s o Hin. apply description2rdf_triples in Hin.
    unfold person_triples in Hin. split_cases; triple_inj. congruence.
  - intros Hempty s o Hin. apply description2rdf_triples in Hin.
    unfold person_triples in Hin. split_cases; triple_inj. congruence.
  - intros Hb He s o Hin. apply description2rdf_triples in Hin.
    unfold person_triples in Hin. split_cases; triple_inj.
    rewrite Hb, He in *. done.
  - intros Hempty%archive_node_no_name.
    repeat match goal with |- _ ∧ _ => split end;
      intros s; first [intros o Hin | intros Hin];
      apply description2rdf_triples in Hin; unfold person_triples in Hin;
      split_cases; triple_inj; congruence.
  - intros Hempty s o Hin. apply description2rdf_triples in Hin.
    unfold person_triples in Hin. split_cases; triple_inj. done.
  - intros Hempty. pose proof (book_number_no_reference upper record Hempty).
    repeat match goal with |- _ ∧ _ => split end;
      intros s o Hin;
      apply description2rdf_triples in Hin; unfold person_triples in Hin;
      split_cases; triple_inj; congruence.
Qed.

Lemma items2rdf_empty record :
  let g := emitted (items2rdf record) in
  (record "persistent_uid" = "" → no_statement g (saa "identifier")) ∧
  (record "room" = "" → no_statement g (saa "room")) ∧
  (record "valuation_amount" = "" → no_statement g (saa "valuation")).
Proof.
  cbv zeta. unfold no_statement.
  repeat match goal with |- _ ∧ _ => split end;
    intros Hempty s o Hin; apply items2rdf_triples in Hin;
    split_cases; triple_inj; done.
Qed.

End ConvertFacts.

(** ** convertGPI.py *)

Module GPIFacts.

Import Py RDF Re Convert ConvertGPI PyFacts ReFacts RDFFacts.

Lemma gpi_additive_items2rdf record : additive (items2rdf record).
Proof. unfold items2rdf. additive. Qed.

Lemma gpi_items2rdf_triples record t :
  let inventory := saaInventory (record "pi_inventory_no") in
  let item :=
    saaItem (item_id (record "pi_inventory_no") (record "assigned_item_no")) in
  t ∈ emitted (items2rdf record) ↔
    t = (inventory, saa "content", item) ∨
    t = (item, saa "isInRecord", inventory) ∨
    t = (item, RDF_type, saa "Item") ∨
    t = (item, saa "index", plain (record "assigned_item_no")) ∨
    (record "persistent_uid" ≠ "" ∧
     t = (item, saa "identifier", plain (record "persistent_uid"))) ∨
    t = (item, RDFS_label, tagged (record "title") "nl") ∨
    t = (item, saa "artist", plain (record "artist_name_1")) ∨
    t = (item, saa "transcription", tagged (record "entry") "nl") ∨
    t = (item, saa "workType", tagged (record "object_type_1") "nl") ∨
    (record "room" ≠ "" ∧ t = (item, saa "room", tagged (record "room") "nl")) ∨
    (record "valuation_amount" ≠ "" ∧
     t = (item, saa "valuation", plain (record "valuation_amount"))).
Proof.
  cbv zeta. unfold items2rdf. cbv zeta. unfold_emitted.
  rewrite !nonempty_true. tauto.
Qed.


Lemma gpi_items2rdf_empty record :
  let g := emitted (items2rdf record) in
  (record "persistent_uid" = "" → no_statement g (saa "identifier")) ∧
  (record "room" = "" → no_statement g (saa "room")) ∧
  (record "valuation_amount" = "" → no_statement g (saa "valuation")).
Proof.
  cbv zeta. unfold no_statement.
  repeat match goal with |- _ ∧ _ => split end;
    intros Hempty s o Hin; apply gpi_items2rdf_triples in Hin;
    split_cases; triple_inj; done.
Qed.
End GPIFacts.

(** ** convertFrick.py *)

Module FrickFacts.

Import Py RDF Re Frick PyFacts ReFacts RDFFacts Samples.

#[local] Arguments String.append !_ _ / : simpl nomatch.

(** *** The pattern of the call number *)

Lemma take_drop_upto n p s : take_upto n p s +:+ drop_upto n p s = s.
Proof.
  revert s. induction n as [|n IH]; intros [|c s]; simpl; try done.
  destruct (p c); simpl; [by rewrite IH|done].
Qed.

Lemma all_chars_take_upto n p s : all_chars p (take_upto n p s) = true.
Proof.
  revert s. induction n as [|n IH]; intros [|c s]; simpl; try done.
  destruct (p c) eqn:Hc; simpl; [by rewrite Hc, IH|done].
Qed.

Lemma length_take_upto n p s : (String.length (take_upto n p s) ≤ n)%nat.
Proof.
  revert s. induction n as [|n IH]; intros [|c s]; simpl; try lia.
  destruct (p c); simpl; [specialize (IH s)|]; lia.
Qed.

Lemma take_upto_maximal n p s :
  String.length (take_upto n p s) = n ∨ starts_with p (drop_upto n p s) = false.
Proof.
  revert s. induction n as [|n IH]; intros [|c s]; simpl; auto.
  destruct (p c) eqn:Hc; simpl; [|by right].
  destruct (IH s); auto.
Qed.

(** A run of at most [n] characters of the class, with [n] of them or
    something outside the class behind, is what [take_upto] takes. *)
Lemma drop_upto_append n p run rest :
  all_chars p run = true → (String.length run ≤ n)%nat →
  (String.length run = n ∨ starts_with p rest = false) →
  drop_upto n p (run +:+ rest) = rest.
Proof.
  revert n. induction run as [|c run IH]; intros n Hrun Hlen Hmax; simpl in *.
  - destruct n as [|n]; [by destruct rest|].
    destruct Hmax as [|Hmax]; [done|]. destruct rest as [|c rest]; [done|].
    simpl in *. by rewrite Hmax.
  - destruct n as [|n]; [lia|]. apply andb_true_iff in Hrun as [Hc Hrun].
    simpl. rewrite Hc.
    apply IH; [done|lia|]. destruct Hmax; [left; lia|by right].
Qed.

(** The unfolding of a bounded repetition. *)
Lemma re_match_repeat_0 lo r s cap k :
  re_match (Repeat lo 0 r) s cap k = k s cap.
Proof. done. Qed.

Lemma re_match_repeat_S lo hi r s cap k :
  re_match (Repeat lo (S hi) r) s cap k =
  match re_match r s cap (λ s' cap', re_match (Repeat (lo - 1) hi r) s' cap' k)
  with
  | Some out => Some out
  | None => if lo is O then k s cap else None
  end.
Proof. done. Qed.

(** Up to [n] characters of a class, before a continuation that cannot
    fail. *)
Lemma re_match_repeat_class n p s cap k :
  (∀ s' c, is_Some (k s' c)) →
  re_match (Repeat 0 n (Class p)) s cap k = k (drop_upto n p s) cap.
Proof.
  intros Hk. revert s. induction n as [|n IH]; intros s.
  - by destruct s.
  - rewrite re_match_repeat_S, re_match_class.
    destruct s as [|c s]; [done|]. cbn [drop_upto]. destruct (p c); [|done].
    change (0 - 1)%nat with 0%nat. rewrite IH.
    by destruct (Hk (drop_upto n p s) cap) as [? ->].
Qed.

Lemma re_match_repeat_2 n p s cap k :
  (∀ s' c, is_Some (k s' c)) →
  re_match (Repeat 2 (S (S n)) (Class p)) s cap k =
  match s with
  | String a (String b s') =>
      if p a && p b then k (drop_upto n p s') cap else None
  | _ => None
  end.
Proof.
  intros Hk. rewrite re_match_repeat_S, re_match_class.
  destruct s as [|a s]; [done|]. destruct (p a); [|by destruct s].
  change (2 - 1)%nat with 1%nat. cbn [andb].
  rewrite re_match_repeat_S, re_match_class.
  destruct s as [|b s]; [done|]. destruct (p b); [|done].
  change (1 - 1)%nat with 0%nat. rewrite re_match_repeat_class by done.
  by destruct (Hk (drop_upto n p s) cap) as [? ->].
Qed.

Lemma re_match_opt_class p s cap k :
  (∀ s' c, is_Some (k s' c)) →
  re_match (Opt (Class p)) s cap k = k (drop_opt p s) cap.
Proof.
  intros Hk. rewrite re_match_opt, re_match_class. destruct s as [|c s]; [done|].
  simpl. destruct (p c); [|done]. by destruct (Hk s cap) as [? ->].
Qed.

Lemma strip_prefix_space s :
  strip_prefix " " s =
  match s with
  | String c s' => if Ascii.eqb " " c then Some s' else None
  | EmptyString => None
  end.
Proof. done. Qed.

Lemma re_match_opt_space s cap k :
  (∀ s' c, is_Some (k s' c)) →
  re_match (Opt (Chars " ")) s cap k = k (drop_opt (Ascii.eqb " ") s) cap.
Proof.
  intros Hk. rewrite re_match_opt, re_match_chars, strip_prefix_space.
  destruct s as [|c s]; [done|]. cbn [drop_opt].
  destruct (Ascii.eqb " " c); [|done]. by destruct (Hk s cap) as [? ->].
Qed.

Lemma drop_upto_digit_pair a b s :
  digit a = true → digit b = true →
  drop_upto 5 digit (String a (String b s)) = drop_upto 3 digit s.
Proof. intros Ha Hb. simpl. by rewrite Ha, Hb. Qed.

(** The group of the pattern, before a continuation that cannot fail:
    it matches where two digits stand, and takes the number. *)
Lemma re_match_number_group s cap k :
  (∀ s' c, is_Some (k s' c)) →
  re_match number_group s cap k =
  if digit_pair s then k (after_number s) (Some (number_text s)) else None.
Proof.
  intros Hk. unfold number_group.
  rewrite re_match_group, re_match_cat, re_match_repeat_2.
  2:{ intros s' c. rewrite re_match_cat, re_match_opt_space.
      - rewrite re_match_opt_class; [apply Hk|intros; apply Hk].
      - intros s'' c'. rewrite re_match_opt_class; [apply Hk|intros; apply Hk]. }
  destruct s as [|a [|b s]]; [done..|]. cbn [digit_pair].
  destruct (digit a) eqn:Ha; [|done]. destruct (digit b) eqn:Hb; [|done].
  cbn [andb]. rewrite re_match_cat, re_match_opt_space.
  2:{ intros s'' c'. rewrite re_match_opt_class; [apply Hk|intros; apply Hk]. }
  rewrite re_match_opt_class by (intros; apply Hk).
  unfold number_text, after_number. by rewrite drop_upto_digit_pair.
Qed.

Lemma ref_pattern_eq :
  ref_pattern = Cat (Opt (Chars "NA")) (Cat (Opt (Chars " ")) number_group).
Proof. done. Qed.

Lemma ref_match_here s :
  match_here ref_pattern s =
  let after_space t :=
    match (t' ← strip_prefix " " t; number_here t') with
    | Some out => Some out
    | None => number_here t
    end in
  match (t ← strip_prefix "NA" s; after_space t) with
  | Some out => Some out
  | None => after_space s
  end.
Proof.
  unfold match_here. rewrite ref_pattern_eq.
  assert (∀ t, re_match number_group t None (λ s' cap, Some (cap, s'))
               = number_here t) as Hgroup.
  { intros t. by rewrite re_match_number_group by (intros; by eexists). }
  assert (∀ t, re_match (Cat (Opt (Chars " ")) number_group) t None
                 (λ s' cap, Some (cap, s')) =
               match (t' ← strip_prefix " " t; number_here t') with
               | Some out => Some out
               | None => number_here t
               end) as Hspace.
  { intros t. rewrite re_match_cat, re_match_opt, re_match_chars, !Hgroup.
    destruct (strip_prefix " " t); cbn [mbind option_bind]; [|done].
    by rewrite Hgroup. }
  rewrite re_match_cat, re_match_opt, re_match_chars. cbv zeta.
  rewrite Hspace. destruct (strip_prefix "NA" s) as [t|]; [|done].
  by rewrite Hspace.
Qed.

(** A match at the start of [s] is a number behind NA or not and a
    space or not. *)
Lemma digit_pair_space u : digit_pair (" " +:+ u) = false.
Proof. by destruct u. Qed.

Lemma digit_pair_NA t : digit_pair ("NA" +:+ t) = false.
Proof. done. Qed.

Lemma ref_match_here_Some s cap rest :
  match_here ref_pattern s = Some (cap, rest) →
  ∃ prefix post,
    s = prefix +:+ post ∧
    (prefix = "NA " ∨ prefix = "NA" ∨ prefix = " " ∨ prefix = "") ∧
    digit_pair post = true ∧ cap = Some (number_text post) ∧
    rest = after_number post.
Proof.
  rewrite ref_match_here. cbv zeta. unfold number_here.
  destruct (strip_prefix "NA" s) as [t|] eqn:Hna; cbn [mbind option_bind].
  - apply strip_prefix_Some in Hna as ->.
    replace (strip_prefix " " ("NA" +:+ t)) with (@None string) by done.
    rewrite digit_pair_NA. cbn [mbind option_bind].
    destruct (strip_prefix " " t) as [u|] eqn:Hsp; cbn [mbind option_bind].
    + apply strip_prefix_Some in Hsp as ->. rewrite digit_pair_space.
      destruct (digit_pair u) eqn:Hu; [|done].
      intros [= <- <-]. exists "NA ", u. naive_solver.
    + destruct (digit_pair t) eqn:Ht; [|done].
      intros [= <- <-]. exists "NA", t. naive_solver.
  - destruct (strip_prefix " " s) as [u|] eqn:Hsp; cbn [mbind option_bind].
    + apply strip_prefix_Some in Hsp as ->. rewrite digit_pair_space.
      destruct (digit_pair u) eqn:Hu; [|done].
      intros [= <- <-]. exists " ", u. naive_solver.
    + destruct (digit_pair s) eqn:Hs; [|done].
      intros [= <- <-]. exists "", s. naive_solver.
Qed.

Lemma digit_pair_starts s : digit_pair s = true → starts_with digit s = true.
Proof. destruct s as [|a [|b s]]; simpl; try done. by intros [? _]%andb_true_iff. Qed.

(** Where two digits stand there is a match, with nothing in front. *)
Lemma ref_match_here_digit_pair s :
  digit_pair s = true →
  match_here ref_pattern s = Some (Some (number_text s), after_number s).
Proof.
  intros Hs. rewrite ref_match_here. cbv zeta. unfold number_here.
  pose proof (digit_pair_starts s Hs) as Hd.
  destruct s as [|a s]; [done|]. simpl in Hd.
  assert (strip_prefix "NA" (String a s) = None) as ->.
  { destruct (strip_prefix "NA" (String a s)) as [t|] eqn:Ht; [|done].
    apply strip_prefix_Some in Ht. injection Ht as -> _. done. }
  assert (strip_prefix " " (String a s) = None) as ->.
  { destruct (strip_prefix " " (String a s)) as [t|] eqn:Ht; [|done].
    apply strip_prefix_Some in Ht. injection Ht as -> _. done. }
  cbn [mbind option_bind]. by rewrite Hs.
Qed.

Lemma substring_append n a b :
  String.length a = n → String.substring 0 n (a +:+ b) = a.
Proof.
  revert n. induction a as [|c a IH]; intros n <-.
  - by destruct b.
  - simpl. by rewrite IH.
Qed.

(** The text a group has consumed when [rest] is left of the subject. *)
Lemma substring_consumed a rest :
  String.substring 0 (String.length (a +:+ rest) - String.length rest)
    (a +:+ rest) = a.
Proof. apply substring_append. rewrite length_append. lia. Qed.

Lemma substring_prefix a rest s :
  s = a +:+ rest →
  String.substring 0 (String.length s - String.length rest) s = a.
Proof. intros ->. apply substring_consumed. Qed.

Lemma take_drop_opt p s : take_opt p s +:+ drop_opt p s = s.
Proof. destruct s as [|c s]; [done|]. simpl. by destruct (p c). Qed.

Lemma drop_opt_outside p s : starts_with p s = false → drop_opt p s = s.
Proof. destruct s as [|c s]; [done|]. simpl. by intros ->. Qed.

Lemma take_opt_cases p s :
  (∃ c, take_opt p s = String c "" ∧ p c = true) ∨
  take_opt p s = "" ∧ starts_with p s = false.
Proof.
  destruct s as [|c s]; [by right|]. simpl.
  destruct (p c) eqn:Hc; [left; by exists c|by right].
Qed.

Lemma code_between_A_B c : code_between 65 66 c = true → c = "A"%char ∨ c = "B"%char.
Proof.
  unfold code_between. intros [Hlo Hhi]%andb_true_iff.
  apply Nat.leb_le in Hlo, Hhi. rewrite <- (ascii_nat_embedding c).
  assert (nat_of_ascii c = 65 ∨ nat_of_ascii c = 66)%nat as [-> | ->] by lia;
    auto.
Qed.

Lemma length_take_upto_digit_pair s :
  digit_pair s = true → (2 ≤ String.length (take_upto 5 digit s))%nat.
Proof.
  destruct s as [|a [|b s]]; simpl; try done.
  intros [-> ->]%andb_true_iff. simpl. lia.
Qed.

(** Where two digits stand, the number is the text that [number_text]
    cuts out. *)
Lemma number_at_text s cap :
  digit_pair s = true → number_at s cap ↔ cap = number_text s.
Proof.
  intros Hs. unfold number_text. split.
  - intros (ds & sp & suffix & rest & -> & -> & Hds & Hlen & Hmax & Hsp & Hsuf).
    assert (after_number (ds +:+ sp +:+ suffix +:+ rest) = rest) as ->.
    { unfold after_number. rewrite drop_upto_append by (done || lia).
      assert (drop_opt (Ascii.eqb " ") (sp +:+ suffix +:+ rest)
              = suffix +:+ rest) as ->.
      { destruct Hsp as [->|[-> Hsp]]; [done|]. by apply drop_opt_outside. }
      destruct Hsuf as [->|[->|[-> Hsuf]]]; [done..|].
      by apply drop_opt_outside. }
    symmetry. apply substring_prefix. by rewrite !append_assoc.
  - intros ->.
    set (x := drop_upto 5 digit s). set (y := drop_opt (Ascii.eqb " ") x).
    exists (take_upto 5 digit s), (take_opt (Ascii.eqb " ") x),
      (take_opt (code_between 65 66) y), (drop_opt (code_between 65 66) y).
    assert (s = take_upto 5 digit s +:+ take_opt (Ascii.eqb " ") x +:+
                take_opt (code_between 65 66) y +:+
                drop_opt (code_between 65 66) y) as Hsplit.
    { rewrite take_drop_opt. unfold y. rewrite take_drop_opt. unfold x.
      by rewrite take_drop_upto. }
    split; [done|]. split.
    { change (after_number s) with (drop_opt (code_between 65 66) y).
      apply substring_prefix. by rewrite !append_assoc. }
    split; [apply all_chars_take_upto|].
    split; [split; [by apply length_take_upto_digit_pair
                   |apply length_take_upto]|].
    split.
    { rewrite take_drop_opt. fold y. unfold y. rewrite take_drop_opt.
      apply take_upto_maximal. }
    split.
    { rewrite take_drop_opt. fold y.
      destruct (take_opt_cases (Ascii.eqb " ") x) as [(c & -> & Hc)|[-> Hx]].
      - left. by apply Ascii.eqb_eq in Hc as <-.
      - right. split; [done|]. unfold y. by rewrite drop_opt_outside. }
    destruct (take_opt_cases (code_between 65 66) y) as [(c & -> & Hc)|[-> Hy]].
    + destruct (code_between_A_B c Hc) as [-> | ->]; auto.
    + right. right. split; [done|]. by rewrite drop_opt_outside.
Qed.

Lemma append_split a b c d :
  a +:+ b = c +:+ d → (String.length a ≤ String.length c)%nat →
  ∃ mid, c = a +:+ mid ∧ b = mid +:+ d.
Proof.
  revert c. induction a as [|x a IH]; intros c Heq Hlen; simpl in *.
  - by exists c.
  - destruct c as [|y c]; simpl in *; [lia|]. injection Heq as -> Heq.
    destruct (IH c Heq) as (mid & -> & ->); [lia|]. by exists mid.
Qed.

Lemma append_inj_length a b c d :
  a +:+ b = c +:+ d → String.length a = String.length c → a = c ∧ b = d.
Proof.
  intros Heq Hlen. destruct (append_split a b c d Heq) as (mid & -> & ->); [lia|].
  rewrite length_append in Hlen. destruct mid; simpl in *; [|lia].
  by rewrite append_nil_r.
Qed.

Lemma first_match_exists r pre post :
  is_Some (match_here r post) → is_Some (first_match r (pre +:+ post)).
Proof.
  intros Hpost. induction pre as [|c pre IH]; simpl.
  - destruct post; simpl; destruct Hpost as [[??] ->]; by eexists.
  - destruct (match_here r (String c (pre +:+ post))) as [[??]|]; [by eexists|].
    done.
Qed.

(** Behind a proper part of a prefix without digits no digit stands. *)
Lemma no_digit_inside prefix post mid post' :
  all_chars (λ c, negb (digit c)) prefix = true →
  prefix +:+ post = mid +:+ post' →
  (String.length mid < String.length prefix)%nat →
  starts_with digit post' = false.
Proof.
  revert mid. induction prefix as [|x prefix IH]; intros mid Hprefix Heq Hlen;
    simpl in *; [lia|].
  apply andb_true_iff in Hprefix as [Hx Hprefix].
  destruct mid as [|y mid]; simpl in *.
  - subst post'. simpl. by apply negb_true_iff.
  - injection Heq as -> Heq. apply (IH mid); [done..|lia].
Qed.

Lemma first_number_unique doc cap cap' :
  first_number doc cap → first_number doc cap' → cap = cap'.
Proof.
  intros (pre & post & Hdoc & Hpair & Hnum & Hleft)
         (pre' & post' & Hdoc' & Hpair' & Hnum' & Hleft').
  pose proof (Hleft pre' post' Hdoc' Hpair').
  pose proof (Hleft' pre post Hdoc Hpair).
  rewrite Hdoc in Hdoc'.
  destruct (append_inj_length _ _ _ _ Hdoc') as [-> ->]; [lia|].
  apply number_at_text in Hnum, Hnum'; [|done..]. congruence.
Qed.

Lemma first_match_first_number doc cap :
  first_match ref_pattern doc = Some cap → first_number doc cap.
Proof.
  intros (pre & post0 & c & rest & -> & Hm & -> & Hleft)%first_match_Some.
  apply ref_match_here_Some in Hm
    as (prefix & post & -> & Hprefix & Hpair & -> & _).
  exists (pre +:+ prefix), post. rewrite append_assoc.
  split; [done|]. split; [done|]. split; [by apply number_at_text|].
  intros pre' post' Hdoc Hpair'.
  destruct (le_lt_dec (String.length (pre +:+ prefix)) (String.length pre'))
    as [|Hlt]; [done|exfalso].
  destruct (le_lt_dec (String.length pre) (String.length pre')) as [Hle|Hlt'].
  - destruct (append_split _ _ _ _ Hdoc Hle) as (mid & -> & Hmid).
    rewrite !length_append in Hlt.
    assert (starts_with digit post' = false) as Hno.
    { apply (no_digit_inside prefix post mid); [|done|lia].
      by destruct Hprefix as [->|[->|[->| ->]]]. }
    by rewrite (digit_pair_starts _ Hpair') in Hno.
  - pose proof (Hleft pre' post' Hdoc Hlt') as Hnone.
    by rewrite ref_match_here_digit_pair in Hnone.
Qed.

(** The first match of the pattern is the number at the first place where
    two digits stand side by side. *)
Lemma findall_ref_first_number doc cap :
  head (findall ref_pattern doc) = Some cap ↔ first_number doc cap.
Proof.
  rewrite head_findall. split; [apply first_match_first_number|].
  intros Hfirst. pose proof Hfirst as (pre & post & -> & Hpair & _).
  destruct (first_match_exists ref_pattern pre post) as [cap' Hcap'].
  { rewrite ref_match_here_digit_pair by done. by eexists. }
  rewrite Hcap'. f_equal.
  apply (first_number_unique (pre +:+ post)); [|done].
  by apply first_match_first_number.
Qed.

(** *** The builders only add *)

Lemma frick_additive_getArchive record : additive (getArchive record).
Proof. unfold getArchive. destruct (nonempty _); additive. Qed.

#[local] Hint Resolve frick_additive_getArchive : build.

Lemma frick_additive_description2rdf upper record :
  additive (description2rdf upper record).
Proof. unfold description2rdf. additive; auto with build. Qed.

Lemma frick_additive_items2rdf record : additive (items2rdf record).
Proof. unfold items2rdf. additive. Qed.

(** *** What the builders emit *)

Lemma frick_value_getArchive record : value (getArchive record) = archive_node record.
Proof.
  unfold getArchive, archive_node. destruct (nonempty _); [|done].
  by rewrite !value_bind by additive.
Qed.

Lemma frick_elem_of_emitted_getArchive record t :
  t ∈ emitted (getArchive record) ↔
  ∃ a, archive_node record = Some a ∧
    (t = (a, RDF_type, saa "Archive") ∨
     t = (a, RDFS_label, plain (record "archive"))).
Proof.
  unfold getArchive, archive_node. destruct (nonempty _).
  - unfold_emitted. naive_solver.
  - rewrite elem_of_emitted_ret. naive_solver.
Qed.

Lemma frick_book_number_eq upper record :
  book_number upper record =
  if nonempty (record "call_number")
  then (λ first, replace " " "" (upper first)) <$>
         head (if contains "WK" (record "call_number") then []
               else if contains "DBK" (record "call_number") then []
               else if contains "boedel" (record "call_number") then []
               else findall ref_pattern (record "call_number"))
  else None.
Proof.
  unfold book_number, disqualified.
  destruct (nonempty _); [|done].
  by destruct (contains "WK" _), (contains "DBK" _), (contains "boedel" _).
Qed.

Lemma frick_elem_of_emitted_book upper record t :
  nonempty (record "call_number") = true ∧
  t ∈ emitted
        match (if contains "WK" (record "call_number") then []
               else if contains "DBK" (record "call_number") then []
               else if contains "boedel" (record "call_number") then []
               else findall ref_pattern (record "call_number")) with
        | [] => skip
        | first :: _ =>
            add (BNode ("saaInventory" +:+ replace " " "" (upper first)),
                 saa "inventoryNumber", plain (replace " " "" (upper first)));;
            when_some (value (getArchive record))
              (λ archive,
                 add (BNode ("saaInventory" +:+ replace " " "" (upper first)),
                      saa "heldBy", archive));;
            add (BNode ("saaInventory" +:+ replace " " "" (upper first)),
                 RDF_type, saa "InventoryBook");;
            add (inventory_node record, saa "documentedIn",
                 BNode ("saaInventory" +:+ replace " " "" (upper first)))
        end ↔
  ∃ n, book_number upper record = Some n ∧
    (t = (book_node n, saa "inventoryNumber", plain n) ∨
     (∃ a, archive_node record = Some a ∧
           t = (book_node n, saa "heldBy", a)) ∨
     t = (book_node n, RDF_type, saa "InventoryBook") ∨
     t = (inventory_node record, saa "documentedIn", book_node n)).
Proof.
  rewrite frick_book_number_eq. unfold book_node. rewrite frick_value_getArchive.
  destruct (nonempty _); [|naive_solver].
  destruct (if contains "WK" _ then _ else _) as [|first rest];
    cbn [head fmap option_fmap option_map].
  - rewrite elem_of_emitted_skip. naive_solver.
  - unfold_emitted. naive_solver.
Qed.

(** Every triple [description2rdf] emits for a row, and no other. *)
Lemma frick_description2rdf_triples upper record t :
  t ∈ emitted (description2rdf upper record) ↔
    t = (inventory_node record, RDF_type, saa "Inventory") ∨
    t = (inventory_node record, saa "identifier",
         plain (record "inventory_number")) ∨
    t = (inventory_node record, saa "montiasId",
         plain (record "montias_id")) ∨
    (record "introduction" ≠ "" ∧
     t = (inventory_node record, RDFS_comment,
          tagged (record "introduction") "nl")) ∨
    (record "commentary" ≠ "" ∧
     t = (inventory_node record, RDFS_comment,
          tagged (record "commentary") "en")) ∨
    (∃ c, get COUNTRIES (record "country") = Some c ∧
          t = (inventory_node record, saa "country", c)) ∨
    (∃ c, get CITIES (record "city") = Some c ∧
          t = (inventory_node record, saa "city", c)) ∨
    t = (inventory_node record, saa "documentType",
         tagged (record "type") "en-US") ∨
    (record "owner_name" ≠ "" ∧
     (t = (owner_node record, RDF_type, saa "Person") ∨
      t = (owner_node record, RDFS_label, plain (record "owner_name")) ∨
      t = (inventory_node record, saa "owners", owner_node record) ∨
      t = (owner_node record, saa "isInRecord", inventory_node record))) ∨
    (record "appraiser" ≠ "" ∧
     t = (inventory_node record, saa "appraisers",
          plain (record "appraiser"))) ∨
    t = (inventory_node record, saa "registrationDate",
         date_literal (replace "c. " "" (replace "/" "-" (record "date")))) ∨
    (∃ a, archive_node record = Some a ∧
       (t = (a, RDF_type, saa "Archive") ∨
        t = (a, RDFS_label, plain (record "archive")))) ∨
    (∃ a, archive_node record = Some a ∧
          t = (inventory_node record, saa "archive", a)) ∨
    (record "call_number" ≠ "" ∧
     t = (inventory_node record, saa "archiveDocumentReference",
          plain (record "call_number"))) ∨
    (∃ n, book_number upper record = Some n ∧
       (t = (book_node n, saa "inventoryNumber", plain n) ∨
        (∃ a, archive_node record = Some a ∧
              t = (book_node n, saa "heldBy", a)) ∨
        t = (book_node n, RDF_type, saa "InventoryBook") ∨
        t = (inventory_node record, saa "documentedIn", book_node n))).
Proof.
  rewrite <- frick_elem_of_emitted_book.
  rewrite <- frick_elem_of_emitted_getArchive, <- frick_value_getArchive.
  unfold description2rdf. cbv zeta.
  fold (inventory_node record). fold (owner_node record). unfold_emitted.
  rewrite !nonempty_true. tauto.
Qed.

(** *** The book number *)

Lemma first_number_nonempty doc cap : first_number doc cap → doc ≠ "".
Proof.
  intros (pre & post & -> & Hpair & _) Hdoc.
  apply (f_equal String.length) in Hdoc. rewrite length_append in Hdoc.
  destruct post; [done|]. simpl in Hdoc. lia.
Qed.

Lemma frick_book_number_Some upper record n :
  book_number upper record = Some n ↔
  disqualified (record "call_number") = false ∧
  ∃ cap, first_number (record "call_number") cap ∧
         n = replace " " "" (upper cap).
Proof.
  unfold book_number. setoid_rewrite <- findall_ref_first_number.
  destruct (nonempty (record "call_number")) eqn:Hcall.
  - destruct (disqualified _); simpl; [naive_solver|].
    destruct (head _) as [cap|]; simpl; naive_solver.
  - simpl. split; [done|]. intros (_ & cap & Hcap & _).
    apply findall_ref_first_number, first_number_nonempty in Hcap.
    apply nonempty_true in Hcap. congruence.
Qed.

(** Replacing the space by nothing removes every space. *)
Lemma replace_space s :
  replace " " "" s = filter_chars (λ c, negb (Ascii.eqb c " ")) s.
Proof.
  unfold replace. induction s as [|c s IH]; [done|].
  cbn [replace_from filter_chars String.prefix].
  destruct (Ascii.eqb_spec c " ") as [->|Hc].
  - simpl. replace (String.prefix "" s) with true by (by destruct s).
    exact IH.
  - destruct (ascii_dec " " c) as [<-|?]; [done|]. simpl. by rewrite <- IH.
Qed.

Lemma frick_description2rdf_inventoryNumber upper record s o :
  (s, saa "inventoryNumber", o) ∈ emitted (description2rdf upper record) ↔
  disqualified (record "call_number") = false ∧
  ∃ cap, first_number (record "call_number") cap ∧
         s = book_node (replace " " "" (upper cap)) ∧
         o = plain (replace " " "" (upper cap)).
Proof.
  rewrite frick_description2rdf_triples. split.
  - intros H. split_cases; triple_inj.
    apply frick_book_number_Some in H0 as (Hok & cap & Hcap & ->).
    split; [done|]. by exists cap.
  - intros (Hok & cap & Hcap & -> & ->). do 14 right.
    exists (replace " " "" (upper cap)). split; [|by left].
    apply frick_book_number_Some. split; [done|]. by exists cap.
Qed.

Lemma frick_description2rdf_documentedIn upper record o :
  (inventory_node record, saa "documentedIn", o)
    ∈ emitted (description2rdf upper record) ↔
  disqualified (record "call_number") = false ∧
  ∃ cap, first_number (record "call_number") cap ∧
         o = book_node (replace " " "" (upper cap)).
Proof.
  rewrite frick_description2rdf_triples. split.
  - intros H. split_cases; triple_inj.
    apply frick_book_number_Some in H0 as (Hok & cap & Hcap & ->).
    split; [done|]. by exists cap.
  - intros (Hok & cap & Hcap & ->). do 14 right.
    exists (replace " " "" (upper cap)). split; [|by do 3 right].
    apply frick_book_number_Some. split; [done|]. by exists cap.
Qed.

(** C5.  In the Frick dialect no book number is emitted when the call
    number contains "WK", "DBK" or "boedel"; otherwise the book number is
    the number at the first place of the call number where two digits
    stand side by side (two to five digits, a space or not, A or B or
    not; NA and a space may stand before it and are not part of it),
    uppercased and with every space removed.  The inventory is documented
    in that book.  The number of "NA 1234 A" is "1234 A". *)
Theorem C5_dialect_B_book_number upper record :
  (∀ s o,
     (s, saa "inventoryNumber", o) ∈ emitted (description2rdf upper record) ↔
     disqualified (record "call_number") = false ∧
     ∃ cap, first_number (record "call_number") cap ∧
            s = book_node (replace " " "" (upper cap)) ∧
            o = plain (replace " " "" (upper cap))) ∧
  (∀ o,
     (inventory_node record, saa "documentedIn", o)
       ∈ emitted (description2rdf upper record) ↔
     disqualified (record "call_number") = false ∧
     ∃ cap, first_number (record "call_number") cap ∧
            o = book_node (replace " " "" (upper cap))) ∧
  (disqualified (record "call_number") = true ↔
   contains "WK" (record "call_number") = true ∨
   contains "DBK" (record "call_number") = true ∨
   contains "boedel" (record "call_number") = true) ∧
  (∀ cap, replace " " "" (upper cap) =
          filter_chars (λ c, negb (Ascii.eqb c " ")) (upper cap)) ∧
  first_number "NA 1234 A" "1234 A".
Proof.
  split; [apply frick_description2rdf_inventoryNumber|].
  split; [apply frick_description2rdf_documentedIn|].
  split; [unfold disqualified; rewrite !orb_true_iff; tauto|].
  split; [intros cap; apply replace_space|].
  apply findall_ref_first_number. by vm_compute.
Qed.

(** The call number "NA 1234 A" gives book 1234A; a call number with
    "boedel" gives no book. *)
Example book_of_frick :
  (book_node "1234A", saa "inventoryNumber", plain "1234A")
    ∈ emitted (description2rdf ascii_upper frick) ∧
  ∀ s o, (s, saa "inventoryNumber", o)
           ∉ emitted (description2rdf ascii_upper frick_boedel).
Proof.
  split.
  - apply frick_description2rdf_inventoryNumber. split; [by vm_compute|].
    exists "1234 A". split; [|by vm_compute].
    apply findall_ref_first_number. by vm_compute.
  - intros s o. rewrite frick_description2rdf_inventoryNumber.
    intros [Hok _]. by vm_compute in Hok.
Qed.


Lemma frick_items2rdf_triples record t :
  let inventory := saaInventory (record "inventory_number") in
  let item := saaItem (filter_chars lot_char (record "inventory_lot")) in
  t ∈ emitted (items2rdf record) ↔
    t = (inventory, saa "content", item) ∨
    t = (item, saa "isInRecord", inventory) ∨
    t = (item, RDF_type, saa "Item") ∨
    t = (item, saa "index", plain (record "assigned_item_no")) ∨
    t = (item, saa "workType", tagged (record "type") "en") ∨
    t = (item, RDFS_label, tagged (record "title") "nl") ∨
    t = (item, saa "artist", plain (record "artist_name")) ∨
    t = (item, saa "transcription", tagged (record "entry") "nl") ∨
    (record "room" ≠ "" ∧ t = (item, saa "room", tagged (record "room") "nl")) ∨
    (record "value" ≠ "" ∧ t = (item, saa "valuation", plain (record "value"))).
Proof.
  cbv zeta. unfold items2rdf. cbv zeta. unfold_emitted.
  rewrite !nonempty_true. tauto.
Qed.


Lemma frick_archive_node_BNode record a :
  archive_node record = Some a → ∃ id, a = BNode id.
Proof.
  unfold archive_node. destruct (nonempty _); [|done].
  intros [= <-]. by eexists.
Qed.

Lemma frick_book_number_no_reference upper record :
  record "call_number" = "" → book_number upper record = None.
Proof. unfold book_number. by intros ->. Qed.

Lemma frick_archive_node_no_name record :
  record "archive" = "" → archive_node record = None.
Proof. unfold archive_node. by intros ->. Qed.

Lemma description2rdf_owner_unused upper record :
  record "owner_name" = "" →
  unused (emitted (description2rdf upper record)) (owner_node record).
Proof.
  intros Hempty t Hin. apply frick_description2rdf_triples in Hin.
  split_cases; subst t; try done;
    repeat match goal with
    | H : archive_node _ = Some _ |- _ =>
        apply frick_archive_node_BNode in H as [? ->]
    | H : get COUNTRIES _ = Some _ |- _ =>
        apply get_COUNTRIES_tgn in H as [? ->]
    | H : get CITIES _ = Some _ |- _ =>
        apply get_CITIES_tgn in H as [? ->]
    end;
    simpl; split; intros H'; not_person H'.
Qed.

Lemma frick_description2rdf_empty upper record :
  let g := emitted (description2rdf upper record) in
  (record "introduction" = "" →
   ∀ s x d, (s, RDFS_comment, Literal x (Some "nl") d) ∉ g) ∧
  (record "commentary" = "" →
   ∀ s x d, (s, RDFS_comment, Literal x (Some "en") d) ∉ g) ∧
  (record "owner_name" = "" → no_statement g (saa "owners")) ∧
  (record "appraiser" = "" → no_statement g (saa "appraisers")) ∧
  (record "archive" = "" →
   no_statement g (saa "archive") ∧ no_statement g (saa "heldBy") ∧
   ∀ s, (s, RDF_type, saa "Archive") ∉ g) ∧
  (record "call_number" = "" →
   no_statement g (saa "archiveDocumentReference") ∧
   no_statement g (saa "inventoryNumber") ∧
   no_statement g (saa "documentedIn")).
Proof.
  cbv zeta. unfold no_statement.
  repeat match goal with |- _ ∧ _ => split end.
  - intros Hempty s x d Hin. apply frick_description2rdf_triples in Hin.
    split_cases; triple_inj; done.
  - intros Hempty s x d Hin. apply frick_description2rdf_triples in Hin.
    split_cases; triple_inj; done.
  - intros Hempty s o Hin. apply frick_description2rdf_triples in Hin.
    split_cases; triple_inj; done.
  - intros Hempty s o Hin. apply frick_description2rdf_triples in Hin.
    split_cases; triple_inj; done.
  - intros Hempty%frick_archive_node_no_name.
    repeat match goal with |- _ ∧ _ => split end;
      intros s; first [intros o Hin | intros Hin];
      apply frick_description2rdf_triples in Hin;
      split_cases; triple_inj; congruence.
  - intros Hempty. pose proof (frick_book_number_no_reference upper record Hempty).
    repeat match goal with |- _ ∧ _ => split end;
      intros s o Hin; apply frick_description2rdf_triples in Hin;
      split_cases; triple_inj; congruence.
Qed.

Lemma frick_items2rdf_empty record :
  let g := emitted (items2rdf record) in
  (record "room" = "" → no_statement g (saa "room")) ∧
  (record "value" = "" → no_statement g (saa "valuation")).
Proof.
  cbv zeta. unfold no_statement.
  repeat match goal with |- _ ∧ _ => split end;
    intros Hempty s o Hin; apply frick_items2rdf_triples in Hin;
    split_cases; triple_inj; done.
Qed.

End FrickFacts.

(** ** The three dialects side by side *)

Module DialectFacts.

Import Py RDF PyFacts RDFFacts Dialects Samples.

#[local] Arguments String.append !_ _ / : simpl nomatch.


Lemma additive_twice (m : Build unit) g :
  additive m →
  graph_after m (graph_after m g) = graph_after m g ∧
  graph_after m g = emitted m ∪ g.
Proof.
  intros Hm. split; [exact (graph_after_twice m g Hm)|].
  exact (graph_after_additive m g Hm).
Qed.

(** C10.  Every per-row builder of the three converters is idempotent on
    the graph: run a second time on the same row it returns the graph of
    the first run.  What a builder adds to a graph is a set of triples
    that depends on the row alone, and adding is set union: nothing in a
    builder counts or draws a fresh identifier. *)
Theorem C10_builders_idempotent (upper : string → string)
    (record : string → string) (g : graph) :
  let twice (m : Build unit) :=
    graph_after m (graph_after m g) = graph_after m g ∧
    graph_after m g = emitted m ∪ g in
  twice (Convert.description2rdf upper record) ∧
  twice (Convert.items2rdf record) ∧
  twice (ConvertGPI.description2rdf upper record) ∧
  twice (ConvertGPI.items2rdf record) ∧
  twice (Frick.description2rdf upper record) ∧
  twice (Frick.items2rdf record).
Proof.
  cbv zeta.
  split; [exact (additive_twice _ g
                   (ConvertFacts.additive_description2rdf upper record))|].
  split; [exact (additive_twice _ g (ConvertFacts.additive_items2rdf record))|].
  split; [exact (additive_twice _ g
                   (ConvertFacts.additive_description2rdf upper record))|].
  split; [exact (additive_twice _ g (GPIFacts.gpi_additive_items2rdf record))|].
  split; [exact (additive_twice _ g
                   (FrickFacts.frick_additive_description2rdf upper record))|].
  exact (additive_twice _ g (FrickFacts.frick_additive_items2rdf record)).
Qed.

Lemma dialect_value_getArchive d record :
  value (getArchive d record) =
  if nonempty (archive_name d record)
  then Some (BNode (filter_chars ascii_letter (archive_text d record)))
  else None.
Proof.
  destruct d; simpl.
  - apply ConvertFacts.value_getArchive.
  - apply ConvertFacts.value_getArchive.
  - apply FrickFacts.frick_value_getArchive.
Qed.

(** C6 (amended).  In every dialect a row with an empty archive name
    has no Archive node, whatever its location; a row with an archive
    name has the blank node whose identifier is the text of the archive
    (name followed by location in the Getty dialects, the one archive
    column in the Frick dialect) with only its ASCII letters kept.  Hence
    two rows with archive names, of the same dialect or not, whose texts
    have the same letters have the same Archive node. *)
Theorem C6_archive_identifier :
  (∀ d (r : string → string),
     archive_name d r = "" → value (getArchive d r) = None) ∧
  (∀ d (r : string → string),
     archive_name d r ≠ "" →
     value (getArchive d r) =
       Some (BNode (filter_chars ascii_letter (archive_text d r)))) ∧
  (∀ d1 d2 (r1 r2 : string → string),
     archive_name d1 r1 ≠ "" → archive_name d2 r2 ≠ "" →
     filter_chars ascii_letter (archive_text d1 r1) =
     filter_chars ascii_letter (archive_text d2 r2) →
     value (getArchive d1 r1) = value (getArchive d2 r2)).
Proof.
  split; [|split].
  - intros d r Hname. by rewrite dialect_value_getArchive, Hname.
  - intros d r Hname%nonempty_true.
    by rewrite dialect_value_getArchive, Hname.
  - intros d1 d2 r1 r2 H1%nonempty_true H2%nonempty_true Heq.
    by rewrite !dialect_value_getArchive, H1, H2, Heq.
Qed.

(** The Getty row of inventory N-100 and a Frick row with the same
    letters share their Archive node. *)
Lemma C6_witness :
  value (getArchive Getty trip) = value (getArchive Montias frick_trip).
Proof.
  apply (proj2 (proj2 C6_archive_identifier) Getty Montias trip frick_trip);
    by vm_compute.
Defined.

(** C6, counterexample.  Two Getty rows whose name and location have the
    same letters: the one with the letters in the location has no Archive
    node, the one with the letters in the name has one. *)
Lemma C6_counterexample :
  filter_chars ascii_letter (archive_text Getty archive_in_location) =
  filter_chars ascii_letter (archive_text Getty archive_in_name) ∧
  value (getArchive Getty archive_in_location) = None ∧
  value (getArchive Getty archive_in_name) = Some (BNode "Amsterdam").
Proof. by vm_compute. Qed.

(** C9 (amended).  A builder is a total function of the row, and an empty
    value in a field that the builder tests adds nothing for that field.
    Getty descriptions: no comment for an empty introduction; no
    statement about or to the Person of a role and position whose name is
    empty; no begin (end) date when a component of it is empty, and no
    registration date when that holds of both; no Archive, archive
    relation, location or holder for an empty archive name; no location
    for an empty archive location; no reference and no book for an empty
    archive document number.  Getty items: no identifier, room or
    valuation for an empty one.  Frick descriptions and items: the same
    for introduction, commentary, owner name, appraiser, archive, call
    number, room and value.  The Item itself is emitted whatever its
    title: its type and its label, which is empty when the title is. *)
Theorem C9_empty_guarded_fields (upper : string → string)
    (record : string → string) :
  let getty := emitted (Convert.description2rdf upper record) in
  let getty_items := emitted (Convert.items2rdf record) in
  let gpi_items := emitted (ConvertGPI.items2rdf record) in
  let frick := emitted (Frick.description2rdf upper record) in
  let frick_items := emitted (Frick.items2rdf record) in
  let getty_item :=
    saaItem (Convert.item_id (record "pi_inventory_no")
               (record "assigned_item_no")) in
  let frick_item :=
    saaItem (filter_chars Frick.lot_char (record "inventory_lot")) in
  (* descriptions, Getty dialects *)
  ((record "introduction" = "" → no_statement getty RDFS_comment) ∧
   (∀ ro n, record (Convert.role_column ro +:+ str n) = "" →
      unused getty (Convert.person_node record (Convert.role_name ro) n)) ∧
   (record "begin_date_year" = "" ∨ record "begin_date_month" = "" ∨
    record "begin_date_day" = "" → no_statement getty (saa "beginDate")) ∧
   (record "end_date_year" = "" ∨ record "end_date_month" = "" ∨
    record "end_date_day" = "" → no_statement getty (saa "endDate")) ∧
   (record "begin_date_year" = "" ∨ record "begin_date_month" = "" ∨
    record "begin_date_day" = "" →
    record "end_date_year" = "" ∨ record "end_date_month" = "" ∨
    record "end_date_day" = "" →
    no_statement getty (saa "registrationDate")) ∧
   (record "archive_name" = "" →
    no_statement getty (saa "archive") ∧
    no_statement getty (saa "location") ∧
    no_statement getty (saa "heldBy") ∧
    ∀ s, (s, RDF_type, saa "Archive") ∉ getty) ∧
   (record "archive_loc" = "" → no_statement getty (saa "location")) ∧
   (record "archive_doc_no" = "" →
    no_statement getty (saa "archiveDocumentReference") ∧
    no_statement getty (saa "inventoryNumber") ∧
    no_statement getty (saa "documentedIn"))) ∧
  (* items, Getty dialects *)
  ((record "persistent_uid" = "" →
    no_statement getty_items (saa "identifier") ∧
    no_statement gpi_items (saa "identifier")) ∧
   (record "room" = "" →
    no_statement getty_items (saa "room") ∧
    no_statement gpi_items (saa "room")) ∧
   (record "valuation_amount" = "" →
    no_statement getty_items (saa "valuation") ∧
    no_statement gpi_items (saa "valuation"))) ∧
  (* descriptions and items, Frick dialect *)
  ((record "introduction" = "" →
    ∀ s x d, (s, RDFS_comment, Literal x (Some "nl") d) ∉ frick) ∧
   (record "commentary" = "" →
    ∀ s x d, (s, RDFS_comment, Literal x (Some "en") d) ∉ frick) ∧
   (record "owner_name" = "" →
    unused frick (Frick.owner_node record) ∧
    no_statement frick (saa "owners")) ∧
   (record "appraiser" = "" → no_statement frick (saa "appraisers")) ∧
   (record "archive" = "" →
    no_statement frick (saa "archive") ∧
    no_statement frick (saa "heldBy") ∧
    ∀ s, (s, RDF_type, saa "Archive") ∉ frick) ∧
   (record "call_number" = "" →
    no_statement frick (saa "archiveDocumentReference") ∧
    no_statement frick (saa "inventoryNumber") ∧
    no_statement frick (saa "documentedIn")) ∧
   (record "room" = "" → no_statement frick_items (saa "room")) ∧
   (record "value" = "" → no_statement frick_items (saa "valuation"))) ∧
  (* the Item, whatever its title *)
  ((getty_item, RDF_type, saa "Item") ∈ getty_items ∧
   (getty_item, RDFS_label, tagged (record "title") "nl") ∈ getty_items ∧
   (getty_item, RDF_type, saa "Item") ∈ gpi_items ∧
   (getty_item, RDFS_label, tagged (record "title") "nl") ∈ gpi_items ∧
   (frick_item, RDF_type, saa "Item") ∈ frick_items ∧
   (frick_item, RDFS_label, tagged (record "title") "nl") ∈ frick_items).
Proof.
  cbv zeta.
  pose proof (ConvertFacts.description2rdf_empty upper record)
    as (Hc1 & Hc2 & Hc3 & Hc4 & Hc5 & Hc6 & Hc7).
  pose proof (ConvertFacts.items2rdf_empty record) as (Hi1 & Hi2 & Hi3).
  pose proof (GPIFacts.gpi_items2rdf_empty record) as (Hg1 & Hg2 & Hg3).
  pose proof (FrickFacts.frick_description2rdf_empty upper record)
    as (Hf1 & Hf2 & Hf3 & Hf4 & Hf5 & Hf6).
  pose proof (FrickFacts.frick_items2rdf_empty record) as (Hf7 & Hf8).
  split; [|split; [|split]].
  - split; [exact Hc1|]. split.
    { intros ro n. apply ConvertFacts.description2rdf_person_unused. }
    split.
    { intros Hb. apply Hc2. by apply ConvertFacts.parse_date_empty. }
    split.
    { intros He. apply Hc3. by apply ConvertFacts.parse_date_empty. }
    split.
    { intros Hb He.
      apply Hc4; by apply ConvertFacts.parse_date_empty. }
    split; [exact Hc5|]. split; [exact Hc6|exact Hc7].
  - split; [|split]; intros Hempty; split; auto.
  - split; [exact Hf1|]. split; [exact Hf2|]. split.
    { intros Hempty. split; [|by apply Hf3].
      by apply FrickFacts.description2rdf_owner_unused. }
    split; [exact Hf4|]. split; [exact Hf5|]. split; [exact Hf6|].
    split; [exact Hf7|exact Hf8].
  - split; [apply ConvertFacts.items2rdf_triples; tauto|].
    split; [apply ConvertFacts.items2rdf_triples; tauto|].
    split; [apply GPIFacts.gpi_items2rdf_triples; tauto|].
    split; [apply GPIFacts.gpi_items2rdf_triples; tauto|].
    split; [apply FrickFacts.frick_items2rdf_triples; tauto|].
    apply FrickFacts.frick_items2rdf_triples; tauto.
Qed.

(** C9, counterexample.  An item row with an empty title still gives an
    Item, with an empty label. *)
Lemma C9_counterexample :
  untitled_item "title" = "" ∧
  (saaItem "N-100_0001", RDF_type, saa "Item")
    ∈ emitted (Convert.items2rdf untitled_item) ∧
  (saaItem "N-100_0001", RDFS_label, tagged "" "nl")
    ∈ emitted (Convert.items2rdf untitled_item).
Proof.
  split; [by vm_compute|].
  split; apply ConvertFacts.items2rdf_triples.
  - do 2 right. left. by vm_compute.
  - do 5 right. left. by vm_compute.
Qed.

(** The Frick builder has no test on the date: an empty date is emitted as
    an empty literal. *)
Lemma frick_empty_date_emitted :
  frick_undated "date" = "" ∧
  (Frick.inventory_node frick_undated, saa "registrationDate",
   date_literal "")
    ∈ emitted (Frick.description2rdf ascii_upper frick_undated).
Proof.
  split; [by vm_compute|]. apply FrickFacts.frick_description2rdf_triples.
  do 10 right. left. by vm_compute.
Qed.

End DialectFacts.

(** ** The linkage engine: order of the rows, failure, and the file of links *)

Module LinksetFacts.

Import Py Matching PyFacts MatchingFacts.

#[local] Arguments String.append !_ _ / : simpl nomatch.

(** *** Iterating over a linkset *)

(** Every linkset has an iteration. *)
Lemma sorted_iteration_iteration ls : iteration ls (sorted_iteration ls).
Proof.
  unfold iteration, sorted_iteration. split; [|split].
  - rewrite <- list_fmap_compose.
    rewrite (list_fmap_ext _ fst) by (by intros ? []).
    apply NoDup_fst_map_to_list.
  - apply Forall_fmap, Forall_forall. intros [k S] _. simpl.
    apply NoDup_elements.
  - intros inv S. rewrite <- elem_of_map_to_list. split.
    + intros Hin. exists (elements S). split.
      * apply list_elem_of_fmap. by exists (inv, S).
      * by rewrite list_to_set_elements_L.
    + intros (l & ((k & S') & [= -> ->] & Hin)%list_elem_of_fmap & ->).
      by rewrite list_to_set_elements_L.
Qed.

Lemma iteration_links ls items inv t :
  iteration ls items →
  t ∈ links ls inv ↔ ∃ l, (inv, l) ∈ items ∧ t ∈ l.
Proof.
  intros (Hkeys & _ & Hls). unfold links. split.
  - destruct (ls !! inv) as [S|] eqn:HS; simpl; [|set_solver].
    apply Hls in HS as (l & Hin & ->). intros Ht%elem_of_list_to_set.
    by exists l.
  - intros (l & Hin & Ht).
    assert (ls !! inv = Some (list_to_set l)) as ->
      by (apply Hls; by exists l).
    simpl. by apply elem_of_list_to_set.
Qed.

Lemma iteration_singleton inv t :
  iteration {[ inv := {[ t ]} ]} [(inv, [t])].
Proof.
  split; [|split].
  - simpl. apply NoDup_singleton.
  - apply Forall_singleton. simpl. apply NoDup_singleton.
  - intros inv' S. rewrite lookup_singleton_Some. split.
    + intros [<- <-]. exists [t]. split; [set_solver|]. simpl. set_solver.
    + intros (l & Hin%list_elem_of_singleton & HS). simplify_eq.
      split; [done|]. simpl. set_solver.
Qed.

Lemma elem_of_buildLinkset items w :
  w ∈ buildLinkset items ↔
  w = prefix_line ∨
  ∃ inv l d rec a, (inv, l) ∈ items ∧ (d, rec, a) ∈ l ∧
    (w = inventory_line rec inv ∨ w = isInRecord_line inv rec).
Proof.
  unfold buildLinkset. rewrite elem_of_cons, list_elem_of_bind.
  split.
  - intros [->|((inv & l) & Hw & Hin)]; [by left|]. right.
    apply list_elem_of_bind in Hw as (((d & rec) & a) & Hw & Ht).
    exists inv, l, d, rec, a. set_solver.
  - intros [->|(inv & l & d & rec & a & Hin & Ht & Hw)]; [by left|]. right.
    exists (inv, l). split; [|done].
    apply list_elem_of_bind. exists (d, rec, a). set_solver.
Qed.

(** *** Texts cut at a character *)

Lemma contains_char_false c s :
  contains (String c "") s = false → without c s = true.
Proof.
  unfold without. induction s as [|d s IH]; [done|].
  cbn [contains String.prefix all_chars].
  intros [Hp Hs]%orb_false_elim. rewrite (IH Hs), andb_true_r.
  destruct (ascii_dec c d) as [<-|Hne].
  - by destruct s.
  - apply negb_true_iff, Ascii.eqb_neq. congruence.
Qed.

(** Two texts cut at the first occurrence of a character. *)
Lemma append_char_inj c a a' x x' :
  without c a = true → without c a' = true →
  a +:+ String c x = a' +:+ String c x' → a = a' ∧ x = x'.
Proof.
  unfold without. revert a'. induction a as [|d a IH]; intros [|d' a']; simpl.
  - by intros _ _ [= ->].
  - intros _ [Hd _]%andb_true_iff [= <- _].
    by rewrite Ascii.eqb_refl in Hd.
  - intros [Hd _]%andb_true_iff _ [= -> _].
    by rewrite Ascii.eqb_refl in Hd.
  - intros [_ Ha]%andb_true_iff [_ Ha']%andb_true_iff [= -> Heq].
    by destruct (IH a' Ha Ha' Heq) as [-> ->].
Qed.

Lemma append_inv_tail a a' b : a +:+ b = a' +:+ b → a = a'.
Proof.
  revert a'. induction a as [|c a IH]; intros [|c' a']; simpl.
  - done.
  - intros Heq. apply (f_equal String.length) in Heq. simpl in Heq.
    rewrite length_append in Heq. lia.
  - intros Heq. apply (f_equal String.length) in Heq. simpl in Heq.
    rewrite length_append in Heq. lia.
  - intros [= -> Heq]. by rewrite (IH a' Heq).
Qed.

Section Engine.

Variable token_sort_ratio : cell → cell → option float.

Local Abbreviation run := (run token_sort_ratio).
Local Abbreviation main := (main token_sort_ratio).
Local Abbreviation score := (score token_sort_ratio).
Local Abbreviation passes := (passes token_sort_ratio).

(** *** When the loop fails, and what it returns *)

Lemma run_raises_iff ls rows :
  run ls rows = None ↔ ∃ r, r ∈ rows ∧ score r = None.
Proof.
  split.
  - revert ls. induction rows as [|r rows IH]; intros ls; [done|]. simpl.
    destruct (score r) as [p|] eqn:Hp.
    + rewrite (loop_body_accepted _ _ _ _ Hp). simpl.
      intros (r' & ? & ?)%IH. exists r'. set_solver.
    + intros _. exists r. set_solver.
  - intros (r & Hin & Hr). by apply (run_raises token_sort_ratio ls rows r).
Qed.

(** The entries of the linkset [main] returns. *)
Lemma main_lookup rows ls inv S :
  main rows = Some ls →
  ls !! inv = Some S ↔
  S ≠ ∅ ∧
  ∀ t, t ∈ S ↔
    ∃ r, r ∈ rows ∧ inventory r = inv ∧ link_of r = t ∧ passes r.
Proof.
  intros Hls.
  pose proof (run_links token_sort_ratio _ _ _ Hls) as Hlinks.
  assert (no_empty_entry ls) as Hne.
  { apply (run_no_empty_entry token_sort_ratio ∅ rows); [|done].
    intros ? ?. by rewrite lookup_empty. }
  assert (∀ t, t ∈ links ls inv ↔
     ∃ r, r ∈ rows ∧ inventory r = inv ∧ link_of r = t ∧ passes r) as Hl.
  { intros t. rewrite Hlinks. unfold links at 1. rewrite lookup_empty.
    set_solver. }
  split.
  - intros HS. split; [by apply (Hne inv)|]. intros t.
    by rewrite <- (links_lookup _ _ _ HS).
  - intros [HS Hmem]. destruct (ls !! inv) as [S'|] eqn:HS'.
    + f_equal. apply set_eq. intros t. rewrite Hmem, <- Hl.
      by rewrite (links_lookup _ _ _ HS').
    + destruct (set_choose_L S HS) as [t Ht]. apply Hmem, Hl in Ht.
      rewrite (links_lookup_None _ _ HS') in Ht. set_solver.
Qed.

(** X1.  The linkset [main] returns depends on the rows of the file as a
    set only: two files with the same rows, in whatever order and however
    often repeated, give the same mapping from inventories to sets of
    links, and [main] raises on the one exactly when it raises on the
    other. *)
Theorem X1_main_same_rows rows rows' :
  (∀ r, r ∈ rows ↔ r ∈ rows') → main rows = main rows'.
Proof.
  intros Hsame.
  destruct (main rows) as [ls|] eqn:Hls, (main rows') as [ls'|] eqn:Hls'.
  - f_equal. apply map_eq. intros inv. apply option_eq. intros S.
    rewrite (main_lookup _ _ _ _ Hls), (main_lookup _ _ _ _ Hls').
    by setoid_rewrite Hsame.
  - apply run_raises_iff in Hls' as (r & Hin & Hr).
    assert (main rows = None) as Hnone
      by (apply run_raises_iff; exists r; by rewrite Hsame).
    congruence.
  - apply run_raises_iff in Hls as (r & Hin & Hr).
    assert (main rows' = None) as Hnone
      by (apply run_raises_iff; exists r; by rewrite <- Hsame).
    congruence.
  - done.
Qed.

(** X2.  [main] raises exactly when the similarity function raises on
    some row of the file: no handler surrounds the call, so one such row,
    wherever it stands, loses the links of all the others. *)
Theorem X2_main_raises_iff rows :
  (main rows = None ↔ ∃ r, r ∈ rows ∧ score r = None) ∧
  (∀ pre r post, score r = None → main (pre ++ r :: post) = None).
Proof.
  split; [apply run_raises_iff|].
  intros pre r post Hr. apply run_raises_iff. exists r. set_solver.
Qed.

(** X3.  [buildLinkset] on the linkset of [main]: the first string
    written is the prefix declaration, also when there is no link; the
    strings written after it are, for every row that passes both tests,
    the statement from its record to its inventory and the inverse
    statement, and nothing else.  The dataset and the act type of a link
    are not written.  This holds in whatever order the entries and the
    members of the sets are iterated. *)
Theorem X3_written_lines rows ls items :
  main rows = Some ls → iteration ls items →
  head (buildLinkset items) = Some prefix_line ∧
  ∀ w, w ∈ buildLinkset items ↔
    w = prefix_line ∨
    ∃ r, r ∈ rows ∧ passes r ∧
      (w = inventory_line (record r) (inventory r) ∨
       w = isInRecord_line (inventory r) (record r)).
Proof.
  intros Hls Hit. split; [done|]. intros w.
  rewrite elem_of_buildLinkset.
  assert (∀ inv t, (∃ l, (inv, l) ∈ items ∧ t ∈ l) ↔
     ∃ r, r ∈ rows ∧ inventory r = inv ∧ link_of r = t ∧ passes r) as Hl.
  { intros inv t. rewrite <- (iteration_links _ _ _ _ Hit).
    rewrite (run_links token_sort_ratio _ _ _ Hls).
    unfold links at 1. rewrite lookup_empty. set_solver. }
  split.
  - intros [->|(inv & l & d & rec & a & Hin & Ht & Hw)]; [by left|]. right.
    destruct (proj1 (Hl inv (d, rec, a))) as (r & Hr & <- & Hlink & Hpass);
      [by exists l|].
    exists r. unfold link_of in Hlink. by simplify_eq.
  - intros [->|(r & Hr & Hpass & Hw)]; [by left|]. right.
    destruct (proj2 (Hl (inventory r) (link_of r))) as (l & Hin & Ht);
      [by exists r|].
    by exists (inventory r), l, (dataset r), (record r), (actType r).
Qed.

End Engine.

(** X4.  The statements [buildLinkset] writes can be read back: when the
    texts of the record and of the inventory hold no [>], a statement
    determines both texts, and a statement from a record to an inventory
    is never a statement from an inventory to a record. *)
Theorem X4_lines_unambiguous rec inv rec' inv' :
  contains ">" (format_cell rec) = false →
  contains ">" (format_cell rec') = false →
  contains ">" (format_cell inv) = false →
  contains ">" (format_cell inv') = false →
  (inventory_line rec inv = inventory_line rec' inv' →
   format_cell rec = format_cell rec' ∧ format_cell inv = format_cell inv') ∧
  (isInRecord_line inv rec = isInRecord_line inv' rec' →
   format_cell rec = format_cell rec' ∧ format_cell inv = format_cell inv') ∧
  inventory_line rec inv ≠ isInRecord_line inv' rec'.
Proof.
  intros Hr%contains_char_false Hr'%contains_char_false
         Hi%contains_char_false Hi'%contains_char_false.
  unfold inventory_line, isInRecord_line.
  generalize (format_cell rec) (format_cell rec') (format_cell inv)
    (format_cell inv') Hr Hr' Hi Hi'.
  clear. intros r r' i i' Hr Hr' Hi Hi'. split; [|split].
  - intros H. injection H as H.
    apply append_char_inj in H as [-> H]; [|done..]. split; [done|].
    cbn in H. simplify_eq. by apply append_inv_tail in H.
  - intros H. injection H as H.
    apply append_char_inj in H as [-> H]; [|done..]. split; [|done].
    cbn in H. simplify_eq. by apply append_inv_tail in H.
  - intros H. injection H as H.
    apply append_char_inj in H as [_ H]; [|done..].
    cbn in H. simplify_eq.
Qed.

(** The rows of the samples: a repeated row and another order. *)
Lemma X1_witness :
  Matching.main same_name_ratio [row_trip; row_other_name; row_trip] =
  Matching.main same_name_ratio [row_other_name; row_trip].
Proof.
  apply (X1_main_same_rows same_name_ratio
           [row_trip; row_other_name; row_trip] [row_other_name; row_trip]).
  intros r. rewrite !elem_of_cons. tauto.
Defined.

Lemma main_row_trip :
  Matching.main same_name_ratio [row_trip] =
  Some {[ Some "N-100" :=
            {[ (Some "Getty", Some "saa:act/17", Some "Boedelinventaris") ]} ]}.
Proof.
  unfold Matching.main, Matching.run.
  rewrite (loop_body_accepted same_name_ratio _ _ 1%float) by done.
  replace (accepted row_trip 1) with true.
  - by rewrite linkset_add_empty.
  - unfold accepted. rewrite bool_decide_eq_true_2; [done|].
    unfold ACT_TYPES. simpl. set_solver.
Qed.

(** The file of the one link of inventory N-100. *)
Lemma X3_witness :
  head (buildLinkset
          [(Some "N-100",
            [(Some "Getty", Some "saa:act/17", Some "Boedelinventaris")])]) =
    Some prefix_line ∧
  ∀ w, w ∈ buildLinkset
             [(Some "N-100",
               [(Some "Getty", Some "saa:act/17", Some "Boedelinventaris")])] ↔
    w = prefix_line ∨
    ∃ r, r ∈ [row_trip] ∧ passes same_name_ratio r ∧
      (w = inventory_line (record r) (inventory r) ∨
       w = isInRecord_line (inventory r) (record r)).
Proof.
  exact (X3_written_lines same_name_ratio [row_trip] _ _
           main_row_trip (iteration_singleton _ _)).
Defined.

Lemma X4_witness :
  format_cell (Some "saa:act/17") = format_cell (Some "saa:act/17") ∧
  format_cell (Some "N-100") = format_cell (Some "N-100").
Proof.
  refine (proj1 (X4_lines_unambiguous (Some "saa:act/17") (Some "N-100")
                   (Some "saa:act/17") (Some "N-100") _ _ _ _) eq_refl);
    reflexivity.
Defined.

End LinksetFacts.

(** ** Texts: lengths, suffixes, replacement *)

Module TextFacts.

Import Py PyFacts.

#[local] Arguments String.append !_ _ / : simpl nomatch.

Lemma append_inj_suffix a b c d :
  a +:+ b = c +:+ d → String.length b = String.length d → a = c ∧ b = d.
Proof.
  intros Heq Hlen. apply FrickFacts.append_inj_length; [done|].
  apply (f_equal String.length) in Heq. rewrite !length_append in Heq. lia.
Qed.

Lemma length_zfill width s :
  (String.length s ≤ width)%nat → String.length (zfill width s) = width.
Proof.
  intros Hlen. unfold zfill. destruct s as [|c s].
  - rewrite length_zeros. simpl. lia.
  - destruct (_ || _); simpl in *; rewrite length_append, length_zeros;
      simpl; lia.
Qed.

Lemma length_str_lt_100 n : (n < 100)%nat → (String.length (str n) ≤ 2)%nat.
Proof.
  intros Hn.
  assert (forallb (λ n, String.length (str n) <=? 2)%nat (seq 0 100) = true)
    as Hall by (by vm_compute).
  rewrite forallb_forall in Hall. apply Nat.leb_le, Hall, in_seq. lia.
Qed.

Lemma length_str_lt_10000 n :
  (n < 100 * 100)%nat → (String.length (str n) ≤ 4)%nat.
Proof.
  intros Hn.
  assert (forallb (λ n, String.length (str n) <=? 4)%nat
            (seq 0 (100 * 100)) = true)
    as Hall by (by vm_compute).
  rewrite forallb_forall in Hall. apply Nat.leb_le, Hall, in_seq. lia.
Qed.

Lemma contains_char c s :
  contains (String c "") s = negb (without c s).
Proof.
  unfold without. induction s as [|d s IH]; [done|].
  cbn [contains String.prefix all_chars]. rewrite IH.
  destruct (ascii_dec c d) as [<-|Hne].
  - rewrite Ascii.eqb_refl. by destruct s.
  - replace (Ascii.eqb d c) with false; [done|].
    symmetry. apply Ascii.eqb_neq. congruence.
Qed.

(** Replacing one character by another leaves none of the first. *)
Lemma replace_char_without a b s :
  a ≠ b → without a (replace (String a "") (String b "") s) = true.
Proof.
  intros Hab. unfold replace, without.
  induction s as [|c s IH]; [done|].
  cbn [replace_from String.prefix String.length Nat.sub].
  destruct (ascii_dec a c) as [<-|Hne].
  - replace (String.prefix "" s) with true by (by destruct s).
    cbn [String.append all_chars]. rewrite IH, andb_true_r.
    apply negb_true_iff, Ascii.eqb_neq. congruence.
  - cbn [all_chars]. rewrite IH, andb_true_r.
    apply negb_true_iff, Ascii.eqb_neq. congruence.
Qed.

(** Replacing by nothing keeps a subsequence: a class that holds all
    characters of the text holds all characters of the result. *)
Lemma replace_from_nothing_all_chars p old skip s :
  all_chars p s = true → all_chars p (replace_from old "" skip s) = true.
Proof.
  revert skip. induction s as [|c s IH]; intros skip; [done|].
  cbn [all_chars replace_from]. intros [Hc Hs]%andb_true_iff.
  destruct skip as [|n]; [|by apply IH].
  destruct (String.prefix old (String c s)).
  - cbn [String.append]. by apply IH.
  - cbn [all_chars]. by rewrite Hc, IH.
Qed.

(** A text without [old] is left as it is. *)
Lemma replace_absent old new s :
  contains old s = false → replace old new s = s.
Proof.
  unfold replace. induction s as [|c s IH]; [done|].
  cbn [contains]. intros [Hp Hs]%orb_false_elim. cbn [replace_from].
  by rewrite Hp, IH.
Qed.

Lemma filter_chars_all_chars p s : all_chars p (filter_chars p s) = true.
Proof.
  induction s as [|c s IH]; [done|]. cbn [filter_chars].
  destruct (p c) eqn:Hc; [|done]. cbn [all_chars]. by rewrite Hc.
Qed.

Lemma filter_chars_id p s : all_chars p s = true → filter_chars p s = s.
Proof.
  induction s as [|c s IH]; [done|]. cbn [all_chars filter_chars].
  intros [-> Hs]%andb_true_iff. by rewrite IH.
Qed.

(** *** Dates *)

Lemma parse_date_valid y m dd d : parse_date y m dd = Some d → valid_date d.
Proof.
  unfold parse_date, mk_datetime, valid_date.
  destruct (int y) as [y'|]; [|done]. destruct (int m) as [m'|]; [|done].
  destruct (int dd) as [d'|]; [|done]. cbn [mbind option_bind].
  destruct (_ && _) eqn:Hok; [|done]. intros [= <-]. cbn [year month day].
  rewrite !andb_true_iff, !Z.leb_le in Hok. lia.
Qed.

Lemma length_strftime_ymd d :
  valid_date d → String.length (strftime_ymd d) = 10%nat.
Proof.
  intros (Hy & Hm & Hd). unfold strftime_ymd.
  assert (day d ≤ 31)%Z.
  { destruct Hd as [_ Hd]. unfold days_in_month in Hd.
    destruct (month d) as [|[[[[]|[]|]|[[]|[]|]|]|[[[]|[]|]|[[]|[]|]|]|]|];
      try destruct (is_leap _); lia. }
  rewrite !length_append, !length_zfill; [done|..].
  - apply length_str_lt_100. lia.
  - apply length_str_lt_100. lia.
  - apply length_str_lt_10000. lia.
Qed.

End TextFacts.

(** ** Triples of a row, case by case *)

Module GraphFacts.

Import RDF RDFFacts.

Lemma triple_eq (a b c a' b' c' : term) :
  (a, b, c) = (a', b', c') → a = a' ∧ b = b' ∧ c = c'.
Proof. by intros [= -> -> ->]. Qed.

Lemma get_elem_of d x c : get d x = Some c → (x, c) ∈ d.
Proof.
  induction d as [|[k v] d IH]; [done|]. cbn [get].
  destruct (String.eqb_spec k x) as [->|_].
  - intros [= ->]. by left.
  - intros ?%IH. by right.
Qed.

(** A triple equation whose two sides differ in a component that
    evaluates is absurd. *)
Ltac triple_absurd H :=
  exfalso;
  first
    [ apply (f_equal predicate) in H; vm_compute in H; discriminate H
    | apply (f_equal object) in H; vm_compute in H; discriminate H
    | apply (f_equal subject) in H; vm_compute in H; discriminate H ].

(** Case analysis on the triples of a row: the cases that differ from the
    triple looked for in a component that evaluates are closed; the
    others are left with the equations of their components. *)
Ltac triple_cases :=
  split_cases;
  match goal with
  | H : @eq triple (_, _, _) (_, _, _) |- _ =>
      first [ triple_absurd H | apply triple_eq in H as (? & ? & ?) ]
  end.

End GraphFacts.

(** ** convert.py and convertGPI.py: persons, identifiers, dates, books *)

Module GettyRowFacts.

Import Py RDF Convert PyFacts RDFFacts ConvertFacts TextFacts GraphFacts.
Import Samples.

#[local] Arguments String.append !_ _ / : simpl nomatch.

(** *** Identifiers across inventories *)

(** No role name ends another one. *)
Lemma role_name_suffix a ro b ro' :
  a +:+ role_name ro = b +:+ role_name ro' → a = b ∧ ro = ro'.
Proof.
  destruct ro, ro'; simpl; intros Heq;
    try (apply append_inj_suffix in Heq as [-> _]; done).
  - change "beneficiary" with ("benefi" +:+ "ciary") in Heq.
    rewrite <- append_assoc in Heq.
    by apply append_inj_suffix in Heq as [_ [=]].
  - change "appraiser" with ("appr" +:+ "aiser") in Heq.
    rewrite <- append_assoc in Heq.
    by apply append_inj_suffix in Heq as [_ [=]].
  - change "beneficiary" with ("benefi" +:+ "ciary") in Heq.
    rewrite <- append_assoc in Heq.
    by apply append_inj_suffix in Heq as [_ [=]].
  - change "beneficiary" with ("be" +:+ "neficiary") in Heq.
    rewrite <- append_assoc in Heq.
    by apply append_inj_suffix in Heq as [_ [=]].
  - change "appraiser" with ("appr" +:+ "aiser") in Heq.
    rewrite <- append_assoc in Heq.
    by apply append_inj_suffix in Heq as [_ [=]].
  - change "beneficiary" with ("be" +:+ "neficiary") in Heq.
    rewrite <- append_assoc in Heq.
    by apply append_inj_suffix in Heq as [_ [=]].
Qed.

(** X9.  Person identifiers do not collide across inventories: for
    positions below 100 (the loops stop at 5, 12 and 14) the identifier
    determines the record identifier, the role and the position, and so
    does the Person node.  Two description rows share a Person node only
    if they have the same record identifier. *)
Theorem X9_person_id_injective record_no ro n record_no' ro' n' :
  (n < 100)%nat → (n' < 100)%nat →
  (person_id record_no (role_name ro) n =
   person_id record_no' (role_name ro') n' →
   record_no = record_no' ∧ ro = ro' ∧ n = n') ∧
  (∀ record record' : row,
     record "pi_record_no" = record_no →
     record' "pi_record_no" = record_no' →
     person_node record (role_name ro) n =
     person_node record' (role_name ro') n' →
     record_no = record_no' ∧ ro = ro' ∧ n = n').
Proof.
  intros Hn Hn'.
  assert (person_id record_no (role_name ro) n =
          person_id record_no' (role_name ro') n' →
          record_no = record_no' ∧ ro = ro' ∧ n = n') as Hid.
  { unfold person_id. rewrite <- !append_assoc. intros Heq.
    apply append_inj_suffix in Heq as [Heq Hz].
    - apply zfill_str_inj in Hz.
      apply role_name_suffix in Heq as [-> ->]. done.
    - rewrite !length_zfill; [done|by apply length_str_lt_100..]. }
  split; [exact Hid|].
  intros record record' <- <- Heq. unfold person_node in Heq.
  by apply saaPerson_inj, Hid in Heq.
Qed.

Lemma X9_witness : "N-100" = "N-100" ∧ Owner = Owner ∧ 1%nat = 1%nat.
Proof.
  refine (proj1 (X9_person_id_injective "N-100" Owner 1 "N-100" Owner 1 _ _)
            eq_refl); lia.
Defined.

(** X10.  Item identifiers: for item numbers of at most four characters
    two item rows have the same identifier exactly when they have the
    same inventory number and their item numbers are the same once
    padded with zeros, across inventories as within one. *)
Theorem X10_item_id_collisions inventory_no item_no inventory_no' item_no' :
  (String.length item_no ≤ 4)%nat → (String.length item_no' ≤ 4)%nat →
  item_id inventory_no item_no = item_id inventory_no' item_no' ↔
  inventory_no = inventory_no' ∧ zfill 4 item_no = zfill 4 item_no'.
Proof.
  intros Hlen Hlen'. unfold item_id. split.
  - rewrite <- !append_assoc. intros Heq.
    apply append_inj_suffix in Heq as [Heq Hz].
    + by apply append_inj_suffix in Heq as [-> _].
    + by rewrite !length_zfill.
  - by intros [-> ->].
Qed.

Lemma X10_witness :
  item_id "N-100" "1" = item_id "N-100" "01" ↔
  "N-100" = "N-100" ∧ zfill 4 "1" = zfill 4 "01".
Proof.
  apply (X10_item_id_collisions "N-100" "1" "N-100" "01"); simpl; lia.
Defined.

(** *** Items of the two Getty converters *)

(** X11.  [items2rdf] of [convertGPI.py] emits the triples of
    [items2rdf] of [convert.py] and two more, the artist and the work
    type of the item; both are emitted whatever their value. *)
Theorem X11_gpi_items_extend record :
  let item :=
    saaItem (item_id (record "pi_inventory_no") (record "assigned_item_no")) in
  emitted (ConvertGPI.items2rdf record) =
  emitted (Convert.items2rdf record) ∪
  {[ (item, saa "artist", plain (record "artist_name_1"));
     (item, saa "workType", tagged (record "object_type_1") "nl") ]}.
Proof.
  cbv zeta. apply set_eq. intros t.
  rewrite elem_of_union, elem_of_union, !elem_of_singleton.
  rewrite GPIFacts.gpi_items2rdf_triples, ConvertFacts.items2rdf_triples.
  cbv zeta. tauto.
Qed.

(** *** Persons *)

Lemma person_of_In upper record ro n t :
  (1 ≤ n ≤ role_count ro)%nat →
  record (role_column ro +:+ str n) ≠ "" →
  t = (person_node record (role_name ro) n, RDF_type, saa "Person") ∨
  t = (person_node record (role_name ro) n, RDFS_label,
       plain (record (role_column ro +:+ str n))) ∨
  t = (person_node record (role_name ro) n, saa "isInRecord",
       inventory_node record) ∨
  t = (inventory_node record, saa (role_relation ro),
       person_node record (role_name ro) n) →
  t ∈ emitted (description2rdf upper record).
Proof.
  intros Hn Hname Ht. apply description2rdf_triples.
  destruct ro; [do 6 right; left|do 7 right; left|do 8 right; left];
    by exists n.
Qed.

(** X8.  The persons of a Getty description.  The inventory has a
    person in the relation of a role (owners, beneficiaries, appraisers)
    exactly when the person is the node of a position of that role whose
    name is not empty; the nodes typed Person are those persons, and so
    are the nodes with a back reference to the inventory; each of them
    has a label, which is not empty; and no node is a person of two
    roles. *)
Theorem X8_persons_linked upper record :
  let E := emitted (description2rdf upper record) in
  let i := inventory_node record in
  (∀ ro p, (i, saa (role_relation ro), p) ∈ E ↔ person_of record ro p) ∧
  (∀ p, (p, RDF_type, saa "Person") ∈ E ↔ ∃ ro, person_of record ro p) ∧
  (∀ p, (p, saa "isInRecord", i) ∈ E ↔ ∃ ro, person_of record ro p) ∧
  (∀ ro p, person_of record ro p →
     ∃ name, name ≠ "" ∧ (p, RDFS_label, plain name) ∈ E) ∧
  (∀ ro ro' p, person_of record ro p → person_of record ro' p → ro = ro').
Proof.
  cbv zeta. split; [|split; [|split; [|split]]].
  - intros ro p. split.
    + intros H. apply description2rdf_triples in H.
      unfold person_triples in H.
      destruct ro; cbn [role_relation] in H; triple_cases; subst;
        eexists; eauto.
    + intros (n & Hn & Hname & ->).
      apply (person_of_In upper record ro n); tauto.
  - intros p. split.
    + intros H. apply description2rdf_triples in H.
      unfold person_triples in H. triple_cases; subst.
      * exists Owner. eexists; eauto.
      * exists Beneficiary. eexists; eauto.
      * exists Appraiser. eexists; eauto.
    + intros (ro & n & Hn & Hname & ->).
      apply (person_of_In upper record ro n); tauto.
  - intros p. split.
    + intros H. apply description2rdf_triples in H.
      unfold person_triples in H. triple_cases; subst.
      * exists Owner. eexists; eauto.
      * exists Beneficiary. eexists; eauto.
      * exists Appraiser. eexists; eauto.
    + intros (ro & n & Hn & Hname & ->).
      apply (person_of_In upper record ro n); tauto.
  - intros ro p (n & Hn & Hname & ->). eexists. split; [exact Hname|].
    apply (person_of_In upper record ro n); tauto.
  - intros ro ro' p (n & _ & _ & ->) (n' & _ & _ & Heq).
    by apply person_node_inj in Heq as [-> _].
Qed.

(** *** Dates *)

(** X12.  Every begin date, end date and registration date a Getty
    description emits is a date of the calendar (month 1 to 12, day 1 to
    the length of the month, leap years counted), written as an
    [xsd:date] literal; from the year 1000 on its text has ten
    characters.  A date that is not of the calendar is never emitted. *)
Theorem X12_dates_valid upper record s o :
  (s, saa "beginDate", o) ∈ emitted (description2rdf upper record) ∨
  (s, saa "endDate", o) ∈ emitted (description2rdf upper record) ∨
  (s, saa "registrationDate", o) ∈ emitted (description2rdf upper record) →
  ∃ d, o = date_literal (strftime_ymd d) ∧ valid_date d ∧
       ((1000 ≤ year d)%Z → String.length (strftime_ymd d) = 10%nat).
Proof.
  assert (∀ d, valid_date d →
    o = date_literal (strftime_ymd d) →
    ∃ d, o = date_literal (strftime_ymd d) ∧ valid_date d ∧
         ((1000 ≤ year d)%Z → String.length (strftime_ymd d) = 10%nat)) as Hd.
  { intros d Hv ->. exists d. split; [done|]. split; [done|].
    intros _. by apply length_strftime_ymd. }
  intros [H|[H|H]]; apply description2rdf_triples in H;
    unfold person_triples in H; triple_cases; subst.
  - eapply Hd; [|done]. by eapply parse_date_valid.
  - eapply Hd; [|done]. by eapply parse_date_valid.
  - eapply Hd; [|done].
    match goal with
    | Hp : pick_date _ _ = Some _ |- _ => apply pick_date_cases in Hp
    end.
    destruct (begin_date record) as [b|] eqn:Hb.
    + subst. by eapply parse_date_valid.
    + destruct (end_date record) as [e|] eqn:He; [|done].
      subst. by eapply parse_date_valid.
Qed.

(** The begin date of inventory N-100. *)
Lemma X12_witness :
  ∃ d, date_literal "1684-10-04" = date_literal (strftime_ymd d) ∧
       valid_date d ∧
       ((1000 ≤ year d)%Z → String.length (strftime_ymd d) = 10%nat).
Proof.
  apply (X12_dates_valid ascii_upper trip (inventory_node trip)
           (date_literal "1684-10-04")).
  left. apply description2rdf_triples. do 9 right. left.
  exists (Datetime 1684 10 4). split; by vm_compute.
Defined.

(** *** Books and archives *)

(** X16.  In a Getty description the book is held by the archive
    exactly when the inventory is documented in the book and has the
    archive; a book the inventory is documented in carries its number,
    from which its node is made; and no book is given the type
    InventoryBook. *)
Theorem X16_book_held_by_archive upper record b a :
  let E := emitted (description2rdf upper record) in
  let i := inventory_node record in
  ((b, saa "heldBy", a) ∈ E ↔
   (i, saa "documentedIn", b) ∈ E ∧ (i, saa "archive", a) ∈ E) ∧
  ((i, saa "documentedIn", b) ∈ E →
   ∃ n, b = book_node n ∧ (b, saa "inventoryNumber", plain n) ∈ E) ∧
  (b, RDF_type, saa "InventoryBook") ∉ E.
Proof.
  cbv zeta. split; [|split].
  - split.
    + intros H. apply description2rdf_triples in H.
      unfold person_triples in H. triple_cases; subst.
      split; apply description2rdf_triples.
      * do 15 right. eexists. split; [eassumption|]. by right; right.
      * do 13 right. left. by eexists.
    + intros [H1 H2]. apply description2rdf_triples in H1, H2.
      unfold person_triples in H1, H2.
      triple_cases; subst; triple_cases; subst.
      apply description2rdf_triples. do 15 right.
      eexists. split; [eassumption|]. right. left. by eexists.
  - intros H. apply description2rdf_triples in H.
    unfold person_triples in H. triple_cases; subst.
    eexists. split; [done|]. apply description2rdf_triples. do 15 right.
    eexists. split; [eassumption|]. by left.
  - intros H. apply description2rdf_triples in H.
    unfold person_triples in H. triple_cases.
Qed.

End GettyRowFacts.

(** ** convertFrick.py: the date, the item, the owner, the book *)

Module FrickRowFacts.

Import Py RDF Frick PyFacts RDFFacts FrickFacts TextFacts GraphFacts.

#[local] Arguments String.append !_ _ / : simpl nomatch.

(** X13.  A Frick description has exactly one registration date, the
    text of the date column with every slash replaced by a hyphen and
    every "c. " dropped, whatever that text is.  The emitted text holds
    no slash; a date without slash and without "c. " is emitted as it
    is. *)
Theorem X13_frick_date upper record :
  (∀ s o,
     (s, saa "registrationDate", o) ∈ emitted (description2rdf upper record) ↔
     s = inventory_node record ∧ o = date_literal (normalised_date record)) ∧
  contains "/" (normalised_date record) = false ∧
  (contains "/" (record "date") = false →
   contains "c. " (record "date") = false →
   normalised_date record = record "date").
Proof.
  split; [|split].
  - intros s o. split.
    + intros H. apply frick_description2rdf_triples in H.
      triple_cases. by subst.
    + intros [-> ->]. apply frick_description2rdf_triples.
      do 10 right. by left.
  - unfold normalised_date. rewrite contains_char. apply negb_false_iff.
    apply replace_from_nothing_all_chars.
    by apply (replace_char_without "/" "-").
  - intros Hslash Hc. unfold normalised_date.
    by rewrite (replace_absent "/"), (replace_absent "c. ").
Qed.

(** X14.  The Item of a Frick item row is the node of its lot with
    square brackets and backticks removed, and no other node is typed
    Item; the identifier holds none of these characters, and a lot
    without them is its own identifier.  The inventory number takes no
    part in it: two rows whose lots agree once those characters are
    removed describe one Item, which then is in the record of both their
    inventories. *)
Theorem X14_frick_item_node record :
  (∀ s, (s, RDF_type, saa "Item") ∈ emitted (items2rdf record) ↔
        s = saaItem (item_lot record)) ∧
  all_chars lot_char (item_lot record) = true ∧
  (all_chars lot_char (record "inventory_lot") = true →
   item_lot record = record "inventory_lot") ∧
  (∀ record' o,
     item_lot record' = item_lot record →
     ((saaItem (item_lot record), saa "isInRecord", o)
        ∈ emitted (items2rdf record) ∪ emitted (items2rdf record') ↔
      o = inventory_node record ∨ o = inventory_node record')).
Proof.
  split; [|split; [|split]].
  - intros s. rewrite frick_items2rdf_triples. cbv zeta. split.
    + intros H. triple_cases. by subst.
    + intros ->. tauto.
  - apply filter_chars_all_chars.
  - apply filter_chars_id.
  - intros record' o Hlot. rewrite elem_of_union, !frick_items2rdf_triples.
    cbv zeta. fold (item_lot record) (item_lot record'). rewrite Hlot.
    fold (inventory_node record) (inventory_node record'). split.
    + intros [H|H]; triple_cases; subst; tauto.
    + intros [-> | ->]; tauto.
Qed.

(** X15.  A Frick description has at most one Person, the owner, and
    has it exactly when the owner name is not empty: the owner is then
    typed, related to the inventory and refers back to it.  An appraiser
    is not a Person: the inventory is related to the text of the
    appraiser column, a literal, when that text is not empty. *)
Theorem X15_frick_persons upper record s o :
  let E := emitted (description2rdf upper record) in
  ((s, RDF_type, saa "Person") ∈ E ↔
   s = owner_node record ∧ record "owner_name" ≠ "") ∧
  ((s, saa "owners", o) ∈ E ↔
   s = inventory_node record ∧ o = owner_node record ∧
   record "owner_name" ≠ "") ∧
  ((s, saa "isInRecord", o) ∈ E ↔
   s = owner_node record ∧ o = inventory_node record ∧
   record "owner_name" ≠ "") ∧
  ((s, saa "appraisers", o) ∈ E ↔
   s = inventory_node record ∧ o = plain (record "appraiser") ∧
   record "appraiser" ≠ "").
Proof.
  cbv zeta. rewrite !frick_description2rdf_triples.
  split; [|split; [|split]]; split.
  - intros H. triple_cases. by subst.
  - intros [-> ?]. tauto.
  - intros H. triple_cases. by subst.
  - intros (-> & -> & ?). tauto.
  - intros H. triple_cases. by subst.
  - intros (-> & -> & ?). tauto.
  - intros H. triple_cases. by subst.
  - intros (-> & -> & ?). tauto.
Qed.

(** X17.  In a Frick description the book is held by the archive
    exactly when the inventory is documented in the book and has the
    archive; the books the inventory is documented in are the nodes
    typed InventoryBook; and such a book carries its number, from which
    its node is made. *)
Theorem X17_frick_book_held_by_archive upper record b a :
  let E := emitted (description2rdf upper record) in
  let i := inventory_node record in
  ((b, saa "heldBy", a) ∈ E ↔
   (i, saa "documentedIn", b) ∈ E ∧ (i, saa "archive", a) ∈ E) ∧
  ((i, saa "documentedIn", b) ∈ E ↔ (b, RDF_type, saa "InventoryBook") ∈ E) ∧
  ((i, saa "documentedIn", b) ∈ E →
   ∃ n, b = book_node n ∧ (b, saa "inventoryNumber", plain n) ∈ E).
Proof.
  cbv zeta. split; [|split].
  - split.
    + intros H. apply frick_description2rdf_triples in H.
      triple_cases; subst.
      split; apply frick_description2rdf_triples.
      * do 14 right. eexists. split; [eassumption|]. by do 3 right.
      * do 12 right. left. by eexists.
    + intros [H1 H2]. apply frick_description2rdf_triples in H1, H2.
      triple_cases; subst; triple_cases; subst.
      apply frick_description2rdf_triples. do 14 right.
      eexists. split; [eassumption|]. right. left. by eexists.
  - split.
    + intros H. apply frick_description2rdf_triples in H.
      triple_cases; subst.
      apply frick_description2rdf_triples. do 14 right.
      eexists. split; [eassumption|]. by right; right; left.
    + intros H. apply frick_description2rdf_triples in H.
      triple_cases; subst.
      apply frick_description2rdf_triples. do 14 right.
      eexists. split; [eassumption|]. by do 3 right.
  - intros H. apply frick_description2rdf_triples in H.
    triple_cases; subst.
    eexists. split; [done|]. apply frick_description2rdf_triples. do 14 right.
    eexists. split; [eassumption|]. by left.
Qed.

End FrickRowFacts.

(** ** The three [main]s *)

Module MainFacts.

Import Py RDF PyFacts RDFFacts Dialects Builders GraphFacts Samples.

#[local] Arguments String.append !_ _ / : simpl nomatch.

(** The two tables have no key in common: merging them puts the one
    behind the other. *)
Lemma dict_merge_places :
  dict_merge COUNTRIES CITIES = (COUNTRIES ++ CITIES)%list.
Proof. reflexivity. Qed.

Lemma additive_place_labels : additive place_labels.
Proof. unfold place_labels. apply additive_for_each. intros []. additive. Qed.

Lemma elem_of_emitted_place_labels t :
  t ∈ emitted place_labels ↔
  ∃ label value, (label, value) ∈ (COUNTRIES ++ CITIES)%list ∧
    t = (value, RDFS_label, tagged label "en-US").
Proof.
  unfold place_labels. rewrite dict_merge_places.
  rewrite elem_of_emitted_for_each by (intros []; additive).
  split.
  - intros ([label value] & Hin & Ht). exists label, value.
    by apply elem_of_emitted_add in Ht.
  - intros (label & value & Hin & ->). exists (label, value).
    split; [done|]. by apply elem_of_emitted_add.
Qed.

Lemma additive_dialect_description2rdf d upper r :
  additive (description2rdf d upper r).
Proof.
  destruct d.
  - apply ConvertFacts.additive_description2rdf.
  - apply ConvertFacts.additive_description2rdf.
  - apply FrickFacts.frick_additive_description2rdf.
Qed.

Lemma additive_dialect_items2rdf d r : additive (items2rdf d r).
Proof.
  destruct d.
  - apply ConvertFacts.additive_items2rdf.
  - apply GPIFacts.gpi_additive_items2rdf.
  - apply FrickFacts.frick_additive_items2rdf.
Qed.

(** The three [main]s are one program on the builders of their module. *)
Lemma main_unfold d upper descriptions items :
  main d upper descriptions items =
  (place_labels;;
   for_each descriptions (λ r, description2rdf d upper r);;
   for_each items (λ r, items2rdf d r)).
Proof. by destruct d. Qed.

Lemma additive_main d upper descriptions items :
  additive (main d upper descriptions items).
Proof.
  rewrite main_unfold.
  pose proof additive_place_labels.
  pose proof (additive_dialect_description2rdf d upper).
  pose proof (additive_dialect_items2rdf d).
  additive; auto with build.
Qed.

Lemma elem_of_emitted_main d upper descriptions items t :
  t ∈ emitted (main d upper descriptions items) ↔
  t ∈ emitted place_labels ∨
  (∃ r, r ∈ descriptions ∧ t ∈ emitted (description2rdf d upper r)) ∨
  (∃ r, r ∈ items ∧ t ∈ emitted (items2rdf d r)).
Proof.
  rewrite main_unfold.
  pose proof additive_place_labels.
  pose proof (additive_dialect_description2rdf d upper).
  pose proof (additive_dialect_items2rdf d).
  rewrite (elem_of_emitted_bind place_labels)
    by (additive; auto with build).
  rewrite (elem_of_emitted_bind (for_each descriptions _))
    by (additive; auto with build).
  rewrite (elem_of_emitted_for_each descriptions) by done.
  by rewrite (elem_of_emitted_for_each items) by done.
Qed.

(** More rows give a larger graph. *)
Lemma main_subseteq d upper descriptions descriptions' items items' :
  (∀ r, r ∈ descriptions → r ∈ descriptions') →
  (∀ r, r ∈ items → r ∈ items') →
  emitted (main d upper descriptions items) ⊆
  emitted (main d upper descriptions' items').
Proof.
  intros Hd Hi t [H|[(r & Hr & H)|(r & Hr & H)]]%elem_of_emitted_main;
    apply elem_of_emitted_main.
  - left. exact H.
  - right. left. exists r. split; [exact (Hd r Hr)|exact H].
  - right. right. exists r. split; [exact (Hi r Hr)|exact H].
Qed.

(** X5.  The graph of [main], in each of the three converters: [main]
    only adds to the named graph it is given, and what it adds is the
    label, tagged en-US, of each of the fourteen places of the two
    tables, the triples of [description2rdf] for every description row
    and the triples of [items2rdf] for every item row, and nothing
    else. *)
Theorem X5_main_graph d upper descriptions items :
  (∀ g, graph_after (main d upper descriptions items) g =
        emitted (main d upper descriptions items) ∪ g) ∧
  (∀ t, t ∈ emitted (main d upper descriptions items) ↔
     (∃ label value, (label, value) ∈ (COUNTRIES ++ CITIES)%list ∧
        t = (value, RDFS_label, tagged label "en-US")) ∨
     (∃ r, r ∈ descriptions ∧ t ∈ emitted (description2rdf d upper r)) ∨
     (∃ r, r ∈ items ∧ t ∈ emitted (items2rdf d r))).
Proof.
  split.
  - intros g. apply graph_after_additive, additive_main.
  - intros t. by rewrite elem_of_emitted_main, elem_of_emitted_place_labels.
Qed.

(** X6.  The graph of [main] depends on the rows of the two files as
    sets only: the same description rows and the same item rows, in
    whatever order and however often repeated, give the same graph. *)
Theorem X6_main_same_rows d upper descriptions descriptions' items items' g :
  (∀ r, r ∈ descriptions ↔ r ∈ descriptions') →
  (∀ r, r ∈ items ↔ r ∈ items') →
  graph_after (main d upper descriptions items) g =
  graph_after (main d upper descriptions' items') g.
Proof.
  intros Hd Hi. rewrite !graph_after_additive by apply additive_main.
  f_equal.
  apply (anti_symm (⊆)); apply main_subseteq; intros r;
    try apply Hd; apply Hi.
Qed.

Lemma X6_witness :
  graph_after
    (main Getty ascii_upper [trip; trip_antwerp; trip] [untitled_item]) ∅ =
  graph_after
    (main Getty ascii_upper [trip_antwerp; trip]
       [untitled_item; untitled_item]) ∅.
Proof.
  apply (X6_main_same_rows Getty ascii_upper [trip; trip_antwerp; trip]
           [trip_antwerp; trip] [untitled_item]
           [untitled_item; untitled_item] ∅);
    intros r; rewrite !elem_of_cons; tauto.
Defined.

(** *** Places *)

Lemma description2rdf_place d upper r s o :
  ((s, saa "country", o) ∈ emitted (description2rdf d upper r) ↔
   s = inventory_node d r ∧ country_of d r = Some o) ∧
  ((s, saa "city", o) ∈ emitted (description2rdf d upper r) ↔
   s = inventory_node d r ∧ city_of d r = Some o).
Proof.
  destruct d; cbn [description2rdf inventory_node country_of city_of];
    (split; (split; [intros Hin|intros [-> Hin]])).
  1,3,5,7: apply ConvertFacts.description2rdf_triples in Hin;
           unfold Convert.person_triples in Hin; triple_cases; by subst.
  1,3: apply ConvertFacts.description2rdf_triples; do 3 right; left;
       by exists o.
  1,2: apply ConvertFacts.description2rdf_triples; do 4 right; left;
       by exists o.
  1,3: apply FrickFacts.frick_description2rdf_triples in Hin;
       triple_cases; by subst.
  - apply FrickFacts.frick_description2rdf_triples. do 5 right. left.
    by exists o.
  - apply FrickFacts.frick_description2rdf_triples. do 6 right. left.
    by exists o.
Qed.

Lemma country_of_get d r o :
  country_of d r = Some o → ∃ label, get COUNTRIES label = Some o.
Proof. destruct d; cbn [country_of]; by eexists. Qed.

Lemma city_of_get d r o :
  city_of d r = Some o → ∃ label, get CITIES label = Some o.
Proof. destruct d; cbn [city_of]; by eexists. Qed.

Lemma items2rdf_no_place d r s o :
  ¬ (s, saa "country", o) ∈ emitted (items2rdf d r) ∧
  ¬ (s, saa "city", o) ∈ emitted (items2rdf d r).
Proof.
  destruct d; cbn [items2rdf]; split; intros Hin.
  1-2: apply ConvertFacts.items2rdf_triples in Hin; split_cases; triple_inj.
  1-2: apply GPIFacts.gpi_items2rdf_triples in Hin; split_cases; triple_inj.
  all: apply FrickFacts.frick_items2rdf_triples in Hin;
       split_cases; triple_inj.
Qed.

(** X7.  Places.  A description states a country (a city) of its
    inventory exactly when the country (city) of the row is a key of the
    table, and the object is then the value of the table; another text
    gives no statement, and the lookup does not raise.  In the graph of
    [main] every country and every city an inventory is given is
    therefore a place of the tables, and it has its label: the key of
    the table, tagged en-US. *)
Theorem X7_places_labelled d upper descriptions items :
  let G := emitted (main d upper descriptions items) in
  (∀ r s o,
     (s, saa "country", o) ∈ emitted (description2rdf d upper r) ↔
     s = inventory_node d r ∧ country_of d r = Some o) ∧
  (∀ r s o,
     (s, saa "city", o) ∈ emitted (description2rdf d upper r) ↔
     s = inventory_node d r ∧ city_of d r = Some o) ∧
  (∀ s o, (s, saa "country", o) ∈ G →
     ∃ label, get COUNTRIES label = Some o ∧
              (o, RDFS_label, tagged label "en-US") ∈ G) ∧
  (∀ s o, (s, saa "city", o) ∈ G →
     ∃ label, get CITIES label = Some o ∧
              (o, RDFS_label, tagged label "en-US") ∈ G).
Proof.
  cbv zeta.
  split; [intros r s o; apply (description2rdf_place d upper r s o)|].
  split; [intros r s o; apply (description2rdf_place d upper r s o)|].
  split; intros s o Hin.
  - assert (∃ label, get COUNTRIES label = Some o) as [label Hl].
    { apply elem_of_emitted_main in Hin as [Hin|[(r & _ & Hin)|(r & _ & Hin)]].
      - apply elem_of_emitted_place_labels in Hin as (? & ? & _ & Hin).
        triple_inj.
      - apply (proj1 (description2rdf_place d upper r s o)) in Hin
          as [_ Hin].
        exact (country_of_get d r o Hin).
      - destruct (proj1 (items2rdf_no_place d r s o) Hin). }
    exists label. split; [done|]. apply elem_of_emitted_main. left.
    apply elem_of_emitted_place_labels. exists label, o. split; [|done].
    apply elem_of_app. left. by apply get_elem_of.
  - assert (∃ label, get CITIES label = Some o) as [label Hl].
    { apply elem_of_emitted_main in Hin as [Hin|[(r & _ & Hin)|(r & _ & Hin)]].
      - apply elem_of_emitted_place_labels in Hin as (? & ? & _ & Hin).
        triple_inj.
      - apply (proj2 (description2rdf_place d upper r s o)) in Hin
          as [_ Hin].
        exact (city_of_get d r o Hin).
      - destruct (proj2 (items2rdf_no_place d r s o) Hin). }
    exists label. split; [done|]. apply elem_of_emitted_main. left.
    apply elem_of_emitted_place_labels. exists label, o. split; [|done].
    apply elem_of_app. right. by apply get_elem_of.
Qed.

(** *** Objects of the relations *)

(** What a description says about the objects of its relations. *)
Lemma getty_description_objects upper r s o :
  let E := emitted (Convert.description2rdf upper r) in
  ((s, saa "owners", o) ∈ E ∨ (s, saa "beneficiaries", o) ∈ E ∨
   (s, saa "appraisers", o) ∈ E →
   (o, RDF_type, saa "Person") ∈ E ∧ (o, saa "isInRecord", s) ∈ E) ∧
  ((s, saa "archive", o) ∈ E ∨ (s, saa "heldBy", o) ∈ E →
   (o, RDF_type, saa "Archive") ∈ E) ∧
  ((s, saa "documentedIn", o) ∈ E →
   ∃ n, (o, saa "inventoryNumber", plain n) ∈ E) ∧
  ¬ (s, saa "content", o) ∈ E.
Proof.
  cbv zeta. split; [|split; [|split]].
  - intros H.
    assert (∃ ro, s = Convert.inventory_node r ∧ Convert.person_of r ro o)
      as (ro & -> & n & Hn & Hname & ->).
    { destruct H as [H|[H|H]];
        apply ConvertFacts.description2rdf_triples in H;
        unfold Convert.person_triples in H; triple_cases; subst;
        [exists Convert.Owner|exists Convert.Beneficiary
        |exists Convert.Appraiser];
        (split; [done|]); eexists; eauto. }
    split; apply (GettyRowFacts.person_of_In upper r ro n); tauto.
  - intros [H|H]; apply ConvertFacts.description2rdf_triples in H;
      unfold Convert.person_triples in H; triple_cases; subst;
      apply ConvertFacts.description2rdf_triples;
      do 12 right; left; eexists; (split; [eassumption|]); by left.
  - intros H. apply ConvertFacts.description2rdf_triples in H.
    unfold Convert.person_triples in H. triple_cases; subst.
    eexists. apply ConvertFacts.description2rdf_triples. do 15 right.
    eexists. split; [eassumption|]. by left.
  - intros H. apply ConvertFacts.description2rdf_triples in H.
    unfold Convert.person_triples in H. triple_cases.
Qed.

Lemma frick_description_objects upper r s o :
  let E := emitted (Frick.description2rdf upper r) in
  ((s, saa "owners", o) ∈ E →
   (o, RDF_type, saa "Person") ∈ E ∧ (o, saa "isInRecord", s) ∈ E) ∧
  ¬ (s, saa "beneficiaries", o) ∈ E ∧
  ((s, saa "appraisers", o) ∈ E → ∃ x, o = plain x) ∧
  ((s, saa "archive", o) ∈ E ∨ (s, saa "heldBy", o) ∈ E →
   (o, RDF_type, saa "Archive") ∈ E) ∧
  ((s, saa "documentedIn", o) ∈ E →
   ∃ n, (o, saa "inventoryNumber", plain n) ∈ E) ∧
  ¬ (s, saa "content", o) ∈ E.
Proof.
  cbv zeta. split; [|split; [|split; [|split; [|split]]]].
  - intros H. apply FrickFacts.frick_description2rdf_triples in H.
    triple_cases; subst.
    split; apply FrickFacts.frick_description2rdf_triples;
      do 8 right; left; tauto.
  - intros H. apply FrickFacts.frick_description2rdf_triples in H.
    triple_cases.
  - intros H. apply FrickFacts.frick_description2rdf_triples in H.
    triple_cases; subst. by eexists.
  - intros [H|H]; apply FrickFacts.frick_description2rdf_triples in H;
      triple_cases; subst;
      apply FrickFacts.frick_description2rdf_triples;
      do 11 right; left; eexists; (split; [eassumption|]); by left.
  - intros H. apply FrickFacts.frick_description2rdf_triples in H.
    triple_cases; subst.
    eexists. apply FrickFacts.frick_description2rdf_triples. do 14 right.
    eexists. split; [eassumption|]. by left.
  - intros H. apply FrickFacts.frick_description2rdf_triples in H.
    triple_cases.
Qed.

Lemma items_objects d r s o :
  let E := emitted (items2rdf d r) in
  ((s, saa "content", o) ∈ E →
   (o, RDF_type, saa "Item") ∈ E ∧ (o, saa "isInRecord", s) ∈ E) ∧
  ¬ ((s, saa "owners", o) ∈ E ∨ (s, saa "beneficiaries", o) ∈ E ∨
     (s, saa "appraisers", o) ∈ E ∨ (s, saa "archive", o) ∈ E ∨
     (s, saa "heldBy", o) ∈ E ∨ (s, saa "documentedIn", o) ∈ E).
Proof.
  cbv zeta. split.
  - destruct d; cbn [items2rdf]; intros H.
    + apply ConvertFacts.items2rdf_triples in H. triple_cases; subst.
      split; apply ConvertFacts.items2rdf_triples; tauto.
    + apply GPIFacts.gpi_items2rdf_triples in H. triple_cases; subst.
      split; apply GPIFacts.gpi_items2rdf_triples; tauto.
    + apply FrickFacts.frick_items2rdf_triples in H. triple_cases; subst.
      split; apply FrickFacts.frick_items2rdf_triples; tauto.
  - destruct d; cbn [items2rdf]; intros [H|[H|[H|[H|[H|H]]]]].
    1-6: apply ConvertFacts.items2rdf_triples in H; triple_cases.
    1-6: apply GPIFacts.gpi_items2rdf_triples in H; triple_cases.
    all: apply FrickFacts.frick_items2rdf_triples in H; triple_cases.
Qed.

Lemma description_objects d upper r s o :
  let E := emitted (description2rdf d upper r) in
  ((s, saa "owners", o) ∈ E ∨ (s, saa "beneficiaries", o) ∈ E →
   (o, RDF_type, saa "Person") ∈ E ∧ (o, saa "isInRecord", s) ∈ E) ∧
  ((s, saa "appraisers", o) ∈ E →
   match d with
   | Montias => ∃ x, o = plain x
   | _ => (o, RDF_type, saa "Person") ∈ E ∧ (o, saa "isInRecord", s) ∈ E
   end) ∧
  ((s, saa "archive", o) ∈ E ∨ (s, saa "heldBy", o) ∈ E →
   (o, RDF_type, saa "Archive") ∈ E) ∧
  ((s, saa "documentedIn", o) ∈ E →
   ∃ n, (o, saa "inventoryNumber", plain n) ∈ E) ∧
  ¬ (s, saa "content", o) ∈ E.
Proof.
  cbv zeta. destruct d; cbn [description2rdf].
  1-2: destruct (getty_description_objects upper r s o)
         as (Hp & Ha & Hb & Hc);
       (split; [|split; [|split; [|split]]]);
       [intros [H|H]; apply Hp; tauto|intros H; apply Hp; tauto
       |exact Ha|exact Hb|exact Hc].
  destruct (frick_description_objects upper r s o)
    as (Ho & Hn & Hl & Ha & Hb & Hc).
  split; [|split; [|split; [|split]]];
    [intros [H|H]; [exact (Ho H)|destruct (Hn H)]
    |exact Hl|exact Ha|exact Hb|exact Hc].
Qed.

(** A statement of the graph of [main] that is not a label comes from a
    row, and what holds of the graph of the row holds of the graph of
    [main] when it is kept by larger graphs. *)
Lemma main_row (d : dialect) (upper : string → string)
    (descriptions items : list (string → string)) (s p o : term)
    (Q : graph → Prop) :
  p ≠ RDFS_label →
  (∀ E E' : graph, E ⊆ E' → Q E → Q E') →
  (∀ r, (s, p, o) ∈ emitted (description2rdf d upper r) →
        Q (emitted (description2rdf d upper r))) →
  (∀ r, (s, p, o) ∈ emitted (items2rdf d r) → Q (emitted (items2rdf d r))) →
  (s, p, o) ∈ emitted (main d upper descriptions items) →
  Q (emitted (main d upper descriptions items)).
Proof.
  intros Hp Hmono Hd Hi
    [H|[(r & Hr & H)|(r & Hr & H)]]%elem_of_emitted_main.
  - apply elem_of_emitted_place_labels in H as (? & ? & _ & H).
    apply triple_eq in H as (_ & H & _). destruct (Hp H).
  - refine (Hmono _ _ _ (Hd r H)). intros t Ht.
    apply elem_of_emitted_main. right. left. by exists r.
  - refine (Hmono _ _ _ (Hi r H)). intros t Ht.
    apply elem_of_emitted_main. right. right. by exists r.
Qed.

(** X18.  In the graph of [main] the objects of the relations of the
    rows are described.  An owner and a beneficiary of an inventory are
    typed Person and refer back to the inventory; so does an appraiser
    in the two Getty converters, whereas in the Frick converter an
    appraiser is a literal.  The archive of an inventory and the archive
    that holds a book are typed Archive; a book an inventory is
    documented in has an inventory number; an item in the content of an
    inventory is typed Item and refers back to the inventory. *)
Theorem X18_main_objects_described d upper descriptions items s o :
  let G := emitted (main d upper descriptions items) in
  ((s, saa "owners", o) ∈ G ∨ (s, saa "beneficiaries", o) ∈ G →
   (o, RDF_type, saa "Person") ∈ G ∧ (o, saa "isInRecord", s) ∈ G) ∧
  ((s, saa "appraisers", o) ∈ G →
   match d with
   | Montias => ∃ x, o = plain x
   | _ => (o, RDF_type, saa "Person") ∈ G ∧ (o, saa "isInRecord", s) ∈ G
   end) ∧
  ((s, saa "archive", o) ∈ G ∨ (s, saa "heldBy", o) ∈ G →
   (o, RDF_type, saa "Archive") ∈ G) ∧
  ((s, saa "documentedIn", o) ∈ G →
   ∃ n, (o, saa "inventoryNumber", plain n) ∈ G) ∧
  ((s, saa "content", o) ∈ G →
   (o, RDF_type, saa "Item") ∈ G ∧ (o, saa "isInRecord", s) ∈ G).
Proof.
  cbv zeta.
  assert (∀ x, saa x ≠ RDFS_label) as Hsaa.
  { intros x H. unfold saa, ns_term, RDFS_label in H. simpl in H.
    by injection H. }
  split; [|split; [|split; [|split]]].
  - assert (∀ p, p = saa "owners" ∨ p = saa "beneficiaries" →
      (s, p, o) ∈ emitted (main d upper descriptions items) →
      (o, RDF_type, saa "Person") ∈ emitted (main d upper descriptions items) ∧
      (o, saa "isInRecord", s) ∈ emitted (main d upper descriptions items))
      as Hrel.
    { intros p Hp H.
      apply (main_row d upper descriptions items s p o
               (λ E, (o, RDF_type, saa "Person") ∈ E ∧
                     (o, saa "isInRecord", s) ∈ E)); [| | | |exact H].
      - destruct Hp as [-> | ->]; apply Hsaa.
      - intros E E' Hsub [??]. split; by apply Hsub.
      - intros r Hr. apply (description_objects d upper r s o).
        destruct Hp as [-> | ->]; tauto.
      - intros r Hr. destruct (proj2 (items_objects d r s o)).
        destruct Hp as [-> | ->]; tauto. }
    intros [H|H]; [apply (Hrel (saa "owners"))
                  |apply (Hrel (saa "beneficiaries"))]; tauto.
  - intros H.
    apply (main_row d upper descriptions items s (saa "appraisers") o
             (λ E, match d with
                   | Montias => ∃ x, o = plain x
                   | _ => (o, RDF_type, saa "Person") ∈ E ∧
                          (o, saa "isInRecord", s) ∈ E
                   end)); [apply Hsaa| | | |exact H].
    + intros E E' Hsub. destruct d; [intros [??]; split; by apply Hsub..|done].
    + intros r Hr. by apply (description_objects d upper r s o).
    + intros r Hr. destruct (proj2 (items_objects d r s o)). tauto.
  - assert (∀ p, p = saa "archive" ∨ p = saa "heldBy" →
      (s, p, o) ∈ emitted (main d upper descriptions items) →
      (o, RDF_type, saa "Archive") ∈ emitted (main d upper descriptions items))
      as Hrel.
    { intros p Hp H.
      apply (main_row d upper descriptions items s p o
               (λ E, (o, RDF_type, saa "Archive") ∈ E)); [| | | |exact H].
      - destruct Hp as [-> | ->]; apply Hsaa.
      - intros E E' Hsub ?. by apply Hsub.
      - intros r Hr. apply (description_objects d upper r s o).
        destruct Hp as [-> | ->]; tauto.
      - intros r Hr. destruct (proj2 (items_objects d r s o)).
        destruct Hp as [-> | ->]; tauto. }
    intros [H|H]; [apply (Hrel (saa "archive"))
                  |apply (Hrel (saa "heldBy"))]; tauto.
  - intros H.
    apply (main_row d upper descriptions items s (saa "documentedIn") o
             (λ E, ∃ n, (o, saa "inventoryNumber", plain n) ∈ E));
      [apply Hsaa| | | |exact H].
    + intros E E' Hsub [n ?]. exists n. by apply Hsub.
    + intros r Hr. by apply (description_objects d upper r s o).
    + intros r Hr. destruct (proj2 (items_objects d r s o)). tauto.
  - intros H.
    apply (main_row d upper descriptions items s (saa "content") o
             (λ E, (o, RDF_type, saa "Item") ∈ E ∧
                   (o, saa "isInRecord", s) ∈ E));
      [apply Hsaa| | | |exact H].
    + intros E E' Hsub [??]. split; by apply Hsub.
    + intros r Hr.
      destruct (proj2 (proj2 (proj2 (proj2
                  (description_objects d upper r s o)))) Hr).
    + intros r Hr. by apply (items_objects d r s o).
Qed.

(** *** Classes *)

Lemma description_classes d upper r s c :
  (s, RDF_type, c) ∈ emitted (description2rdf d upper r) → c ∈ classes d.
Proof.
  destruct d; cbn [description2rdf]; intros H.
  1-2: apply ConvertFacts.description2rdf_triples in H;
       unfold Convert.person_triples in H; triple_cases; subst;
       unfold classes; set_solver.
  apply FrickFacts.frick_description2rdf_triples in H.
  triple_cases; subst; unfold classes; set_solver.
Qed.

Lemma items_classes d r s c :
  (s, RDF_type, c) ∈ emitted (items2rdf d r) → c ∈ classes d.
Proof.
  destruct d; cbn [items2rdf]; intros H.
  - apply ConvertFacts.items2rdf_triples in H.
    triple_cases; subst; unfold classes; set_solver.
  - apply GPIFacts.gpi_items2rdf_triples in H.
    triple_cases; subst; unfold classes; set_solver.
  - apply FrickFacts.frick_items2rdf_triples in H.
    triple_cases; subst; unfold classes; set_solver.
Qed.

(** X19.  The graph of [main] types its nodes with four classes only:
    Inventory, Person, Archive and Item, and in the Frick converter
    InventoryBook as well.  The places and, in the Getty converters, the
    books have no type. *)
Theorem X19_main_classes d upper descriptions items s c :
  (s, RDF_type, c) ∈ emitted (main d upper descriptions items) →
  c ∈ classes d.
Proof.
  intros H.
  apply (main_row d upper descriptions items s RDF_type c
           (λ _, c ∈ classes d)); [done|done| | |exact H].
  - intros r. apply description_classes.
  - intros r. apply items_classes.
Qed.

(** The inventory of the description of N-100. *)
Lemma X19_witness : saa "Inventory" ∈ classes Getty.
Proof.
  apply (X19_main_classes Getty ascii_upper [trip] []
           (Convert.inventory_node trip) (saa "Inventory")).
  apply elem_of_emitted_main. right. left. exists trip.
  split; [apply list_elem_of_here|].
  apply ConvertFacts.description2rdf_triples. by left.
Defined.

End MainFacts.
